(** * Knowledge-graph merge and force-directed visualization

    A shallow embedding of the two pieces of logic of the application:

    - [updateGraph] (src/App.tsx), which merges the nodes and links proposed
      by the extraction service into the graph state;
    - the [GraphVisualization] component (the d3 simulation effect), with
      the node and link objects in a store addressed by location, so that
      the copy made by the effect, the references d3 writes into the links
      and the in-place updates of every tick are visible.

    Around them, the parts of the other components that compute something:
    what [solveScenarioWithIntegration] (src/services/geminiService.ts)
    makes of a reply, the sheet and the pdf that [ScenarioSolver] exports,
    and the state of [DataImporter], whose requests end in [updateGraph].

    The d3 library is not part of the repository.  What the component relies
    on is modelled after the library's behaviour (d3-force's simulation and
    link force, d3-scale's ordinal scale, d3-drag's events); the numerical
    force computations are kept abstract. *)

From Stdlib Require Import QArith Ascii.
From stdpp Require Import base decidable option list strings pretty gmap.

Open Scope nat_scope.

(** ** JavaScript numbers

    The program only stores numbers, adds, subtracts, multiplies, divides
    and compares them.  They are kept abstract: every theorem holds for any
    carrier, IEEE doubles included.  [nan] also stands for a field that
    was never assigned ([isNaN(undefined)] is true). *)

Class JsNum := {
  num : Type;
  lit : Q -> num;
  nan : num;
  isNaN : num -> bool;
  nadd : num -> num -> num;
  nsub : num -> num -> num;
  nmul : num -> num -> num;
  ndiv : num -> num -> num;
  nlt : num -> num -> bool;
  isNaN_nan : isNaN nan = true
}.

(** Rationals extended with NaN: the instance used for concrete runs. *)

Definition qlift (f : Q -> Q -> Q) (a b : option Q) : option Q :=
  match a, b with
  | Some p, Some q => Some (f p q)
  | _, _ => None
  end.

Definition qlt (a b : option Q) : bool :=
  match a, b with
  | Some p, Some q => if Qlt_le_dec p q then true else false
  | _, _ => false
  end.

Definition q_isNaN (a : option Q) : bool :=
  match a with
  | Some _ => false
  | None => true
  end.

#[export] Instance QNum : JsNum := {|
  num := option Q;
  lit := Some;
  nan := None;
  isNaN := q_isNaN;
  nadd := qlift Qplus;
  nsub := qlift Qminus;
  nmul := qlift Qmult;
  ndiv := qlift Qdiv;
  nlt := qlt;
  isNaN_nan := eq_refl
|}.

(** ** Locations

    Objects live in a store and are named by their index in it. *)

Abbreviation loc := nat.

(** ** Strings *)

Definition lower_ascii (c : ascii) : ascii :=
  let n := nat_of_ascii c in
  if (65 <=? n) && (n <=? 90) then ascii_of_nat (n + 32) else c.

(** [String.prototype.toLowerCase] on ASCII letters.  The proofs use no
    property of it, except on the identifiers of [INITIAL_DATA] and in the
    concrete runs. *)
Fixpoint toLowerCase (s : string) : string :=
  match s with
  | EmptyString => EmptyString
  | String c s' => String (lower_ascii c) (toLowerCase s')
  end.

(** ** Insertion-ordered maps (the JavaScript [Map]) *)

Section InsertionOrderedMap.
Context {V : Type}.

Fixpoint map_has (k : string) (m : list (string * V)) : bool :=
  match m with
  | [] => false
  | (k', _) :: m' => if decide (k = k') then true else map_has k m'
  end.

Fixpoint map_get (k : string) (m : list (string * V)) : option V :=
  match m with
  | [] => None
  | (k', v) :: m' => if decide (k = k') then Some v else map_get k m'
  end.

(** [m.set(k, v)]: an existing key keeps its place, a new key goes last. *)
Fixpoint map_set (k : string) (v : V) (m : list (string * V))
  : list (string * V) :=
  match m with
  | [] => [(k, v)]
  | (k', v') :: m' =>
      if decide (k = k') then (k, v) :: m' else (k', v') :: map_set k v m'
  end.

(** [new Map(entries)] *)
Definition map_of_entries (es : list (string * V)) : list (string * V) :=
  foldl (fun m e => map_set e.1 e.2 m) [] es.

(** [Array.from(m.values())] *)
Definition map_values (m : list (string * V)) : list V := m.*2.

End InsertionOrderedMap.

Section Program.
Context `{JsNum}.

(** ** Data model *)

(** The declarations of [GraphNode], [GraphLink] and [KnowledgeGraphData]
    (at the end of src/App.tsx, lines 162-177): a node has [id], [group]
    and an optional [val], a link has [source], [target] and
    [relationship]. *)
Record GraphNode := mkGraphNode {
  n_id : string;
  n_group : string;
  n_val : option num
}.

Record GraphLink := mkGraphLink {
  l_source : string;
  l_target : string;
  l_relationship : string
}.

Record KnowledgeGraphData := mkGraph {
  nodes : list GraphNode;
  links : list GraphLink
}.

(** ** src/App.tsx *)

Definition node (i g : string) (v : Q) : GraphNode :=
  mkGraphNode i g (Some (lit v)).

Definition INITIAL_DATA : KnowledgeGraphData :=
  {| nodes :=
       [ node "Artificial Intelligence" "Technology" 8;
         node "Machine Learning" "Technology" 5;
         node "Neural Networks" "Concept" 4;
         node "Healthcare" "Industry" 6;
         node "Diagnostics" "Application" 4;
         node "Privacy" "Regulation" 5;
         node "GDPR" "Regulation" 4 ];
     links :=
       [ mkGraphLink "Artificial Intelligence" "Machine Learning" "includes";
         mkGraphLink "Machine Learning" "Neural Networks" "uses";
         mkGraphLink "Artificial Intelligence" "Healthcare" "transforms";
         mkGraphLink "Healthcare" "Diagnostics" "requires";
         mkGraphLink "Artificial Intelligence" "Privacy" "impacts";
         mkGraphLink "Privacy" "GDPR" "governed by" ] |}.

(** [`${l.source}-${l.target}-${l.relationship}`] *)
Definition link_key (l : GraphLink) : string :=
  l_source l +:+ "-" +:+ l_target l +:+ "-" +:+ l_relationship l.

(** [{ ...node, val: 5 }] *)
Definition with_val5 (n : GraphNode) : GraphNode :=
  {| n_id := n_id n; n_group := n_group n; n_val := Some (lit 5) |}.

(** The body of [newNodes.forEach] *)
Definition add_node (m : list (string * GraphNode)) (n : GraphNode)
  : list (string * GraphNode) :=
  if map_has (toLowerCase (n_id n)) m then m
  else map_set (toLowerCase (n_id n)) (with_val5 n) m.

(** The body of [newLinks.forEach]; the state is [finalLinks] and
    [linkSet]. *)
Definition add_link (nodeMap : list (string * GraphNode))
    (st : list GraphLink * gset string) (l : GraphLink)
  : list GraphLink * gset string :=
  let key := link_key l in
  if decide (key ∈ st.2) then st
  else if map_has (toLowerCase (l_source l)) nodeMap
          && map_has (toLowerCase (l_target l)) nodeMap
       then (st.1 ++ [l], {[ key ]} ∪ st.2)
       else st.

Definition merged_nodeMap (prev : KnowledgeGraphData)
    (newNodes : list GraphNode) : list (string * GraphNode) :=
  foldl add_node
    (map_of_entries (map (fun n => (toLowerCase (n_id n), n)) (nodes prev)))
    newNodes.

(** The updater passed to [setGraphData]: from the previous graph state and
    the proposed nodes and links to the next graph state. *)
Definition updateGraph (prev : KnowledgeGraphData)
    (newNodes : list GraphNode) (newLinks : list GraphLink)
  : KnowledgeGraphData :=
  let nodeMap := merged_nodeMap prev newNodes in
  let linkSet : gset string := list_to_set (map link_key (links prev)) in
  let finalLinks := links prev in
  let st := foldl (add_link nodeMap) (finalLinks, linkSet) newLinks in
  {| nodes := map_values nodeMap; links := st.1 |}.

(** The values [graphData] takes: [useState(INITIAL_DATA)], then only
    [updateGraph]. *)
Inductive graph_state : KnowledgeGraphData -> Prop :=
| gs_initial : graph_state INITIAL_DATA
| gs_update prev newNodes newLinks :
    graph_state prev -> graph_state (updateGraph prev newNodes newLinks).

(** Links that a call adds after the previous ones. *)
Definition added_links (prev : KnowledgeGraphData)
    (newNodes : list GraphNode) (newLinks : list GraphLink)
  : list GraphLink :=
  drop (length (links prev)) (links (updateGraph prev newNodes newLinks)).

Definition same_triple (a b : GraphLink) : Prop :=
  l_source a = l_source b /\ l_target a = l_target b
  /\ l_relationship a = l_relationship b.

Definition ci_key (n : GraphNode) : string := toLowerCase (n_id n).

(** ** d3-scale: the ordinal scale behind [color] *)

Definition schemeCategory10 : list string :=
  [ "#1f77b4"; "#ff7f0e"; "#2ca02c"; "#d62728"; "#9467bd";
    "#8c564b"; "#e377c2"; "#7f7f7f"; "#bcbd22"; "#17becf" ].

Fixpoint index_of (d : string) (domain : list string) : option nat :=
  match domain with
  | [] => None
  | d' :: rest => if decide (d = d') then Some 0 else S <$> index_of d rest
  end.

(** One call [scale(d)] of a [d3.scaleOrdinal(range)] with an implicit
    domain: an unknown [d] is appended to the domain, and the result is
    [range[i % range.length]] for the position [i] of [d] in the domain.
    The state of the scale is its domain. *)
Definition scale_call (range domain : list string) (d : string)
  : option string * list string :=
  match index_of d domain with
  | Some i => (range !! (i mod length range), domain)
  | None => (range !! (length domain mod length range), domain ++ [d])
  end.

(** [const color = d3.scaleOrdinal(d3.schemeCategory10)], as a state
    transformer over the domain. *)
Definition color : list string -> string -> option string * list string :=
  scale_call schemeCategory10.

(** [.attr("fill", d => color(d.group))] over the nodes in order. *)
Fixpoint fills (domain : list string) (groups : list string)
  : list (option string) * list string :=
  match groups with
  | [] => ([], domain)
  | g :: rest =>
      let r := color domain g in
      let rs := fills r.2 rest in
      (r.1 :: rs.1, rs.2)
  end.

(** The fills of one effect run: the scale is created by the run, so its
    domain starts empty. *)
Definition node_fills (groups : list string) : list (option string) :=
  (fills [] groups).1.

(** The distinct groups in the order in which a run meets them. *)
Fixpoint first_seen (seen : list string) (groups : list string)
  : list string :=
  match groups with
  | [] => seen
  | g :: rest =>
      first_seen (if decide (g ∈ seen) then seen else seen ++ [g]) rest
  end.

(** ** The object store *)


(** An endpoint of a link: the identifier the caller wrote, or the node
    object d3's link force has put in its place. *)
Inductive EndPt :=
| EId (i : string)
| ERef (l : loc).

(** A node object: the caller's fields and the fields d3-force adds.
    [o_x], [o_y], [o_vx], [o_vy] are [nan] until assigned; [o_fx], [o_fy]
    are [None] when [null] or [undefined]. *)
Record NodeObj := mkNodeObj {
  o_data : GraphNode;
  o_index : option nat;
  o_x : num;
  o_y : num;
  o_vx : num;
  o_vy : num;
  o_fx : option num;
  o_fy : option num
}.

Record LinkObj := mkLinkObj {
  k_source : EndPt;
  k_target : EndPt;
  k_relationship : string;
  k_index : option nat
}.

(** The objects the caller builds from its graph data. *)
Definition host_node (n : GraphNode) : NodeObj :=
  mkNodeObj n None nan nan nan nan None None.

Definition host_link (l : GraphLink) : LinkObj :=
  mkLinkObj (EId (l_source l)) (EId (l_target l)) (l_relationship l) None.

(** ** The rendered primitives *)

Record Line := mkLine {
  ln_datum : loc;
  ln_x1 : option num;
  ln_y1 : option num;
  ln_x2 : option num;
  ln_y2 : option num
}.

Record LinkLabel := mkLinkLabel {
  ll_datum : loc;
  ll_text : string;
  ll_x : option num;
  ll_y : option num
}.

Record Circle := mkCircle {
  c_datum : loc;
  c_r : num;
  c_fill : option string;
  c_cx : option num;
  c_cy : option num
}.

Record Label := mkLabel {
  lb_datum : loc;
  lb_text : string;
  lb_dx : num;
  lb_dy : string;
  lb_x : option num;
  lb_y : option num
}.

(** The four selections [link], [linkLabel], [node], [label] of one effect
    run. *)
Record Scene := mkScene {
  sc_link : list Line;
  sc_linkLabel : list LinkLabel;
  sc_node : list Circle;
  sc_label : list Label
}.

(** ** d3-force: the simulation *)

(** What the forces may write: position and velocity of a node. *)
Record Kin := mkKin {
  kin_x : num;
  kin_y : num;
  kin_vx : num;
  kin_vy : num
}.

(** The numerical side of d3-force, kept abstract: the initial placement of
    node [i] (a phyllotaxis spiral), the decay rate of [alpha], and the
    joint effect of the registered forces (link, many-body, center,
    collide) in one tick, as new positions and velocities for the
    simulation's nodes in order.  The forces get [alpha], the center, the
    tick count (standing for the state of the random source), the nodes and
    the links. *)
Class D3Physics := {
  initial_x : nat -> num;
  initial_y : nat -> num;
  alphaDecay : num;
  forces : num -> num * num -> nat -> list NodeObj -> list LinkObj -> list Kin
}.

Context `{D3Physics}.

Definition alphaMin : num := lit 0.001.
Definition velocityDecay : num := lit 0.6.

(** One simulation, with what its effect run created around it. *)
Record Sim := mkSim {
  s_nodes : list loc;           (* the [nodes] array of the run *)
  s_links : list loc;           (* the [links] array of the run *)
  s_alpha : num;
  s_alphaTarget : num;
  s_running : bool;             (* the stepper timer is active *)
  s_center : option (num * num);(* set once the four forces are registered *)
  s_scene : option Scene;       (* set once the tick listener is registered *)
  s_ticks : nat
}.

(** [for (i = 0; i < n; ++i) f(i, nodes[i])], writing in place. *)
Fixpoint for_nodes {A} (f : nat -> A -> A) (i : nat) (ls : list loc)
    (h : list A) : list A :=
  match ls with
  | [] => h
  | l :: rest => for_nodes f (S i) rest (alter (f i) l h)
  end.

(** The body of [initializeNodes]. *)
Definition init_node (i : nat) (o : NodeObj) : NodeObj :=
  let x1 := match o_fx o with Some v => v | None => o_x o end in
  let y1 := match o_fy o with Some v => v | None => o_y o end in
  let fresh := isNaN x1 || isNaN y1 in
  let still := isNaN (o_vx o) || isNaN (o_vy o) in
  {| o_data := o_data o;
     o_index := Some i;
     o_x := if fresh then initial_x i else x1;
     o_y := if fresh then initial_y i else y1;
     o_vx := if still then lit 0 else o_vx o;
     o_vy := if still then lit 0 else o_vy o;
     o_fx := o_fx o;
     o_fy := o_fy o |}.

(** The body of the integration loop of [tick]:
    [if (node.fx == null) node.x += node.vx *= velocityDecay;
     else node.x = node.fx, node.vx = 0;] and the same for [y]. *)
Definition integrate (o : NodeObj) : NodeObj :=
  let vx1 := match o_fx o with
             | None => nmul (o_vx o) velocityDecay
             | Some _ => lit 0
             end in
  let vy1 := match o_fy o with
             | None => nmul (o_vy o) velocityDecay
             | Some _ => lit 0
             end in
  {| o_data := o_data o;
     o_index := o_index o;
     o_x := match o_fx o with None => nadd (o_x o) vx1 | Some f => f end;
     o_y := match o_fy o with None => nadd (o_y o) vy1 | Some f => f end;
     o_vx := vx1;
     o_vy := vy1;
     o_fx := o_fx o;
     o_fy := o_fy o |}.

Definition with_kin (k : Kin) (o : NodeObj) : NodeObj :=
  {| o_data := o_data o;
     o_index := o_index o;
     o_x := kin_x k;
     o_y := kin_y k;
     o_vx := kin_vx k;
     o_vy := kin_vy k;
     o_fx := o_fx o;
     o_fy := o_fy o |}.

(** The forces write their results into the simulation's nodes. *)
Fixpoint set_kins (ks : list Kin) (ls : list loc) (h : list NodeObj)
  : list NodeObj :=
  match ks, ls with
  | k :: ks', l :: ls' => set_kins ks' ls' (alter (with_kin k) l h)
  | _, _ => h
  end.

Definition objects {A} (h : list A) (ls : list loc) : list A :=
  omap (fun l => h !! l) ls.

(** [tick()]: decay [alpha], run the forces, integrate. *)
Definition tick (s : Sim) (hn : list NodeObj) (hl : list LinkObj)
  : Sim * list NodeObj :=
  let alpha1 :=
    nadd (s_alpha s) (nmul (nsub (s_alphaTarget s) (s_alpha s)) alphaDecay) in
  let hn1 :=
    match s_center s with
    | Some c =>
        set_kins
          (forces alpha1 c (s_ticks s) (objects hn (s_nodes s))
             (objects hl (s_links s)))
          (s_nodes s) hn
    | None => hn
    end in
  let hn2 := for_nodes (fun _ => integrate) 0 (s_nodes s) hn1 in
  ({| s_nodes := s_nodes s; s_links := s_links s;
      s_alpha := alpha1; s_alphaTarget := s_alphaTarget s;
      s_running := s_running s; s_center := s_center s;
      s_scene := s_scene s; s_ticks := S (s_ticks s) |}, hn2).

(** ** d3-force: the link force *)

Inductive Error :=
| NodeNotFound (i : string).

(** [new Map(nodes.map((d, i) => [id(d, i, nodes), d]))] with the accessor
    [d => d.id] of line 47. *)
Definition nodeById (hn : list NodeObj) (ns : list loc)
  : list (string * loc) :=
  map_of_entries
    (omap (fun l => (fun o => (n_id (o_data o), l)) <$> hn !! l) ns).

(** [if (typeof e !== "object") e = find(nodeById, e)], where [find]
    throws "node not found" for an identifier that is not a key. *)
Definition resolve (byId : list (string * loc)) (e : EndPt)
  : Error + EndPt :=
  match e with
  | ERef l => inr (ERef l)
  | EId i =>
      match map_get i byId with
      | Some l => inr (ERef l)
      | None => inl (NodeNotFound i)
      end
  end.

(** The loop of the link force's [initialize]: index every link and replace
    its endpoints by node objects, in place; the first identifier that is
    not found ends the loop with the error. *)
Fixpoint init_links (byId : list (string * loc)) (i : nat) (ls : list loc)
    (hl : list LinkObj) : list LinkObj * option Error :=
  match ls with
  | [] => (hl, None)
  | l :: rest =>
      match hl !! l with
      | None => init_links byId (S i) rest hl
      | Some k =>
          match resolve byId (k_source k) with
          | inl e =>
              (<[l := mkLinkObj (k_source k) (k_target k)
                        (k_relationship k) (Some i)]> hl, Some e)
          | inr src =>
              match resolve byId (k_target k) with
              | inl e =>
                  (<[l := mkLinkObj src (k_target k)
                            (k_relationship k) (Some i)]> hl, Some e)
              | inr tgt =>
                  init_links byId (S i) rest
                    (<[l := mkLinkObj src tgt (k_relationship k) (Some i)]> hl)
              end
          end
      end
  end.

(** ** The component (src/unnamed/part_000) *)

Inductive Status :=
| Mounted
| Unmounted
| Crashed (e : Error).

(** The store, every simulation created so far (a stopped or replaced one
    still exists as an object), and the state of the component: the [data]
    prop, [dimensions], the ref to the svg element, the cleanup returned by
    the last effect run (the simulation it stops) and the simulation whose
    primitives are the children of the svg element. *)
Record World := mkWorld {
  heap_nodes : list NodeObj;
  heap_links : list LinkObj;
  sims : list Sim;
  data_nodes : list loc;
  data_links : list loc;
  dimensions : num * num;
  svgRef : bool;
  status : Status;
  cleanup : option nat;
  attached : option nat
}.

(** [d.source.x] and [d.source.y]: the coordinates of the node object an
    endpoint refers to; an endpoint that is still an identifier has none
    (a property that a string does not have is [undefined]). *)
Definition end_x (hn : list NodeObj) (e : EndPt) : num :=
  match e with
  | ERef l => match hn !! l with Some o => o_x o | None => nan end
  | EId _ => nan
  end.

Definition end_y (hn : list NodeObj) (e : EndPt) : num :=
  match e with
  | ERef l => match hn !! l with Some o => o_y o | None => nan end
  | EId _ => nan
  end.

(** The tick listener, lines 129-147. *)
Definition tick_link (hn : list NodeObj) (hl : list LinkObj) (ln : Line)
  : Line :=
  match hl !! ln_datum ln with
  | Some d =>
      {| ln_datum := ln_datum ln;
         ln_x1 := Some (end_x hn (k_source d));
         ln_y1 := Some (end_y hn (k_source d));
         ln_x2 := Some (end_x hn (k_target d));
         ln_y2 := Some (end_y hn (k_target d)) |}
  | None => ln
  end.

Definition tick_linkLabel (hn : list NodeObj) (hl : list LinkObj)
    (t : LinkLabel) : LinkLabel :=
  match hl !! ll_datum t with
  | Some d =>
      {| ll_datum := ll_datum t;
         ll_text := ll_text t;
         ll_x := Some (ndiv (nadd (end_x hn (k_source d))
                                  (end_x hn (k_target d))) (lit 2));
         ll_y := Some (ndiv (nadd (end_y hn (k_source d))
                                  (end_y hn (k_target d))) (lit 2)) |}
  | None => t
  end.

Definition tick_node (hn : list NodeObj) (c : Circle) : Circle :=
  match hn !! c_datum c with
  | Some d =>
      {| c_datum := c_datum c; c_r := c_r c; c_fill := c_fill c;
         c_cx := Some (o_x d); c_cy := Some (o_y d) |}
  | None => c
  end.

Definition tick_label (hn : list NodeObj) (t : Label) : Label :=
  match hn !! lb_datum t with
  | Some d =>
      {| lb_datum := lb_datum t; lb_text := lb_text t;
         lb_dx := lb_dx t; lb_dy := lb_dy t;
         lb_x := Some (o_x d); lb_y := Some (o_y d) |}
  | None => t
  end.

Definition on_tick (hn : list NodeObj) (hl : list LinkObj) (sc : Scene)
  : Scene :=
  {| sc_link := map (tick_link hn hl) (sc_link sc);
     sc_linkLabel := map (tick_linkLabel hn hl) (sc_linkLabel sc);
     sc_node := map (tick_node hn) (sc_node sc);
     sc_label := map (tick_label hn) (sc_label sc) |}.

(** The primitives as lines 78-123 create them, before the first tick. *)
Definition build_scene (hn : list NodeObj) (hl : list LinkObj)
    (ns ls : list loc) : Scene :=
  {| sc_link := map (fun l => mkLine l None None None None) ls;
     sc_linkLabel :=
       omap (fun l =>
               (fun d => mkLinkLabel l (k_relationship d) None None)
                 <$> hl !! l) ls;
     sc_node :=
       zip_with (fun l f => mkCircle l (lit 8) f None None) ns
         (node_fills (map (fun o => n_group (o_data o)) (objects hn ns)));
     sc_label :=
       omap (fun l =>
               (fun d => mkLabel l (n_id (o_data d)) (lit 12) ".35em"
                           None None) <$> hn !! l) ns |}.

(** The events d3-drag passes to the handlers. *)
Record DragEvent := mkDragEvent {
  ev_active : nat;
  ev_x : num;
  ev_y : num
}.

Definition set_alphaTarget (a : num) (s : Sim) : Sim :=
  {| s_nodes := s_nodes s; s_links := s_links s;
     s_alpha := s_alpha s; s_alphaTarget := a;
     s_running := s_running s; s_center := s_center s;
     s_scene := s_scene s; s_ticks := s_ticks s |}.

Definition set_running (b : bool) (s : Sim) : Sim :=
  {| s_nodes := s_nodes s; s_links := s_links s;
     s_alpha := s_alpha s; s_alphaTarget := s_alphaTarget s;
     s_running := b; s_center := s_center s;
     s_scene := s_scene s; s_ticks := s_ticks s |}.

Definition set_scene (sc : option Scene) (s : Sim) : Sim :=
  {| s_nodes := s_nodes s; s_links := s_links s;
     s_alpha := s_alpha s; s_alphaTarget := s_alphaTarget s;
     s_running := s_running s; s_center := s_center s;
     s_scene := sc; s_ticks := s_ticks s |}.

(** [simulation.restart()] and [simulation.stop()] *)
Definition restart : Sim -> Sim := set_running true.
Definition stop : Sim -> Sim := set_running false.

Definition set_pin (px py : option num) (d : NodeObj) : NodeObj :=
  {| o_data := o_data d; o_index := o_index d;
     o_x := o_x d; o_y := o_y d; o_vx := o_vx d; o_vy := o_vy d;
     o_fx := px; o_fy := py |}.

(** Lines 149-164.  A handler gets the event and the datum of the circle;
    [simulation] is the one of the effect run that created the circle. *)
Definition dragstarted (ev : DragEvent) (s : Sim) (d : NodeObj)
  : Sim * NodeObj :=
  (if ev_active ev =? 0 then restart (set_alphaTarget (lit 0.3) s) else s,
   set_pin (Some (o_x d)) (Some (o_y d)) d).

Definition dragged (ev : DragEvent) (s : Sim) (d : NodeObj)
  : Sim * NodeObj :=
  (s, set_pin (Some (ev_x ev)) (Some (ev_y ev)) d).

Definition dragended (ev : DragEvent) (s : Sim) (d : NodeObj)
  : Sim * NodeObj :=
  (if ev_active ev =? 0 then set_alphaTarget (lit 0) s else s,
   set_pin None None d).

Definition set_store (hn : list NodeObj) (ss : list Sim) (w : World)
  : World :=
  {| heap_nodes := hn; heap_links := heap_links w; sims := ss;
     data_nodes := data_nodes w; data_links := data_links w;
     dimensions := dimensions w; svgRef := svgRef w; status := status w;
     cleanup := cleanup w; attached := attached w |}.

(** The cleanup of the effect, lines 166-168. *)
Definition run_cleanup (w : World) : World :=
  match cleanup w with
  | Some k =>
      {| heap_nodes := heap_nodes w; heap_links := heap_links w;
         sims := alter stop k (sims w);
         data_nodes := data_nodes w; data_links := data_links w;
         dimensions := dimensions w; svgRef := svgRef w;
         status := status w; cleanup := None; attached := attached w |}
  | None => w
  end.

(** The simulation that [d3.forceSimulation(nodes)] returns: the timer is
    started, no force is registered yet. *)
Definition forceSimulation (ns ls : list loc) : Sim :=
  {| s_nodes := ns; s_links := ls;
     s_alpha := lit 1; s_alphaTarget := lit 0;
     s_running := true; s_center := None; s_scene := None; s_ticks := 0 |}.

(** One run of the simulation effect, lines 30-169. *)
Definition run_effect (w : World) : World :=
  if (length (data_nodes w) =? 0) || negb (svgRef w) then
    (* [return;]: nothing is cleared, no cleanup is registered *)
    {| heap_nodes := heap_nodes w; heap_links := heap_links w;
       sims := sims w;
       data_nodes := data_nodes w; data_links := data_links w;
       dimensions := dimensions w; svgRef := svgRef w;
       status := status w; cleanup := None; attached := attached w |}
  else
    (* the copies [{ ...d }] are new objects *)
    let cn := objects (heap_nodes w) (data_nodes w) in
    let cl := objects (heap_links w) (data_links w) in
    let ns := seq (length (heap_nodes w)) (length cn) in
    let ls := seq (length (heap_links w)) (length cl) in
    (* [d3.forceSimulation(nodes)] *)
    let hn := for_nodes init_node 0 ns (heap_nodes w ++ cn) in
    let sim := forceSimulation ns ls in
    (* [.force("link", d3.forceLink(links).id(d => d.id))] *)
    match init_links (nodeById hn ns) 0 ls (heap_links w ++ cl) with
    | (hl, Some e) =>
        (* the error leaves the effect: the svg has been cleared, the
           timer of [sim] is running, and React unmounts the tree *)
        {| heap_nodes := hn; heap_links := hl;
           sims := sims w ++ [sim];
           data_nodes := data_nodes w; data_links := data_links w;
           dimensions := dimensions w; svgRef := svgRef w;
           status := Crashed e; cleanup := None; attached := None |}
    | (hl, None) =>
        let center :=
          (ndiv (dimensions w).1 (lit 2), ndiv (dimensions w).2 (lit 2)) in
        {| heap_nodes := hn; heap_links := hl;
           sims := sims w ++
             [ {| s_nodes := ns; s_links := ls;
                  s_alpha := lit 1; s_alphaTarget := lit 0;
                  s_running := true; s_center := Some center;
                  s_scene := Some (build_scene hn hl ns ls);
                  s_ticks := 0 |} ];
           data_nodes := data_nodes w; data_links := data_links w;
           dimensions := dimensions w; svgRef := svgRef w;
           status := status w;
           cleanup := Some (length (sims w));
           attached := Some (length (sims w)) |}
    end.

(** The timer callback [step] of simulation [k]: [tick()], the tick
    listener, and the end of the loop once [alpha] is below [alphaMin]. *)
Definition step_sim (k : nat) (w : World) : World :=
  match sims w !! k with
  | Some s =>
      if s_running s then
        let r := tick s (heap_nodes w) (heap_links w) in
        let s1 := set_scene (on_tick r.2 (heap_links w) <$> s_scene r.1) r.1 in
        let s2 := if nlt (s_alpha s1) alphaMin then stop s1 else s1 in
        set_store r.2 (<[k := s2]> (sims w)) w
      else w
  | None => w
  end.

(** One animation frame: every active timer fires. *)
Definition frame (w : World) : World :=
  foldl (fun w k => step_sim k w) w (seq 0 (length (sims w))).

(** A drag event on circle [i] of the primitives of simulation [k]. *)
Definition dispatch_drag
    (handler : DragEvent -> Sim -> NodeObj -> Sim * NodeObj)
    (k i : nat) (ev : DragEvent) (w : World) : World :=
  match sims w !! k with
  | Some s =>
      match s_scene s with
      | Some sc =>
          match sc_node sc !! i with
          | Some c =>
              match heap_nodes w !! c_datum c with
              | Some d =>
                  let r := handler ev s d in
                  set_store (<[c_datum c := r.2]> (heap_nodes w))
                    (<[k := r.1]> (sims w)) w
              | None => w
              end
          | None => w
          end
      | None => w
      end
  | None => w
  end.

(** What happens to the component: the window is resized (the first effect
    sets [dimensions]), the caller passes a new snapshot (objects it
    allocated, and the arrays of the new [data]), the host unmounts it, an
    animation frame, and the drag gestures.  A gesture starts on a circle
    that is in the document; its later events come through listeners on
    the window and reach the handlers of the run that created the circle. *)
Inductive Event :=
| Resize (wd ht : num)
| SetData (ns : list GraphNode) (ls : list GraphLink) (dn dl : list loc)
| Unmount
| Frame
| DragStart (k i : nat) (ev : DragEvent)
| Drag (k i : nat) (ev : DragEvent)
| DragEnd (k i : nat) (ev : DragEvent).

Definition is_mounted (w : World) : bool :=
  match status w with
  | Mounted => true
  | _ => false
  end.

Definition step (e : Event) (w : World) : World :=
  match e with
  | Resize wd ht =>
      if is_mounted w then
        run_effect (run_cleanup
          {| heap_nodes := heap_nodes w; heap_links := heap_links w;
             sims := sims w;
             data_nodes := data_nodes w; data_links := data_links w;
             dimensions := (wd, ht); svgRef := svgRef w;
             status := status w; cleanup := cleanup w;
             attached := attached w |})
      else w
  | SetData ns ls dn dl =>
      if is_mounted w then
        run_effect (run_cleanup
          {| heap_nodes := heap_nodes w ++ map host_node ns;
             heap_links := heap_links w ++ map host_link ls;
             sims := sims w;
             data_nodes := dn; data_links := dl;
             dimensions := dimensions w; svgRef := svgRef w;
             status := status w; cleanup := cleanup w;
             attached := attached w |})
      else w
  | Unmount =>
      if is_mounted w then
        let w1 := run_cleanup w in
        {| heap_nodes := heap_nodes w1; heap_links := heap_links w1;
           sims := sims w1;
           data_nodes := data_nodes w1; data_links := data_links w1;
           dimensions := dimensions w1; svgRef := false;
           status := Unmounted; cleanup := None; attached := None |}
      else w
  | Frame => frame w
  | DragStart k i ev =>
      if decide (attached w = Some k) then dispatch_drag dragstarted k i ev w
      else w
  | Drag k i ev => dispatch_drag dragged k i ev w
  | DragEnd k i ev => dispatch_drag dragended k i ev w
  end.

(** The first render: [dimensions] is 800 by 600, the store holds the
    caller's objects.  The first effect of the component then calls
    [handleResize], which is a [Resize] event like any later one. *)
Definition mount (ns : list GraphNode) (ls : list GraphLink) : World :=
  run_effect
    {| heap_nodes := map host_node ns; heap_links := map host_link ls;
       sims := [];
       data_nodes := seq 0 (length ns); data_links := seq 0 (length ls);
       dimensions := (lit 800, lit 600); svgRef := true;
       status := Mounted; cleanup := None; attached := None |}.

(** Objects of the store that no simulation holds: the caller's. *)
Definition engine_node (w : World) (l : loc) : bool :=
  existsb (fun s => bool_decide (l ∈ s_nodes s)) (sims w).

Definition engine_link (w : World) (l : loc) : bool :=
  existsb (fun s => bool_decide (l ∈ s_links s)) (sims w).

Definition caller_node (w : World) (l : loc) : bool :=
  bool_decide (l < length (heap_nodes w)) && negb (engine_node w l).

Definition caller_link (w : World) (l : loc) : bool :=
  bool_decide (l < length (heap_links w)) && negb (engine_link w l).

(** A new snapshot is made of the caller's own objects, old or new. *)
Definition valid_event (w : World) (e : Event) : bool :=
  match e with
  | SetData ns ls dn dl =>
      forallb (fun l => bool_decide (l < length (heap_nodes w) + length ns)
                        && negb (engine_node w l)) dn
      && forallb (fun l => bool_decide (l < length (heap_links w) + length ls)
                           && negb (engine_link w l)) dl
  | _ => true
  end.

Fixpoint run (es : list Event) (w : World) : World :=
  match es with
  | [] => w
  | e :: rest => run rest (step e w)
  end.

Inductive reachable : World -> Prop :=
| reach_mount ns ls : reachable (mount ns ls)
| reach_step w e :
    reachable w -> valid_event w e = true -> reachable (step e w).

(** ** Invariants of the merge *)

(** A node map is keyed by the lowercased identifier of each value, each
    key once. *)
Definition keyed (m : list (string * GraphNode)) : Prop :=
  NoDup m.*1 /\ Forall (fun e => e.1 = ci_key e.2) m.

(** Identifiers are pairwise distinct, ignoring case. *)
Definition distinct_ids (g : KnowledgeGraphData) : Prop :=
  NoDup (map ci_key (nodes g)).

(** Every link collected so far has its key in the set. *)
Definition keys_recorded (st : list GraphLink * gset string) : Prop :=
  forall l, l ∈ st.1 -> link_key l ∈ st.2.

(** ** Invariants of the store *)

(** The part of a simulation that never changes once its effect run has
    returned: the locations of its nodes and links, whether forces are
    registered, and the data bound to its primitives. *)
Record Skeleton := mkSkeleton {
  sk_nodes : list loc;
  sk_links : list loc;
  sk_forces : bool;
  sk_scene :
    option (list loc * list loc * list loc * list (loc * num * string))
}.

Definition scene_data (sc : Scene)
  : list loc * list loc * list loc * list (loc * num * string) :=
  (map ln_datum (sc_link sc), map ll_datum (sc_linkLabel sc),
   map c_datum (sc_node sc),
   map (fun t => (lb_datum t, lb_dx t, lb_dy t)) (sc_label sc)).

Definition skeleton (s : Sim) : Skeleton :=
  {| sk_nodes := s_nodes s;
     sk_links := s_links s;
     sk_forces := match s_center s with Some _ => true | None => false end;
     sk_scene := scene_data <$> s_scene s |}.

(** Link [l] has both endpoints replaced by node objects among [ns]. *)
Definition resolved_in (hl : list LinkObj) (ns : list loc) (l : loc) : Prop :=
  exists d a b, hl !! l = Some d /\ k_source d = ERef a /\ k_target d = ERef b
                /\ a ∈ ns /\ b ∈ ns.

Definition skeleton_ok (n : nat) (hl : list LinkObj) (sk : Skeleton) : Prop :=
  Forall (fun l => l < n) (sk_nodes sk) /\
  Forall (fun l => l < length hl) (sk_links sk) /\
  (sk_forces sk = true \/ is_Some (sk_scene sk) ->
   Forall (resolved_in hl (sk_nodes sk)) (sk_links sk)) /\
  (forall d, sk_scene sk = Some d ->
     Forall (fun l => l ∈ sk_links sk) d.1.1.1 /\
     Forall (fun l => l ∈ sk_links sk) d.1.1.2 /\
     Forall (fun l => l ∈ sk_nodes sk) d.1.2 /\
     Forall (fun p => p.1.1 ∈ sk_nodes sk /\ p.1.2 = lit 12 /\ p.2 = ".35em")
       d.2).

(** No two simulations share a node object. *)
Definition separated (sks : list Skeleton) : Prop :=
  forall i j a b l, sks !! i = Some a -> sks !! j = Some b -> i <> j ->
    l ∈ sk_nodes a -> l ∉ sk_nodes b.

Record wf (w : World) : Prop := mkWf {
  wf_sims :
    Forall (skeleton_ok (length (heap_nodes w)) (heap_links w))
      (map skeleton (sims w));
  wf_sep : separated (map skeleton (sims w));
  wf_data_nodes : Forall (fun l => caller_node w l = true) (data_nodes w);
  wf_data_links : Forall (fun l => caller_link w l = true) (data_links w);
  wf_caller_nodes :
    forall l, caller_node w l = true ->
      exists n, heap_nodes w !! l = Some (host_node n);
  wf_caller_links :
    forall l, caller_link w l = true ->
      exists g, heap_links w !! l = Some (host_link g)
}.

(** The identifiers of the node objects [ns]. *)
Definition ids_of (hn : list NodeObj) (ns : list loc) : list string :=
  map (fun o => n_id (o_data o)) (objects hn ns).

(** The caller's objects are still the caller's, with all their fields. *)
Definition keeps_caller (w w' : World) : Prop :=
  (forall l, caller_node w l = true ->
     caller_node w' l = true /\ heap_nodes w' !! l = heap_nodes w !! l) /\
  (forall l, caller_link w l = true ->
     caller_link w' l = true /\ heap_links w' !! l = heap_links w !! l).

Fixpoint valid_run (es : list Event) (w : World) : bool :=
  match es with
  | [] => true
  | e :: rest => valid_event w e && valid_run rest (step e w)
  end.

(** ** Notions of the statements *)

(** The events that run the cleanup of the effect. *)
Definition is_teardown (e : Event) : bool :=
  match e with
  | Resize _ _ | SetData _ _ _ _ | Unmount => true
  | _ => false
  end.

(** A primitive shows the current state of the objects in the store. *)
Definition link_rendered (hn : list NodeObj) (hl : list LinkObj) (ln : Line)
  : Prop :=
  exists d a b na nb,
    hl !! ln_datum ln = Some d /\
    k_source d = ERef a /\ k_target d = ERef b /\
    hn !! a = Some na /\ hn !! b = Some nb /\
    ln_x1 ln = Some (o_x na) /\ ln_y1 ln = Some (o_y na) /\
    ln_x2 ln = Some (o_x nb) /\ ln_y2 ln = Some (o_y nb).

Definition linkLabel_rendered (hn : list NodeObj) (hl : list LinkObj)
    (t : LinkLabel) : Prop :=
  exists d a b na nb,
    hl !! ll_datum t = Some d /\
    k_source d = ERef a /\ k_target d = ERef b /\
    hn !! a = Some na /\ hn !! b = Some nb /\
    ll_x t = Some (ndiv (nadd (o_x na) (o_x nb)) (lit 2)) /\
    ll_y t = Some (ndiv (nadd (o_y na) (o_y nb)) (lit 2)).

Definition node_rendered (hn : list NodeObj) (c : Circle) : Prop :=
  exists d, hn !! c_datum c = Some d /\
    c_cx c = Some (o_x d) /\ c_cy c = Some (o_y d).

Definition label_rendered (hn : list NodeObj) (t : Label) : Prop :=
  exists d, hn !! lb_datum t = Some d /\
    lb_x t = Some (o_x d) /\ lb_y t = Some (o_y d) /\
    lb_dx t = lit 12 /\ lb_dy t = ".35em".

Definition rendered (hn : list NodeObj) (hl : list LinkObj) (sc : Scene)
  : Prop :=
  Forall (link_rendered hn hl) (sc_link sc) /\
  Forall (linkLabel_rendered hn hl) (sc_linkLabel sc) /\
  Forall (node_rendered hn) (sc_node sc) /\
  Forall (label_rendered hn) (sc_label sc).

(** A node held at [(px, py)]. *)
Definition pinned_at (px py : num) (d : NodeObj) : Prop :=
  o_fx d = Some px /\ o_fy d = Some py.

Definition held_at (px py : num) (d : NodeObj) : Prop :=
  pinned_at px py d /\ o_x d = px /\ o_y d = py.

(** The simulation of the current effect run, if it has one, and the node
    objects this simulation works on. *)
Definition active_sim (w : World) : option Sim :=
  match cleanup w with
  | Some k => sims w !! k
  | None => None
  end.

Definition active_nodes (w : World) : list NodeObj :=
  match active_sim w with
  | Some s => objects (heap_nodes w) (s_nodes s)
  | None => []
  end.

(** Position and velocity of a node. *)
Definition kin_of (o : NodeObj) : Kin :=
  mkKin (o_x o) (o_y o) (o_vx o) (o_vy o).

(** Node [i] as [d3.forceSimulation] leaves a copy of the caller's node
    [n]: at its initial place, at rest, not pinned. *)
Definition fresh_node (i : nat) (n : GraphNode) : NodeObj :=
  {| o_data := n; o_index := Some i;
     o_x := initial_x i; o_y := initial_y i;
     o_vx := lit 0; o_vy := lit 0;
     o_fx := None; o_fy := None |}.

(** The identifiers of the nodes of the snapshot, and a snapshot with a
    link one of whose endpoints is none of them. *)
Definition snapshot_ids (w : World) : list string :=
  ids_of (heap_nodes w) (data_nodes w).

Definition dangling (w : World) : Prop :=
  exists d i, d ∈ objects (heap_links w) (data_links w) /\
              (k_source d = EId i \/ k_target d = EId i) /\
              i ∉ snapshot_ids w.

(** The component as the first render leaves it, before its effect runs. *)
Definition rendered_first (ns : list GraphNode) (ls : list GraphLink)
  : World :=
  {| heap_nodes := map host_node ns; heap_links := map host_link ls;
     sims := [];
     data_nodes := seq 0 (length ns); data_links := seq 0 (length ls);
     dimensions := (lit 800, lit 600); svgRef := true;
     status := Mounted; cleanup := None; attached := None |}.

(** Every endpoint of every link of the snapshot is the id of one of its
    nodes. *)
Definition resolvable (w : World) : Prop :=
  forall d i, d ∈ objects (heap_links w) (data_links w) ->
    k_source d = EId i \/ k_target d = EId i -> i ∈ snapshot_ids w.

(** A mounted component has its svg element, and a snapshot that is empty
    or without dangling links. *)
Definition settled (w : World) : Prop :=
  is_mounted w = true ->
  svgRef w = true /\ (data_nodes w = [] \/ resolvable w).

(** Simulation [k] is stopped for good: its timer is off, its primitives
    are not in the document, and since the world [w0] in which [s0] was
    its state it has not ticked and its nodes have not moved. *)
Definition torn_down (k : nat) (s0 : Sim) (w0 w : World) : Prop :=
  attached w <> Some k /\
  exists s, sims w !! k = Some s /\
    s_running s = false /\ s_ticks s = s_ticks s0 /\
    s_nodes s = s_nodes s0 /\
    forall l, l ∈ s_nodes s0 ->
      kin_of <$> heap_nodes w !! l = kin_of <$> heap_nodes w0 !! l.

(** The same world with other link objects in the store. *)
Definition with_links (hl : list LinkObj) (w : World) : World :=
  {| heap_nodes := heap_nodes w; heap_links := hl; sims := sims w;
     data_nodes := data_nodes w; data_links := data_links w;
     dimensions := dimensions w; svgRef := svgRef w; status := status w;
     cleanup := cleanup w; attached := attached w |}.

End Program.

(** ** src/services/geminiService.ts: [extractKnowledgeFromText] *)

Section Extraction.
Context `{JsNum}.

(** What [extractKnowledgeFromText] returns for the parsed response
    [data], lines 96-99: every node gets the default [val]. *)
Definition processed (data : KnowledgeGraphData) : KnowledgeGraphData :=
  {| nodes := map with_val5 (nodes data); links := links data |}.

End Extraction.

(** ** src/services/geminiService.ts: [solveScenarioWithIntegration] *)

(** The fields of the reply of [generateContent] that the function reads;
    a field that may be missing is an option. *)
Record WebRef := mkWebRef {
  web_uri : option string;
  web_title : option string
}.

Record GroundingChunk := mkGroundingChunk {
  gc_web : option WebRef
}.

Record GroundingMetadata := mkGroundingMetadata {
  gm_groundingChunks : option (list GroundingChunk)
}.

Record Candidate := mkCandidate {
  cd_groundingMetadata : option GroundingMetadata
}.

Record Response := mkResponse {
  r_text : option string;
  r_candidates : option (list Candidate)
}.

(** The result type, [ScenarioResult] (src/App.tsx, lines 179-183),
    without its optional [thoughtProcess], which no code sets. *)
Record Source := mkSource {
  title : string;
  uri : string
}.

Record ScenarioResult := mkScenarioResult {
  solution : string;
  sources : list Source
}.

(** A string in a condition: missing and empty count as false. *)
Definition truthy (s : option string) : bool :=
  match s with
  | Some s => negb (String.eqb s "")
  | None => false
  end.

(** [a || d] for strings. *)
Definition or_else (a : option string) (d : string) : string :=
  match a with
  | Some s => if String.eqb s "" then d else s
  | None => d
  end.

(** [response.candidates?.[0]?.groundingMetadata?.groundingChunks || []] *)
Definition groundingChunks (r : Response) : list GroundingChunk :=
  match r_candidates r with
  | Some (c :: _) =>
      match cd_groundingMetadata c with
      | Some gm =>
          match gm_groundingChunks gm with
          | Some cs => cs
          | None => []
          end
      | None => []
      end
  | _ => []
  end.

(** [c => c.web?.uri && c.web?.title] *)
Definition has_web (c : GroundingChunk) : bool :=
  match gc_web c with
  | Some w => truthy (web_uri w) && truthy (web_title w)
  | None => false
  end.

(** [c => ({ title: c.web.title, uri: c.web.uri })], on the chunks that
    passed the filter. *)
Definition to_source (c : GroundingChunk) : option Source :=
  match gc_web c with
  | Some w =>
      match web_title w, web_uri w with
      | Some t, Some u => Some (mkSource t u)
      | _, _ => None
      end
  | None => None
  end.

Definition web_sources (cs : list GroundingChunk) : list Source :=
  omap to_source (List.filter has_web cs).

(** [Array.from(new Map(sources.map(item => [item.uri, item])).values())] *)
Definition uniqueSources (ss : list Source) : list Source :=
  map_values (map_of_entries (map (fun item => (uri item, item)) ss)).

(** Lines 150-165: the result for a reply. *)
Definition scenario_result (r : Response) : ScenarioResult :=
  {| solution := or_else (r_text r) "Could not generate a solution.";
     sources := uniqueSources (web_sources (groundingChunks r)) |}.

(** The call either returns a reply or throws ([None]); the function then
    throws its own error. *)
Definition solveScenarioWithIntegration (reply : option Response)
  : string + ScenarioResult :=
  match reply with
  | Some r => inr (scenario_result r)
  | None => inl "Failed to generate solution."
  end.

(** ** src/components/ScenarioSolver.tsx *)

(** [handleSolve], lines 21-27: the result that is shown. *)
Definition shown_result (reply : option Response) : ScenarioResult :=
  match solveScenarioWithIntegration reply with
  | inr response => response
  | inl _ =>
      {| solution := "Error generating solution. Please try again.";
         sources := [] |}
  end.

(** Strings are sequences of bytes; the characters the exports treat
    specially are the double quote and the line feed. *)
Definition dquote : ascii := "034"%char.
Definition newline : ascii := "010"%char.

(** [s.replace(/c/g, r)] for a one-character pattern. *)
Fixpoint replace_all (c : ascii) (r : string) (s : string) : string :=
  match s with
  | EmptyString => EmptyString
  | String a s' =>
      if Ascii.eqb a c then r +:+ replace_all c r s'
      else String a (replace_all c r s')
  end.

(** [l.join(sep)] *)
Definition join (sep : string) (l : list string) : string :=
  String.concat sep l.

(** The byte order mark, as the bytes the file starts with. *)
Definition BOM : string :=
  String "239"%char (String "187"%char (String "191"%char EmptyString)).

(** [handleExport('excel')], lines 70-74: the contents of the file. *)
Definition csvHeader : string := BOM +:+ "Section,Content" +:+ String newline "".

Definition solutionRow (result : ScenarioResult) : string :=
  "Solution," +:+ String dquote
    (replace_all dquote (String dquote (String dquote "")) (solution result)
     +:+ String dquote (String newline "")).

Definition sourceRow (s : Source) : string :=
  "Source," +:+ String dquote
    (title s +:+ " (" +:+ uri s +:+ ")" +:+ String dquote "").

Definition sourceRows (result : ScenarioResult) : string :=
  join (String newline "") (map sourceRow (sources result)).

Definition csvContent (result : ScenarioResult) : string :=
  csvHeader +:+ solutionRow result +:+ sourceRows result.

(** How a reader of the file reads a quoted field, after its opening
    quote: a doubled quote is a quote of the contents, a single one ends
    the field.  The result is the contents and what follows the field. *)
Fixpoint read_quoted (s : string) : option (string * string) :=
  match s with
  | EmptyString => None
  | String a s' =>
      if Ascii.eqb a dquote then
        match s' with
        | String b s'' =>
            if Ascii.eqb b dquote then
              (fun r => (String dquote r.1, r.2)) <$> read_quoted s''
            else Some (EmptyString, s')
        | EmptyString => Some (EmptyString, EmptyString)
        end
      else (fun r => (String a r.1, r.2)) <$> read_quoted s'
  end.

(** *** The pdf export *)

(** One call of [doc.text(text, x, y)], with the font size in force. *)
Record Draw := mkDraw {
  dr_text : string;
  dr_x : nat;
  dr_y : nat;
  dr_size : nat
}.

(** The part of a jsPDF document that the export uses: the pages that are
    complete, the page being written, and the font size. *)
Record Pdf := mkPdf {
  pd_done : list (list Draw);
  pd_page : list Draw;
  pd_fontSize : nat
}.

Definition jsPDF : Pdf := mkPdf [] [] 16.

Definition setFontSize (n : nat) (d : Pdf) : Pdf :=
  mkPdf (pd_done d) (pd_page d) n.

Definition text (t : string) (x y : nat) (d : Pdf) : Pdf :=
  mkPdf (pd_done d) (pd_page d ++ [mkDraw t x y (pd_fontSize d)])
    (pd_fontSize d).

Definition addPage (d : Pdf) : Pdf :=
  mkPdf (pd_done d ++ [pd_page d]) [] (pd_fontSize d).

Definition pages (d : Pdf) : list (list Draw) := pd_done d ++ [pd_page d].

Section PdfExport.

(** [doc.splitTextToSize(text, 180)], which depends on the font size in
    force; what it computes is left open. *)
Variable splitTextToSize : nat -> string -> list string.

(** [if (y > 280) { doc.addPage(); y = 20; } doc.text(line, 10, y);
    y += step;] *)
Definition put_line (step : nat) (st : Pdf * nat) (line : string)
  : Pdf * nat :=
  let st1 := if 280 <? st.2 then (addPage st.1, 20) else st in
  (text line 10 st1.2 st1.1, st1.2 + step).

(** The body of [result.sources.forEach]. *)
Definition put_source (st : Pdf * nat) (s : Source) : Pdf * nat :=
  let st1 :=
    foldl (put_line 5) st
      (splitTextToSize (pd_fontSize st.1) (title s +:+ " - " +:+ uri s)) in
  (st1.1, st1.2 + 2).

(** [handleExport('pdf')], lines 84-112: the document that is saved. *)
Definition export_pdf (result : ScenarioResult) : Pdf :=
  let d := setFontSize 20 jsPDF in
  let d := text "Strategic Action Plan" 10 20 d in
  let d := setFontSize 12 d in
  let st :=
    foldl (put_line 7) (d, 30)
      (splitTextToSize (pd_fontSize d) (solution result)) in
  if 0 <? length (sources result) then
    let y := st.2 + 10 in
    let st1 := if 280 <? y then (addPage st.1, 20) else (st.1, y) in
    let d := setFontSize 14 st1.1 in
    let d := text "Sources:" 10 st1.2 d in
    let y := st1.2 + 10 in
    let d := setFontSize 10 d in
    (foldl put_source (d, y) (sources result)).1
  else st.1.

(** The lines of the document in reading order, as the export lays them
    out. *)
Definition pdf_lines (result : ScenarioResult) : list string :=
  "Strategic Action Plan" :: splitTextToSize 12 (solution result) ++
  match sources result with
  | [] => []
  | _ =>
      "Sources:" ::
      concat (map (fun s => splitTextToSize 10 (title s +:+ " - " +:+ uri s))
                (sources result))
  end.

End PdfExport.

(** A string has a given character somewhere. *)
Fixpoint has_char (c : ascii) (s : string) : bool :=
  match s with
  | EmptyString => false
  | String a s' => Ascii.eqb a c || has_char c s'
  end.

(** A call of [doc.text] is at the left margin and between the top and
    bottom margins. *)
Definition in_margins (dr : Draw) : Prop :=
  dr_x dr = 10 /\ 20 <= dr_y dr <= 280.

(** Every call drew within the margins, and no page is blank. *)
Definition pdf_ok (d : Pdf) : Prop :=
  pd_page d <> [] /\
  Forall (fun p => p <> []) (pd_done d) /\
  Forall (Forall in_margins) (pages d).

(** The texts of a document in reading order. *)
Definition drawn (d : Pdf) : list string := map dr_text (concat (pages d)).

(** ** src/components/DataImporter.tsx *)

(** [s.split(c)] for a one-character separator. *)
Fixpoint split (sep : ascii) (s : string) : list string :=
  match s with
  | EmptyString => [EmptyString]
  | String c s' =>
      if Ascii.eqb c sep then EmptyString :: split sep s'
      else match split sep s' with
           | h :: t => String c h :: t
           | [] => [String c EmptyString]
           end
  end.

Definition comma : ascii := ","%char.

(** [!s.trim()], for the white space of ASCII.  [trim] also removes the
    other Unicode spaces, so the code takes more texts for blank than
    [blank] does. *)
Definition is_space (c : ascii) : bool :=
  let n := nat_of_ascii c in
  (9 <=? n) && (n <=? 13) || (n =? 32).

Fixpoint blank (s : string) : bool :=
  match s with
  | EmptyString => true
  | String c s' => is_space c && blank s'
  end.

(** [FileInput] of the service; [fi_data] is the second piece of the data
    URL, which is missing when the URL has no comma. *)
Record FileInput := mkFileInput {
  fi_mimeType : string;
  fi_data : option string
}.

Definition binaryMimeTypes : list string :=
  [ "application/pdf";
    "application/vnd.openxmlformats-officedocument.wordprocessingml.document";
    "application/msword";
    "application/vnd.openxmlformats-officedocument.spreadsheetml.sheet";
    "application/vnd.ms-excel";
    "application/vnd.openxmlformats-officedocument.presentationml.presentation";
    "application/vnd.ms-powerpoint" ].

Definition isBinary (type : string) : bool :=
  bool_decide (type ∈ binaryMimeTypes).

Inductive NotificationType :=
| success
| error.

(** The state of the component. *)
Record Importer := mkImporter {
  inputText : string;
  uploadedFile : option (string * FileInput);
  isProcessing : bool;
  notification : option (NotificationType * string)
}.

Definition Importer0 : Importer := mkImporter "" None false None.

(** What [FileReader.readAsDataURL] produces for a file of a given type
    with a given base64 encoding. *)
Definition dataURL (type payload : string) : string :=
  "data:" +:+ type +:+ ";base64," +:+ payload.

(** [reader.onload], lines 69-89, for a file with a name and a type and
    the result of the reader. *)
Definition onload (name type result : string) (st : Importer) : Importer :=
  if isBinary type then
    {| inputText := "";
       uploadedFile := Some (name, mkFileInput type (split comma result !! 1));
       isProcessing := isProcessing st;
       notification := notification st |}
  else
    {| inputText := result;
       uploadedFile := None;
       isProcessing := isProcessing st;
       notification := notification st |}.

Section Importing.
Context `{JsNum}.

(** [extractKnowledgeFromText] for the parsed reply of the model; [None]
    is a call or a parse that threw. *)
Definition extractKnowledgeFromText (reply : option KnowledgeGraphData)
  : option KnowledgeGraphData :=
  processed <$> reply.

Definition success_message (result : KnowledgeGraphData) : string :=
  "Successfully integrated " +:+ pretty (length (nodes result)) +:+
  " entities & " +:+ pretty (length (links result)) +:+
  " links into the graph.".

(** [processInput], lines 17-48, before and after the [await]; the second
    part also gets the graph state of the application, which
    [onUpdateGraph] updates. *)
Definition processInput_start (st : Importer) : Importer :=
  {| inputText := inputText st; uploadedFile := uploadedFile st;
     isProcessing := true; notification := None |}.

Definition processInput_end (reply : option KnowledgeGraphData)
    (st : Importer) (graph : KnowledgeGraphData)
  : Importer * KnowledgeGraphData :=
  match extractKnowledgeFromText reply with
  | Some result =>
      ({| inputText := ""; uploadedFile := None; isProcessing := false;
          notification := Some (success, success_message result) |},
       updateGraph graph (nodes result) (links result))
  | None =>
      ({| inputText := inputText st; uploadedFile := uploadedFile st;
          isProcessing := false;
          notification :=
            Some (error,
                  "Processing failed. Please check the input format and try again.") |},
       graph)
  end.

(** What can happen to the component: the user edits the text (the text
    area is there when no file is selected, and enabled when no request is
    running), a file has been read, the user removes the file, the user
    presses the button (enabled when no request is running and there is a
    file or text that is not blank), the request ends, the timer of a
    notification fires. *)
Inductive ImporterEvent :=
| TextChanged (s : string)
| FileRead (name type result : string)
| FileCleared
| IngestPressed
| RequestEnded (reply : option KnowledgeGraphData)
| NotificationExpired.

Definition importer_step (e : ImporterEvent)
    (a : Importer * KnowledgeGraphData) : Importer * KnowledgeGraphData :=
  let st := a.1 in
  match e with
  | TextChanged s =>
      match uploadedFile st with
      | None =>
          if isProcessing st then a
          else ({| inputText := s; uploadedFile := uploadedFile st;
                   isProcessing := isProcessing st;
                   notification := notification st |}, a.2)
      | Some _ => a
      end
  | FileRead name type result => (onload name type result st, a.2)
  | FileCleared =>
      ({| inputText := inputText st; uploadedFile := None;
          isProcessing := isProcessing st;
          notification := notification st |}, a.2)
  | IngestPressed =>
      if isProcessing st
         || (blank (inputText st)
             && match uploadedFile st with None => true | Some _ => false end)
      then a
      else (processInput_start st, a.2)
  | RequestEnded reply => processInput_end reply st a.2
  | NotificationExpired =>
      ({| inputText := inputText st; uploadedFile := uploadedFile st;
          isProcessing := isProcessing st; notification := None |}, a.2)
  end.

Definition importer_run (es : list ImporterEvent)
    (a : Importer * KnowledgeGraphData) : Importer * KnowledgeGraphData :=
  foldl (fun a e => importer_step e a) a es.

End Importing.

(** ** More notions of the statements *)

Section MergeNotions.
Context `{JsNum}.

(** The state of [newLinks.forEach]: [linkSet] holds the keys of
    [finalLinks] and no other. *)
Definition keys_exact (st : list GraphLink * gset string) : Prop :=
  st.2 = list_to_set (map link_key st.1).

(** A link that [add_link] ignores in this state. *)
Definition ignored (m : list (string * GraphNode)) (ks : gset string)
    (l : GraphLink) : Prop :=
  link_key l ∈ ks \/
  map_has (toLowerCase (l_source l)) m
    && map_has (toLowerCase (l_target l)) m = false.

End MergeNotions.

Section ScreenNotions.
Context `{JsNum} {physics : D3Physics}.

(** Simulation [k] exists with its forces registered and its primitives
    created. *)
Definition set_up (w : World) (k : nat) : Prop :=
  exists s, sims w !! k = Some s /\
    is_Some (s_center s) /\ is_Some (s_scene s).

(** The cleanup that is registered stops the simulation on screen, and
    what is on screen belongs to a simulation that was set up. *)
Definition screen_ok (w : World) : Prop :=
  (forall k, cleanup w = Some k -> attached w = Some k /\ status w = Mounted) /\
  (forall k, attached w = Some k -> set_up w k).

End ScreenNotions.

Section FrameNotions.
Context `{JsNum}.

(** Node object [d'] is node object [d] up to position and velocity. *)
Definition kept (d d' : NodeObj) : Prop :=
  o_data d' = o_data d /\ o_index d' = o_index d /\
  o_fx d' = o_fx d /\ o_fy d' = o_fy d.

End FrameNotions.

(** ** A concrete physics, for runs on concrete graphs

    Numbers are rationals.  The initial places are those of d3's spiral
    for the first six nodes, rounded to four decimals (every later index
    gets the place of the sixth; the runs below have at most three nodes).
    The only force is the centering force of [d3.forceCenter], which is all
    that d3's four forces do to a single node without links; with more
    nodes the positions after a tick are those of this force alone, and
    the runs below only use that a node which is not pinned is moved. *)

Definition q_initial (i : nat) : Q * Q :=
  match i with
  | 0 => (7.0711, 0)%Q
  | 1 => (-9.0309, 8.273)%Q
  | 2 => (1.3823, -15.7508)%Q
  | 3 => (11.3828, 14.8469)%Q
  | 4 => (-20.8889, -3.695)%Q
  | _ => (19.7878, -12.5874)%Q
  end.

Definition q_sum (f : NodeObj -> option Q) (ns : list NodeObj) : option Q :=
  foldl (fun acc o => qlift Qplus acc (f o)) (Some 0%Q) ns.

Definition q_forceCenter (c : option Q * option Q) (ns : list NodeObj)
  : list Kin :=
  let n := Some (inject_Z (Z.of_nat (length ns))) in
  let sx := qlift Qminus (qlift Qdiv (q_sum o_x ns) n) c.1 in
  let sy := qlift Qminus (qlift Qdiv (q_sum o_y ns) n) c.2 in
  map (fun o => mkKin (qlift Qminus (o_x o) sx) (qlift Qminus (o_y o) sy)
                  (o_vx o) (o_vy o)) ns.

#[export] Instance QPhysics : D3Physics (H := QNum) := {|
  initial_x := fun i => Some (q_initial i).1;
  initial_y := fun i => Some (q_initial i).2;
  alphaDecay := Some 0.0228%Q;
  forces := fun _ c _ ns _ => q_forceCenter c ns
|}.

(** A rational as a number of the program. *)
Definition q (x : Q) : @num QNum := Some x.

Definition at_pointer (active : nat) (px py : Q) : DragEvent :=
  mkDragEvent active (q px) (q py).

(** One node, dragged to (500, 400), ticked once and released. *)
Definition one_node : list GraphNode := [node "A" "Concept" 5].

Definition dragged_world : World :=
  run [DragStart 0 0 (at_pointer 0 7.0711 0);
       Drag 0 0 (at_pointer 0 500 400);
       Frame;
       DragEnd 0 0 (at_pointer 0 500 400)]
    (mount one_node []).

(** Two linked nodes, and two fingers: both nodes are held, then the first
    finger is lifted while the second is still down. *)
Definition two_nodes : list GraphNode :=
  [node "A" "Concept" 5; node "B" "Concept" 5].

Definition two_links : list GraphLink := [mkGraphLink "A" "B" "uses"].

Definition two_fingers : list Event :=
  [DragStart 0 0 (at_pointer 0 7.0711 0);
   DragStart 0 1 (at_pointer 1 (-9.0309) 8.273);
   DragEnd 0 0 (at_pointer 1 7.0711 0)].

(** A session: ticks, a drag, a resize, and a new snapshot that shares the
    caller's old objects and adds one node and one link. *)
Definition session : list Event :=
  [Frame; Frame;
   DragStart 0 1 (at_pointer 0 (-9.0309) 8.273);
   Drag 0 1 (at_pointer 0 30 40);
   Frame;
   DragEnd 0 1 (at_pointer 0 30 40);
   Resize (q 1024) (q 768);
   Frame;
   SetData [node "C" "Industry" 5] [mkGraphLink "B" "C" "serves"]
     [0; 1; 6] [0; 3];
   Frame].

(** A link to a node that is not there. *)
Definition broken_links : list GraphLink :=
  [mkGraphLink "A" "Nonexistent" "uses"].

Definition linked_world : World := mount two_nodes two_links.

(** Two nodes of two groups, and the same two node objects passed again
    in the other order. *)
Definition two_groups : list GraphNode :=
  [node "A" "X" 5; node "B" "Y" 5].

Definition reordered : Event := SetData [] [] [1; 0] [].

(** A snapshot without nodes. *)
Definition emptied : Event := SetData [] [] [] [].

(** Two linked nodes get an empty snapshot; then a pointer-down on the
    circle of the first node, and the host unmounts the component. *)
Definition restarted_unmounted : World :=
  run [emptied; DragStart 0 0 (at_pointer 0 7.0711 0); Unmount] linked_world.

(** * Properties *)

Section MapFacts.
Context {V : Type}.
Implicit Types (m : list (string * V)) (k : string) (v : V).

Lemma map_has_elem k m : map_has k m = true <-> k ∈ m.*1.
Proof.
  induction m as [|[k' v'] m IH]; simpl.
  - split; [discriminate | intros Hk; inversion Hk].
  - destruct (decide (k = k')) as [->|Hne].
    + split; [intros _; left | done].
    + rewrite IH. split; [by right | ].
      intros Hk. apply elem_of_cons in Hk as [?|?]; done.
Qed.

Lemma map_has_false k m : map_has k m = false <-> k ∉ m.*1.
Proof.
  rewrite <- map_has_elem. destruct (map_has k m); split; congruence.
Qed.

Lemma map_set_fresh k v m :
  map_has k m = false -> map_set k v m = m ++ [(k, v)].
Proof.
  induction m as [|[k' v'] m IH]; simpl; [done|].
  destruct (decide (k = k')); [discriminate|].
  intros Hm. by rewrite IH.
Qed.

Lemma map_set_keys k v m :
  (map_set k v m).*1 = if map_has k m then m.*1 else m.*1 ++ [k].
Proof.
  induction m as [|[k' v'] m IH]; csimpl; [done|].
  destruct (decide (k = k')) as [->|Hne]; csimpl; [done|].
  rewrite IH. by destruct (map_has k m).
Qed.

Lemma map_set_NoDup k v m : NoDup m.*1 -> NoDup (map_set k v m).*1.
Proof.
  intros Hnd. rewrite map_set_keys.
  destruct (map_has k m) eqn:Hk; [done|].
  apply map_has_false in Hk.
  apply NoDup_app. split_and!; [done | | apply NoDup_singleton].
  intros x Hx Hx'. apply list_elem_of_singleton in Hx'. by subst.
Qed.

Lemma map_set_Forall (P : string * V -> Prop) k v m :
  P (k, v) -> Forall P m -> Forall P (map_set k v m).
Proof.
  intros Hkv. induction 1 as [|[k' v'] m Hx Hm IH]; simpl.
  - by constructor.
  - destruct (decide (k = k')); constructor; done.
Qed.

Lemma foldl_map_set_fresh (acc es : list (string * V)) :
  NoDup (acc ++ es).*1 ->
  foldl (fun m e => map_set e.1 e.2 m) acc es = acc ++ es.
Proof.
  revert acc. induction es as [|[k v] es IH]; intros acc Hnd; simpl.
  - by rewrite app_nil_r.
  - rewrite map_set_fresh.
    + rewrite IH; rewrite <- app_assoc; done.
    + apply map_has_false. rewrite fmap_app in Hnd.
      apply NoDup_app in Hnd as (_ & Hdis & _).
      intros Hk. apply (Hdis k Hk). simpl. left.
Qed.

Lemma map_of_entries_NoDup (es : list (string * V)) :
  NoDup es.*1 -> map_of_entries es = es.
Proof. intros Hnd. unfold map_of_entries. by rewrite foldl_map_set_fresh. Qed.

Lemma foldl_map_set_inv (P : string * V -> Prop) (acc es : list (string * V)) :
  NoDup acc.*1 -> Forall P acc -> Forall P es ->
  let m := foldl (fun m e => map_set e.1 e.2 m) acc es in
  NoDup m.*1 /\ Forall P m.
Proof.
  revert acc. induction es as [|[k v] es IH]; intros acc Hnd Hacc Hes; simpl.
  - done.
  - inversion Hes; subst. apply IH; [by apply map_set_NoDup | | done].
    by apply map_set_Forall.
Qed.

End MapFacts.

Section AppFacts.
Context `{JsNum}.


Lemma keyed_values m : keyed m -> map ci_key (map_values m) = m.*1.
Proof.
  intros [_ Hk]. unfold map_values.
  induction Hk as [|[k v] m Hx Hm IH]; csimpl; [done|].
  simpl in Hx. rewrite Hx. f_equal. exact IH.
Qed.

Lemma add_node_keyed m n : keyed m -> keyed (add_node m n).
Proof.
  intros [Hnd Hk]. unfold add_node.
  destruct (map_has _ m) eqn:Hm; [done|].
  split; [by apply map_set_NoDup | by apply map_set_Forall].
Qed.

Lemma add_node_prefix m n : m `prefix_of` add_node m n.
Proof.
  unfold add_node. destruct (map_has _ m) eqn:Hm; [done|].
  rewrite map_set_fresh by done. by apply prefix_app_r.
Qed.

Lemma foldl_add_node_keyed ns m : keyed m -> keyed (foldl add_node m ns).
Proof.
  revert m. induction ns as [|n ns IH]; intros m Hm; simpl; [done|].
  by apply IH, add_node_keyed.
Qed.

Lemma foldl_add_node_prefix ns m : m `prefix_of` foldl add_node m ns.
Proof.
  revert m. induction ns as [|n ns IH]; intros m; simpl; [done|].
  etrans; [apply add_node_prefix | apply IH].
Qed.

Lemma entries_keyed (ns : list GraphNode) :
  keyed (map_of_entries (map (fun n => (toLowerCase (n_id n), n)) ns)).
Proof.
  unfold keyed, map_of_entries.
  apply (foldl_map_set_inv (fun e => e.1 = ci_key e.2)).
  - constructor.
  - constructor.
  - apply Forall_forall. intros e He.
    apply list_elem_of_fmap in He as (n & -> & _). done.
Qed.

Lemma merged_nodeMap_keyed prev newNodes : keyed (merged_nodeMap prev newNodes).
Proof. apply foldl_add_node_keyed, entries_keyed. Qed.


Lemma updateGraph_distinct_ids prev newNodes newLinks :
  distinct_ids (updateGraph prev newNodes newLinks).
Proof.
  unfold distinct_ids, updateGraph. simpl.
  rewrite keyed_values by apply merged_nodeMap_keyed.
  apply merged_nodeMap_keyed.
Qed.

Lemma INITIAL_DATA_distinct_ids : distinct_ids INITIAL_DATA.
Proof.
  unfold distinct_ids. apply (bool_decide_unpack _). vm_compute. reflexivity.
Qed.

Lemma graph_state_distinct_ids g : graph_state g -> distinct_ids g.
Proof.
  destruct 1; [apply INITIAL_DATA_distinct_ids | apply updateGraph_distinct_ids].
Qed.

Lemma updateGraph_nodes_prefix prev newNodes newLinks :
  distinct_ids prev ->
  nodes prev `prefix_of` nodes (updateGraph prev newNodes newLinks).
Proof.
  intros Hd. unfold updateGraph, merged_nodeMap, map_values. simpl.
  set (es := map (fun n => (toLowerCase (n_id n), n)) (nodes prev)).
  assert (Hes : es.*1 = map ci_key (nodes prev)).
  { unfold es. rewrite <- list_fmap_compose. done. }
  assert (Hv : es.*2 = nodes prev).
  { unfold es. rewrite <- list_fmap_compose. apply list_fmap_id. }
  rewrite map_of_entries_NoDup by (rewrite Hes; exact Hd).
  rewrite <- Hv at 1.
  destruct (foldl_add_node_prefix newNodes es) as [tl ->].
  rewrite fmap_app. by apply prefix_app_r.
Qed.

Lemma add_link_prefix m st l : st.1 `prefix_of` (add_link m st l).1.
Proof.
  unfold add_link. destruct (decide _); [done|].
  destruct (_ && _); [|done]. simpl. by apply prefix_app_r.
Qed.

Lemma foldl_add_link_prefix m ls st : st.1 `prefix_of` (foldl (add_link m) st ls).1.
Proof.
  revert st. induction ls as [|l ls IH]; intros st; simpl; [done|].
  etrans; [apply add_link_prefix | apply IH].
Qed.

Lemma updateGraph_links_prefix prev newNodes newLinks :
  links prev `prefix_of` links (updateGraph prev newNodes newLinks).
Proof. unfold updateGraph. simpl. apply (foldl_add_link_prefix _ _ (_, _)). Qed.

End AppFacts.

Section MergeProperties.
Context `{JsNum}.

Lemma map_has_keyed_node (m : list (string * GraphNode)) k :
  keyed m -> map_has k m = true ->
  exists n, n ∈ map_values m /\ toLowerCase (n_id n) = k.
Proof.
  intros [_ Hk] Hm. apply map_has_elem in Hm.
  apply list_elem_of_fmap in Hm as ([k' n] & -> & Hin).
  rewrite Forall_forall in Hk. specialize (Hk _ Hin). simpl in *.
  exists n. split; [|by rewrite Hk].
  unfold map_values. apply list_elem_of_fmap. by exists (k', n).
Qed.

Lemma same_triple_key a b : same_triple a b -> link_key a = link_key b.
Proof. intros (Hs & Ht & Hr). unfold link_key. by rewrite Hs, Ht, Hr. Qed.


Lemma foldl_add_link_spec m ls st :
  keys_recorded st ->
  exists added,
    (foldl (add_link m) st ls).1 = st.1 ++ added /\
    forall i l, added !! i = Some l ->
      l ∈ ls /\
      (forall l', l' ∈ st.1 ++ take i added -> link_key l' <> link_key l) /\
      map_has (toLowerCase (l_source l)) m = true /\
      map_has (toLowerCase (l_target l)) m = true.
Proof.
  revert st. induction ls as [|l0 ls IH]; intros st Hst; simpl.
  - exists []. split; [by rewrite app_nil_r | intros i l Hl; by destruct i].
  - unfold add_link at 2.
    destruct (decide (link_key l0 ∈ st.2)) as [Hin|Hnin].
    { destruct (IH st Hst) as (added & Heq & Hadd). exists added.
      split; [done|]. intros i l Hl.
      destruct (Hadd i l Hl) as (? & ? & ? & ?). split_and!; try done. by right. }
    destruct (map_has (toLowerCase (l_source l0)) m) eqn:Hs; simpl;
      [destruct (map_has (toLowerCase (l_target l0)) m) eqn:Ht; simpl |].
    + destruct (IH (st.1 ++ [l0], {[link_key l0]} ∪ st.2)) as (added & Heq & Hadd).
      { intros l Hl. simpl in *. apply elem_of_app in Hl as [Hl|Hl].
        - apply elem_of_union_r. by apply Hst.
        - apply list_elem_of_singleton in Hl as ->.
          apply elem_of_union_l. by apply elem_of_singleton. }
      simpl in Heq. exists (l0 :: added). split.
      { rewrite Heq. by rewrite <- app_assoc. }
      intros [|i] l Hl; simpl in Hl.
      * injection Hl as <-. split_and!; try done; [left|].
        intros l' Hl' Hk. simpl in Hl'. rewrite app_nil_r in Hl'.
        apply Hnin. rewrite <- Hk. by apply Hst.
      * destruct (Hadd i l Hl) as (? & Hpre & ? & ?).
        split_and!; try done; [by right|].
        intros l' Hl'. apply Hpre. simpl in *.
        rewrite <- app_assoc. done.
    + destruct (IH st Hst) as (added & Heq & Hadd). exists added.
      split; [done|]. intros i l Hl.
      destruct (Hadd i l Hl) as (? & ? & ? & ?). split_and!; try done. by right.
    + destruct (IH st Hst) as (added & Heq & Hadd). exists added.
      split; [done|]. intros i l Hl.
      destruct (Hadd i l Hl) as (? & ? & ? & ?). split_and!; try done. by right.
Qed.

(** C9: merging only grows the graph.  For every graph state and every
    proposed nodes and links, the nodes and the links of the previous graph
    are, unchanged and in order, the first nodes and links of the result;
    in particular each of them is in the result. *)
Theorem updateGraph_grows prev newNodes newLinks :
  graph_state prev ->
  let g := updateGraph prev newNodes newLinks in
  nodes prev `prefix_of` nodes g /\ links prev `prefix_of` links g /\
  (forall n, n ∈ nodes prev -> n ∈ nodes g) /\
  (forall l, l ∈ links prev -> l ∈ links g).
Proof.
  intros Hg g.
  assert (Hn : nodes prev `prefix_of` nodes g)
    by (apply updateGraph_nodes_prefix, graph_state_distinct_ids, Hg).
  assert (Hl : links prev `prefix_of` links g)
    by apply updateGraph_links_prefix.
  split_and!; try done.
  - intros n Hin. destruct Hn as [tl ->]. apply elem_of_app. by left.
  - intros l Hin. destruct Hl as [tl ->]. apply elem_of_app. by left.
Qed.

(** C10: a proposed link is added only if no link already in the graph
    (a previous one, or one added earlier in the same call) has the same
    (source, target, relationship), and its source and its target each
    match, after lowercasing, the lowercased id of a node of the merged
    node set.  The match is up to case only: a link can be added whose
    source is the id of no node. *)
Theorem updateGraph_added_links_checked :
  (forall prev newNodes newLinks,
     let g := updateGraph prev newNodes newLinks in
     let added := added_links prev newNodes newLinks in
     links g = links prev ++ added /\
     forall i l, added !! i = Some l ->
       l ∈ newLinks /\
       (forall l', l' ∈ links prev ++ take i added -> ~ same_triple l' l) /\
       (exists n, n ∈ nodes g /\
                  toLowerCase (n_id n) = toLowerCase (l_source l)) /\
       (exists n, n ∈ nodes g /\
                  toLowerCase (n_id n) = toLowerCase (l_target l)))
  /\
  (exists prev newNodes newLinks l,
     graph_state prev /\ l ∈ added_links prev newNodes newLinks /\
     forall n, n ∈ nodes (updateGraph prev newNodes newLinks) ->
               n_id n <> l_source l).
Proof.
  split.
  - intros prev newNodes newLinks g added.
    destruct (foldl_add_link_spec (merged_nodeMap prev newNodes) newLinks
                (links prev, list_to_set (map link_key (links prev))))
      as (add' & Heq & Hadd).
    { intros l Hl. simpl in *. apply elem_of_list_to_set.
      apply list_elem_of_fmap. by exists l. }
    simpl in Heq.
    assert (Hadded : added = add').
    { unfold added, added_links, updateGraph. simpl. rewrite Heq.
      by rewrite drop_app_length. }
    split.
    { unfold g, updateGraph. simpl. by rewrite Heq, Hadded. }
    intros i l Hl. rewrite Hadded in Hl |- *.
    destruct (Hadd i l Hl) as (Hin & Hpre & Hs & Ht). simpl in Hpre.
    split_and!; [done | | |].
    + intros l' Hl' Hsame. by apply (Hpre l' Hl'), same_triple_key.
    + apply map_has_keyed_node; [apply merged_nodeMap_keyed | done].
    + apply map_has_keyed_node; [apply merged_nodeMap_keyed | done].
  - exists INITIAL_DATA, [], [mkGraphLink "healthcare" "GDPR" "regulated by"],
      (mkGraphLink "healthcare" "GDPR" "regulated by").
    split_and!; [constructor | vm_compute; left |].
    apply Forall_forall. vm_compute. repeat constructor; discriminate.
Qed.

End MergeProperties.

Section StoreFacts.
Context {A : Type}.
Implicit Types (h : list A) (ls : list loc).

Lemma for_nodes_length (f : nat -> A -> A) i ls h :
  length (for_nodes f i ls h) = length h.
Proof.
  revert i h. induction ls as [|l ls IH]; intros i h; simpl; [done|].
  by rewrite IH, length_alter.
Qed.

Lemma for_nodes_outside (f : nat -> A -> A) i ls h l :
  l ∉ ls -> for_nodes f i ls h !! l = h !! l.
Proof.
  revert i h. induction ls as [|l0 ls IH]; intros i h Hl; simpl; [done|].
  apply not_elem_of_cons in Hl as [Hne Hl].
  rewrite IH by done. by apply list_lookup_alter_ne.
Qed.

Lemma for_nodes_inside (f : nat -> A -> A) i ls h j l :
  NoDup ls -> ls !! j = Some l ->
  for_nodes f i ls h !! l = f (i + j) <$> h !! l.
Proof.
  revert i h j. induction ls as [|l0 ls IH]; intros i h j Hnd Hj; [done|].
  apply NoDup_cons in Hnd as [Hl0 Hnd]. destruct j as [|j]; simpl in *.
  - injection Hj as ->. rewrite for_nodes_outside by done.
    rewrite list_lookup_alter_eq. by rewrite Nat.add_0_r.
  - rewrite (IH (S i) _ j) by done.
    rewrite list_lookup_alter_ne.
    + by replace (S i + j) with (i + S j) by lia.
    + intros ->. apply Hl0. by eapply list_elem_of_lookup_2.
Qed.

(** A property of the objects that the loop body keeps holds afterwards;
    where the body establishes it, it holds for every visited object. *)
Lemma for_nodes_invariant (P : A -> Prop) (f : nat -> A -> A) i ls h l :
  (forall i a, P a -> P (f i a)) ->
  (forall a, h !! l = Some a -> P a) ->
  forall a, for_nodes f i ls h !! l = Some a -> P a.
Proof.
  intros Hf. revert i h. induction ls as [|l0 ls IH]; intros i h Hh a; simpl.
  - apply Hh.
  - apply IH. intros b. destruct (decide (l0 = l)) as [->|Hne].
    + rewrite list_lookup_alter_eq.
      intros Hb. apply fmap_Some in Hb as (c & Hc & ->).
      apply Hf. by apply Hh.
    + rewrite list_lookup_alter_ne by done. apply Hh.
Qed.

Lemma for_nodes_establishes (P Q : A -> Prop) (f : nat -> A -> A) i ls h l :
  (forall i a, P a -> Q (f i a)) ->
  (forall i a, Q a -> Q (f i a)) ->
  (forall i a, P a -> P (f i a)) ->
  l ∈ ls ->
  (forall a, h !! l = Some a -> P a) ->
  forall a, for_nodes f i ls h !! l = Some a -> Q a.
Proof.
  intros HPQ HQ HP. revert i h. induction ls as [|l0 ls IH]; intros i h Hl Hh a.
  - inversion Hl.
  - simpl. destruct (decide (l0 = l)) as [->|Hne].
    + apply for_nodes_invariant; [apply HQ|].
      intros b. rewrite list_lookup_alter_eq.
      intros Hb. apply fmap_Some in Hb as (c & Hc & ->).
      apply HPQ. by apply Hh.
    + apply IH.
      * apply elem_of_cons in Hl as [Heq|Hl]; [congruence | done].
      * intros b. rewrite list_lookup_alter_ne by done. apply Hh.
Qed.

Lemma objects_app_seq h (cs : list A) :
  objects (h ++ cs) (seq (length h) (length cs)) = cs.
Proof.
  unfold objects. revert h. induction cs as [|c cs IH]; intros h; [done|].
  csimpl. rewrite list_lookup_middle by done. csimpl.
  f_equal. specialize (IH (h ++ [c])).
  rewrite length_app, Nat.add_1_r, <- app_assoc in IH. exact IH.
Qed.

Lemma objects_length h ls : length (objects h ls) <= length ls.
Proof.
  unfold objects. induction ls as [|l ls IH]; csimpl; [done|].
  destruct (h !! l); csimpl; lia.
Qed.

Lemma objects_valid h ls :
  Forall (fun l => l < length h) ls -> length (objects h ls) = length ls.
Proof.
  unfold objects. induction 1 as [|l ls Hl Hls IH]; csimpl; [done|].
  apply lookup_lt_is_Some in Hl as [a ->]. csimpl. by rewrite IH.
Qed.

Lemma objects_lookup h ls j l :
  Forall (fun l => l < length h) ls -> ls !! j = Some l ->
  objects h ls !! j = h !! l.
Proof.
  unfold objects. intros Hv. revert j.
  induction Hv as [|l0 ls Hl Hls IH]; intros j Hj; [done|].
  csimpl. apply lookup_lt_is_Some in Hl as [a Ha]. rewrite Ha. csimpl.
  destruct j as [|j]; simpl in *.
  - injection Hj as ->. done.
  - by apply IH.
Qed.

Lemma objects_elem h ls a : a ∈ objects h ls -> exists l, l ∈ ls /\ h !! l = Some a.
Proof.
  unfold objects. rewrite list_elem_of_omap. intros (l & Hl & Ha). eauto.
Qed.

End StoreFacts.

Section ColorFacts.

Lemma index_of_None d dom : index_of d dom = None <-> d ∉ dom.
Proof.
  induction dom as [|d' dom IH]; simpl.
  - split; [intros _ Hd; inversion Hd | done].
  - destruct (decide (d = d')) as [->|Hne].
    + split; [done | intros Hd; exfalso; apply Hd; left].
    + rewrite fmap_None, IH. rewrite not_elem_of_cons. tauto.
Qed.

Lemma index_of_app_l d dom ext i :
  index_of d dom = Some i -> index_of d (dom ++ ext) = Some i.
Proof.
  revert i. induction dom as [|d' dom IH]; intros i; simpl; [done|].
  destruct (decide (d = d')); [done|].
  destruct (index_of d dom) as [j|]; [|done]. simpl.
  intros [= <-]. by rewrite (IH j).
Qed.

Lemma index_of_fresh d dom :
  d ∉ dom -> index_of d (dom ++ [d]) = Some (length dom).
Proof.
  induction dom as [|d' dom IH]; simpl; intros Hd.
  - by rewrite decide_True.
  - apply not_elem_of_cons in Hd as [Hne Hd].
    rewrite decide_False by done. by rewrite IH.
Qed.

Lemma first_seen_extends seen gs : exists ext, first_seen seen gs = seen ++ ext.
Proof.
  revert seen. induction gs as [|g gs IH]; intros seen; simpl.
  - exists []. by rewrite app_nil_r.
  - destruct (decide (g ∈ seen)); [apply IH|].
    destruct (IH (seen ++ [g])) as [ext ->]. exists ([g] ++ ext).
    by rewrite app_assoc.
Qed.

Lemma color_domain domain g :
  (color domain g).2 = if decide (g ∈ domain) then domain else domain ++ [g].
Proof.
  unfold color, scale_call. destruct (index_of g domain) as [i|] eqn:Hi; simpl.
  - rewrite decide_True; [done|]. apply dec_stable. intros Hn.
    apply index_of_None in Hn. congruence.
  - apply index_of_None in Hi. by rewrite decide_False.
Qed.

Lemma fills_domain domain gs : (fills domain gs).2 = first_seen domain gs.
Proof.
  revert domain. induction gs as [|g gs IH]; intros domain; simpl; [done|].
  by rewrite IH, color_domain.
Qed.

Lemma fills_length domain gs : length (fills domain gs).1 = length gs.
Proof.
  revert domain. induction gs as [|g gs IH]; intros domain; simpl; [done|].
  by rewrite IH.
Qed.

(** The fill of a node is the palette entry at the position of its group
    among the distinct groups of the run. *)
Lemma fills_lookup domain gs i g :
  gs !! i = Some g ->
  exists p, index_of g (first_seen domain gs) = Some p /\
    (fills domain gs).1 !! i = Some (schemeCategory10 !! (p mod 10)).
Proof.
  revert domain i. induction gs as [|g0 gs IH]; intros domain i Hi; [done|].
  destruct i as [|i]; simpl in Hi |- *.
  - injection Hi as ->.
    destruct (first_seen_extends (if decide (g ∈ domain) then domain else domain ++ [g]) gs)
      as [ext ->].
    unfold color, scale_call.
    destruct (index_of g domain) as [p|] eqn:Hp; simpl.
    + exists p. split; [|done]. apply index_of_app_l.
      destruct (decide (g ∈ domain)); [done | by apply index_of_app_l].
    + apply index_of_None in Hp. rewrite decide_False by done.
      exists (length domain). split; [|done].
      by apply index_of_app_l, index_of_fresh.
  - rewrite color_domain. apply IH, Hi.
Qed.

Lemma palette_total p : is_Some (schemeCategory10 !! (p mod 10)).
Proof.
  apply lookup_lt_is_Some. change (p mod 10 < 10).
  apply Nat.mod_upper_bound. lia.
Qed.

Lemma index_of_lookup d dom p : index_of d dom = Some p -> dom !! p = Some d.
Proof.
  revert p. induction dom as [|d' dom IH]; intros p; simpl; [done|].
  destruct (decide (d = d')) as [->|Hne].
  - intros [= <-]. done.
  - destruct (index_of d dom) as [q|]; simpl; [|done].
    intros [= <-]. simpl. by apply IH.
Qed.

Lemma palette_NoDup : NoDup schemeCategory10.
Proof. apply (bool_decide_unpack _). vm_compute. exact I. Qed.

Lemma palette_lookup_inj a b :
  a < 10 -> b < 10 -> schemeCategory10 !! a = schemeCategory10 !! b -> a = b.
Proof.
  intros Ha Hb Heq.
  destruct (lookup_lt_is_Some_2 schemeCategory10 a Ha) as [c Hc].
  rewrite Hc in Heq. symmetry in Heq.
  by apply (NoDup_lookup schemeCategory10 a b c palette_NoDup).
Qed.

End ColorFacts.

Section ColorProperties.
Context `{JsNum} {physics : D3Physics}.

(** The fills of the circles of an effect run are the fills its scale
    gives to the groups of its nodes, in order. *)
Lemma build_scene_fills hn hl ns ls :
  map c_fill (sc_node (build_scene hn hl ns ls))
  = node_fills (map (fun o => n_group (o_data o)) (objects hn ns)).
Proof.
  simpl. apply (fmap_zip_with_r _ c_fill); [done|].
  unfold node_fills. rewrite fills_length, length_map.
  apply (objects_length hn ns).
Qed.

(** C3, as the code does it: the color of a group is decided by the
    place the group has among the distinct groups of its effect run, in
    the order in which the run meets them.  A second call of the scale on
    the same group returns the same color and leaves the scale as it is;
    a node's fill is the color of the palette at the place of its group,
    modulo ten; so a node of one effect run and a node of another have the
    same fill exactly when the places of their groups agree modulo ten,
    which holds for two nodes of one group when both runs meet the same
    sequence of distinct groups, and need not hold otherwise.  These fills
    are the ones of the circles the effect run draws. *)
Theorem color_by_first_appearance :
  (forall domain g,
     color (color domain g).2 g = ((color domain g).1, (color domain g).2)) /\
  (forall gs i g, gs !! i = Some g ->
     exists p c, index_of g (first_seen [] gs) = Some p /\
       schemeCategory10 !! (p mod 10) = Some c /\
       node_fills gs !! i = Some (Some c)) /\
  (forall gs1 gs2 i j g1 g2 p q,
     gs1 !! i = Some g1 -> gs2 !! j = Some g2 ->
     index_of g1 (first_seen [] gs1) = Some p ->
     index_of g2 (first_seen [] gs2) = Some q ->
     node_fills gs1 !! i = node_fills gs2 !! j <-> p mod 10 = q mod 10) /\
  (forall gs1 gs2 i j g,
     first_seen [] gs1 = first_seen [] gs2 ->
     gs1 !! i = Some g -> gs2 !! j = Some g ->
     node_fills gs1 !! i = node_fills gs2 !! j) /\
  (forall hn hl ns ls,
     map c_fill (sc_node (build_scene hn hl ns ls))
     = node_fills (map (fun o => n_group (o_data o)) (objects hn ns))).
Proof.
  split_and!.
  - intros domain g. unfold color, scale_call.
    destruct (index_of g domain) as [p|] eqn:Hp; simpl.
    + by rewrite Hp.
    + apply index_of_None in Hp. rewrite index_of_fresh by done. done.
  - intros gs i g Hi. unfold node_fills.
    destruct (fills_lookup [] gs i g Hi) as (p & Hp & ->).
    destruct (palette_total p) as [c Hc]. exists p, c. by rewrite Hc.
  - intros gs1 gs2 i j g1 g2 p q Hi Hj Hp Hq. unfold node_fills.
    destruct (fills_lookup [] gs1 i g1 Hi) as (p' & Hp' & ->).
    destruct (fills_lookup [] gs2 j g2 Hj) as (q' & Hq' & ->).
    assert (p' = p) as -> by congruence.
    assert (q' = q) as -> by congruence.
    split.
    + intros Heq. apply (inj Some) in Heq.
      apply palette_lookup_inj; [| | done]; apply Nat.mod_upper_bound; lia.
    + by intros ->.
  - intros gs1 gs2 i j g Hseen Hi Hj. unfold node_fills.
    destruct (fills_lookup [] gs1 i g Hi) as (p & Hp & ->).
    destruct (fills_lookup [] gs2 j g Hj) as (q & Hq & ->).
    rewrite Hseen in Hp. rewrite Hp in Hq. by injection Hq as <-.
  - apply build_scene_fills.
Qed.

End ColorProperties.

Section EngineFacts.
Context `{JsNum} {physics : D3Physics}.

Lemma engine_node_spec w l :
  engine_node w l = true <-> exists sk, sk ∈ map skeleton (sims w) /\ l ∈ sk_nodes sk.
Proof.
  unfold engine_node. rewrite existsb_exists. split.
  - intros (s & Hs & Hl). apply bool_decide_eq_true in Hl.
    exists (skeleton s). split; [|done].
    apply list_elem_of_fmap. exists s. split; [done|]. by apply list_elem_of_In.
  - intros (sk & Hsk & Hl). apply list_elem_of_fmap in Hsk as (s & -> & Hs).
    exists s. split; [by apply list_elem_of_In|]. by apply bool_decide_eq_true.
Qed.

Lemma engine_link_spec w l :
  engine_link w l = true <-> exists sk, sk ∈ map skeleton (sims w) /\ l ∈ sk_links sk.
Proof.
  unfold engine_link. rewrite existsb_exists. split.
  - intros (s & Hs & Hl). apply bool_decide_eq_true in Hl.
    exists (skeleton s). split; [|done].
    apply list_elem_of_fmap. exists s. split; [done|]. by apply list_elem_of_In.
  - intros (sk & Hsk & Hl). apply list_elem_of_fmap in Hsk as (s & -> & Hs).
    exists s. split; [by apply list_elem_of_In|]. by apply bool_decide_eq_true.
Qed.

Lemma engine_node_ext w w' l :
  map skeleton (sims w') = map skeleton (sims w) ->
  engine_node w' l = engine_node w l.
Proof.
  intros Hsk. apply eq_true_iff_eq. rewrite !engine_node_spec. by rewrite Hsk.
Qed.

Lemma engine_link_ext w w' l :
  map skeleton (sims w') = map skeleton (sims w) ->
  engine_link w' l = engine_link w l.
Proof.
  intros Hsk. apply eq_true_iff_eq. rewrite !engine_link_spec. by rewrite Hsk.
Qed.

Lemma caller_node_spec w l :
  caller_node w l = true <->
  l < length (heap_nodes w) /\ engine_node w l = false.
Proof.
  unfold caller_node. rewrite andb_true_iff, bool_decide_eq_true, negb_true_iff.
  done.
Qed.

Lemma caller_link_spec w l :
  caller_link w l = true <->
  l < length (heap_links w) /\ engine_link w l = false.
Proof.
  unfold caller_link. rewrite andb_true_iff, bool_decide_eq_true, negb_true_iff.
  done.
Qed.

(** A step that keeps the skeletons, the size of the store, the links and
    the caller's nodes keeps the invariant. *)
Lemma wf_static w w' :
  wf w ->
  map skeleton (sims w') = map skeleton (sims w) ->
  length (heap_nodes w') = length (heap_nodes w) ->
  heap_links w' = heap_links w ->
  data_nodes w' = data_nodes w ->
  data_links w' = data_links w ->
  (forall l, caller_node w l = true -> heap_nodes w' !! l = heap_nodes w !! l) ->
  wf w'.
Proof.
  intros [Hs Hsep Hdn Hdl Hcn Hcl] Hsk Hlen Hhl Hd1 Hd2 Hfr.
  assert (Hcn' : forall l, caller_node w' l = caller_node w l).
  { intros l. unfold caller_node. by rewrite Hlen, (engine_node_ext w w'). }
  assert (Hcl' : forall l, caller_link w' l = caller_link w l).
  { intros l. unfold caller_link. by rewrite Hhl, (engine_link_ext w w'). }
  split.
  - by rewrite Hsk, Hlen, Hhl.
  - by rewrite Hsk.
  - rewrite Hd1. eapply Forall_impl; [exact Hdn|]. intros l. by rewrite Hcn'.
  - rewrite Hd2. eapply Forall_impl; [exact Hdl|]. intros l. by rewrite Hcl'.
  - intros l Hl. rewrite Hcn' in Hl. rewrite Hfr by done. by apply Hcn.
  - intros l Hl. rewrite Hcl' in Hl. rewrite Hhl. by apply Hcl.
Qed.

Lemma skeleton_set_running b s : skeleton (set_running b s) = skeleton s.
Proof. done. Qed.

Lemma map_skeleton_insert (ss : list Sim) k s s' :
  ss !! k = Some s -> skeleton s' = skeleton s ->
  map skeleton (<[k := s']> ss) = map skeleton ss.
Proof.
  intros Hk Hs. rewrite list_fmap_insert, Hs.
  apply list_insert_id. by rewrite list_lookup_fmap, Hk.
Qed.

Lemma map_skeleton_alter (ss : list Sim) k f :
  (forall s, skeleton (f s) = skeleton s) ->
  map skeleton (alter f k ss) = map skeleton ss.
Proof.
  intros Hf. apply list_eq. intros i. rewrite !list_lookup_fmap.
  destruct (decide (i = k)) as [->|Hne].
  - rewrite list_lookup_alter_eq. destruct (ss !! k); simpl; [|done].
    by rewrite Hf.
  - by rewrite list_lookup_alter_ne.
Qed.

Lemma run_cleanup_wf w : wf w -> wf (run_cleanup w).
Proof.
  intros Hw. unfold run_cleanup. destruct (cleanup w) as [k|]; [|done].
  eapply wf_static; try done; simpl.
  apply map_skeleton_alter. intros s. apply skeleton_set_running.
Qed.

End EngineFacts.

Section StepFacts.
Context `{JsNum} {physics : D3Physics}.

Lemma set_kins_length ks ls (h : list NodeObj) :
  length (set_kins ks ls h) = length h.
Proof.
  revert ls h. induction ks as [|k ks IH]; intros [|l ls] h; simpl; try done.
  by rewrite IH, length_alter.
Qed.

Lemma set_kins_outside ks ls (h : list NodeObj) l :
  l ∉ ls -> set_kins ks ls h !! l = h !! l.
Proof.
  revert ls h. induction ks as [|k ks IH]; intros [|l0 ls] h Hl; simpl; try done.
  apply not_elem_of_cons in Hl as [Hne Hl].
  rewrite IH by done. by apply list_lookup_alter_ne.
Qed.

Lemma set_kins_invariant (P : NodeObj -> Prop) ks ls (h : list NodeObj) l :
  (forall k a, P a -> P (with_kin k a)) ->
  (forall a, h !! l = Some a -> P a) ->
  forall a, set_kins ks ls h !! l = Some a -> P a.
Proof.
  intros Hf. revert ls h.
  induction ks as [|k ks IH]; intros [|l0 ls] h Hh a; simpl; try apply Hh.
  apply IH. intros b. destruct (decide (l0 = l)) as [->|Hne].
  - rewrite list_lookup_alter_eq.
    intros Hb. apply fmap_Some in Hb as (c & Hc & ->). apply Hf. by apply Hh.
  - rewrite list_lookup_alter_ne by done. apply Hh.
Qed.

Lemma tick_skeleton s hn hl : skeleton (tick s hn hl).1 = skeleton s.
Proof. done. Qed.

Lemma tick_length s hn hl : length (tick s hn hl).2 = length hn.
Proof.
  unfold tick. simpl. rewrite for_nodes_length.
  destruct (s_center s); [apply set_kins_length | done].
Qed.

Lemma tick_outside s hn hl l :
  l ∉ s_nodes s -> (tick s hn hl).2 !! l = hn !! l.
Proof.
  intros Hl. unfold tick. simpl. rewrite for_nodes_outside by done.
  destruct (s_center s); [by apply set_kins_outside | done].
Qed.

Lemma scene_data_on_tick hn hl sc : scene_data (on_tick hn hl sc) = scene_data sc.
Proof.
  unfold scene_data, on_tick. simpl. rewrite !map_map.
  rewrite (map_ext _ ln_datum), (map_ext _ ll_datum),
    (map_ext _ c_datum),
    (map_ext _ (fun t => (lb_datum t, lb_dx t, lb_dy t)));
    [done | | | |]; intros a.
  - unfold tick_label. by destruct (hn !! _).
  - unfold tick_node. by destruct (hn !! _).
  - unfold tick_linkLabel. by destruct (hl !! _).
  - unfold tick_link. by destruct (hl !! _).
Qed.

Lemma skeleton_set_scene_on_tick hn hl s :
  skeleton (set_scene (on_tick hn hl <$> s_scene s) s) = skeleton s.
Proof.
  unfold skeleton. simpl. f_equal.
  destruct (s_scene s); simpl; [|done]. by rewrite scene_data_on_tick.
Qed.

(** What one timer callback does to the world. *)
Lemma step_sim_spec k w :
  let w' := step_sim k w in
  map skeleton (sims w') = map skeleton (sims w) /\
  length (sims w') = length (sims w) /\
  length (heap_nodes w') = length (heap_nodes w) /\
  heap_links w' = heap_links w /\
  data_nodes w' = data_nodes w /\ data_links w' = data_links w /\
  status w' = status w /\ cleanup w' = cleanup w /\ attached w' = attached w /\
  dimensions w' = dimensions w /\ svgRef w' = svgRef w /\
  (forall j, j <> k -> sims w' !! j = sims w !! j) /\
  (forall l, (forall s, sims w !! k = Some s -> l ∉ s_nodes s) ->
             heap_nodes w' !! l = heap_nodes w !! l).
Proof.
  unfold step_sim. destruct (sims w !! k) as [s|] eqn:Hk; [|by repeat split].
  destruct (s_running s) eqn:Hr; [|by repeat split].
  unfold set_store.
  cbn [sims heap_nodes heap_links data_nodes data_links status cleanup
       attached dimensions svgRef].
  split_and!; try done.
  - apply (map_skeleton_insert _ _ s); [done|].
    destruct (nlt _ _); [unfold stop; rewrite skeleton_set_running|];
      rewrite (skeleton_set_scene_on_tick _ _ (tick s _ _).1); apply tick_skeleton.
  - by rewrite length_insert.
  - apply tick_length.
  - intros j Hj. by apply list_lookup_insert_ne.
  - intros l Hl. apply tick_outside. by apply Hl.
Qed.

Lemma caller_node_not_engine w l k s :
  caller_node w l = true -> sims w !! k = Some s -> l ∉ s_nodes s.
Proof.
  intros Hc Hk Hl. apply caller_node_spec in Hc as [_ Hc].
  assert (engine_node w l = true); [|congruence].
  apply engine_node_spec. exists (skeleton s). split; [|done].
  apply list_elem_of_fmap. exists s. split; [done|].
  by eapply list_elem_of_lookup_2.
Qed.

Lemma step_sim_wf k w : wf w -> wf (step_sim k w).
Proof.
  intros Hw. pose proof (step_sim_spec k w) as Hs. simpl in Hs.
  destruct Hs as (Hsk & _ & Hlen & Hhl & Hd1 & Hd2 & _ & _ & _ & _ & _ & _ & Hout).
  eapply wf_static; try done.
  intros l Hl. apply Hout. intros s Hs. by eapply caller_node_not_engine.
Qed.

Lemma foldl_step_sim_wf ks w : wf w -> wf (foldl (fun w k => step_sim k w) w ks).
Proof.
  revert w. induction ks as [|k ks IH]; intros w Hw; simpl; [done|].
  by apply IH, step_sim_wf.
Qed.

Lemma frame_wf w : wf w -> wf (frame w).
Proof. apply foldl_step_sim_wf. Qed.

Lemma skeleton_lookup (ss : list Sim) k s :
  ss !! k = Some s -> map skeleton ss !! k = Some (skeleton s).
Proof. intros Hk. by rewrite list_lookup_fmap, Hk. Qed.

Lemma wf_sim_ok w k s :
  wf w -> sims w !! k = Some s ->
  skeleton_ok (length (heap_nodes w)) (heap_links w) (skeleton s).
Proof.
  intros Hw Hk. pose proof (wf_sims _ Hw) as Hs.
  rewrite Forall_forall in Hs. apply Hs.
  apply list_elem_of_fmap. exists s. split; [done|]. by eapply list_elem_of_lookup_2.
Qed.

(** The datum of a circle is a node of the simulation that drew it. *)
Lemma circle_datum_owned w k s sc i c :
  wf w -> sims w !! k = Some s -> s_scene s = Some sc -> sc_node sc !! i = Some c ->
  c_datum c ∈ s_nodes s.
Proof.
  intros Hw Hk Hsc Hc.
  destruct (wf_sim_ok w k s Hw Hk) as (_ & _ & _ & Hscene).
  specialize (Hscene (scene_data sc)). simpl in Hscene. rewrite Hsc in Hscene.
  destruct (Hscene eq_refl) as (_ & _ & Hn & _). simpl in Hn.
  rewrite Forall_forall in Hn. apply Hn.
  apply list_elem_of_fmap. exists c. split; [done|]. by eapply list_elem_of_lookup_2.
Qed.

Lemma dispatch_drag_wf handler k i ev w :
  (forall ev s d, skeleton (handler ev s d).1 = skeleton s) ->
  wf w -> wf (dispatch_drag handler k i ev w).
Proof.
  intros Hh Hw. unfold dispatch_drag.
  destruct (sims w !! k) as [s|] eqn:Hk; [|done].
  destruct (s_scene s) as [sc|] eqn:Hsc; [|done].
  destruct (sc_node sc !! i) as [c|] eqn:Hc; [|done].
  destruct (heap_nodes w !! c_datum c) as [d|] eqn:Hd; [|done].
  eapply wf_static; try done; simpl.
  - by apply (map_skeleton_insert _ _ s).
  - by rewrite length_insert.
  - intros l Hl. apply list_lookup_insert_ne. intros <-.
    eapply caller_node_not_engine; [exact Hl | exact Hk |].
    by eapply circle_datum_owned.
Qed.

Lemma dragstarted_skeleton ev s d : skeleton (dragstarted ev s d).1 = skeleton s.
Proof. unfold dragstarted. simpl. by destruct (ev_active ev =? 0). Qed.

Lemma dragged_skeleton ev s d : skeleton (dragged ev s d).1 = skeleton s.
Proof. done. Qed.

Lemma dragended_skeleton ev s d : skeleton (dragended ev s d).1 = skeleton s.
Proof. unfold dragended. simpl. by destruct (ev_active ev =? 0). Qed.

End StepFacts.

Section MapGetFacts.
Context {V : Type}.
Implicit Types (m : list (string * V)) (k : string) (v : V).

Lemma map_get_set k k' v m :
  map_get k (map_set k' v m) = if decide (k = k') then Some v else map_get k m.
Proof.
  induction m as [|[k0 v0] m IH]; simpl.
  - done.
  - destruct (decide (k' = k0)) as [->|Hne]; simpl.
    + destruct (decide (k = k0)); done.
    + rewrite IH. destruct (decide (k = k0)) as [->|]; [|done].
      by rewrite decide_False.
Qed.

Lemma map_get_foldl_Some k v (acc es : list (string * V)) :
  map_get k (foldl (fun m e => map_set e.1 e.2 m) acc es) = Some v ->
  (k, v) ∈ es \/ map_get k acc = Some v.
Proof.
  revert acc. induction es as [|[k0 v0] es IH]; intros acc; simpl; [by right|].
  intros Hg. apply IH in Hg as [Hg|Hg]; [left; by right|].
  rewrite map_get_set in Hg. destruct (decide (k = k0)) as [->|]; [|by right].
  injection Hg as ->. left. left.
Qed.

Lemma map_get_foldl_None k (acc es : list (string * V)) :
  map_get k (foldl (fun m e => map_set e.1 e.2 m) acc es) = None <->
  (k ∉ es.*1) /\ map_get k acc = None.
Proof.
  revert acc. induction es as [|[k0 v0] es IH]; intros acc; csimpl.
  - split; [intros ?; split; [apply not_elem_of_nil | done] | by intros [_ ?]].
  - rewrite IH, map_get_set, not_elem_of_cons.
    destruct (decide (k = k0)) as [->|Hne]; split.
    + by intros [_ ?].
    + by intros [[? _] _].
    + by intros [? ?].
    + by intros [[_ ?] ?].
Qed.

Lemma map_of_entries_get_Some k v (es : list (string * V)) :
  map_get k (map_of_entries es) = Some v -> (k, v) ∈ es.
Proof.
  intros Hg. apply map_get_foldl_Some in Hg as [?|?]; done.
Qed.

Lemma map_of_entries_get_None k (es : list (string * V)) :
  map_get k (map_of_entries es) = None <-> k ∉ es.*1.
Proof.
  unfold map_of_entries. rewrite map_get_foldl_None. simpl. tauto.
Qed.

End MapGetFacts.

Section LinkForceFacts.
Context `{JsNum} {physics : D3Physics}.

Lemma nodeById_Some hn ns i l :
  map_get i (nodeById hn ns) = Some l ->
  l ∈ ns /\ exists o, hn !! l = Some o /\ n_id (o_data o) = i.
Proof.
  intros Hg. apply map_of_entries_get_Some in Hg.
  apply list_elem_of_omap in Hg as (l' & Hl' & Hg).
  apply fmap_Some in Hg as (o & Ho & Heq). injection Heq as -> ->. eauto.
Qed.

Lemma nodeById_None hn ns i :
  map_get i (nodeById hn ns) = None <-> i ∉ ids_of hn ns.
Proof.
  unfold nodeById, ids_of, objects. rewrite map_of_entries_get_None.
  assert (Heq : (omap (fun l => (fun o => (n_id (o_data o), l)) <$> hn !! l) ns).*1
                = map (fun o => n_id (o_data o)) (omap (fun l => hn !! l) ns)).
  { induction ns as [|l ns IH]; csimpl; [done|].
    destruct (hn !! l); csimpl; [by rewrite IH | done]. }
  by rewrite Heq.
Qed.

Lemma resolve_inl byId e err :
  resolve byId e = inl err ->
  exists i, e = EId i /\ err = NodeNotFound i /\ map_get i byId = None.
Proof.
  destruct e as [i|l]; simpl; [|done].
  destruct (map_get i byId) eqn:Hg; [done|]. intros [= <-]. eauto.
Qed.

Lemma resolve_inr byId e r :
  resolve byId e = inr r ->
  match e with
  | EId i => exists l, map_get i byId = Some l /\ r = ERef l
  | ERef l => r = ERef l
  end.
Proof.
  destruct e as [i|l]; simpl.
  - destruct (map_get i byId) eqn:Hg; [|done]. intros [= <-]. eauto.
  - by intros [= <-].
Qed.

Lemma init_links_length byId i ls hl :
  length (init_links byId i ls hl).1 = length hl.
Proof.
  revert i hl. induction ls as [|l ls IH]; intros i hl; simpl; [done|].
  destruct (hl !! l) as [d|]; [|apply IH].
  destruct (resolve byId (k_source d)); simpl; [by rewrite length_insert|].
  destruct (resolve byId (k_target d)); simpl; [by rewrite length_insert|].
  by rewrite IH, length_insert.
Qed.

Lemma init_links_outside byId i ls hl l :
  l ∉ ls -> (init_links byId i ls hl).1 !! l = hl !! l.
Proof.
  revert i hl. induction ls as [|l0 ls IH]; intros i hl Hl; simpl; [done|].
  apply not_elem_of_cons in Hl as [Hne Hl].
  destruct (hl !! l0) as [d|]; [|by apply IH].
  destruct (resolve byId (k_source d)); simpl;
    [by rewrite list_lookup_insert_ne|].
  destruct (resolve byId (k_target d)); simpl;
    [by rewrite list_lookup_insert_ne|].
  rewrite IH by done. by rewrite list_lookup_insert_ne.
Qed.

(** When the loop ends without an error, every link that carried
    identifiers now carries the node objects found for them. *)
Lemma init_links_resolved byId i ls hl :
  NoDup ls ->
  (forall l, l ∈ ls -> exists g, hl !! l = Some (host_link g)) ->
  (init_links byId i ls hl).2 = None ->
  forall l, l ∈ ls ->
    exists d a b g, (init_links byId i ls hl).1 !! l = Some d /\
      hl !! l = Some (host_link g) /\
      k_source d = ERef a /\ k_target d = ERef b /\
      k_relationship d = l_relationship g /\
      map_get (l_source g) byId = Some a /\
      map_get (l_target g) byId = Some b.
Proof.
  revert i hl. induction ls as [|l0 ls IH]; intros i hl Hnd Hplain Hok l Hl.
  { inversion Hl. }
  apply NoDup_cons in Hnd as [Hl0 Hnd].
  destruct (Hplain l0) as [g0 Hg0]; [left|].
  simpl in Hok |- *. rewrite Hg0 in Hok |- *. simpl in Hok |- *.
  destruct (map_get (l_source g0) byId) as [a0|] eqn:Ha; simpl in *; [|done].
  destruct (map_get (l_target g0) byId) as [b0|] eqn:Hb; simpl in *; [|done].
  set (hl1 := <[l0 := _]> hl) in *.
  assert (Hplain1 : forall l', l' ∈ ls -> exists g, hl1 !! l' = Some (host_link g)).
  { intros l' Hl'. unfold hl1. rewrite list_lookup_insert_ne; [apply Hplain; by right|].
    intros ->. done. }
  apply elem_of_cons in Hl as [->|Hl].
  - rewrite init_links_outside by done. unfold hl1.
    rewrite list_lookup_insert_eq by (by eapply lookup_lt_Some).
    eexists _, a0, b0, g0. split_and!; done.
  - destruct (IH (S i) hl1 Hnd Hplain1 Hok l Hl)
      as (d & a & b & g & Hd & Hg & Hrest).
    exists d, a, b, g. split_and!; try done; try apply Hrest.
    unfold hl1 in Hg. rewrite list_lookup_insert_ne in Hg; [done|].
    intros ->. done.
Qed.

(** When some link carries an identifier that is no key, the loop ends
    with the error for such an identifier. *)
Lemma init_links_missing byId i ls hl l d j :
  NoDup ls -> l ∈ ls -> hl !! l = Some d ->
  (k_source d = EId j \/ k_target d = EId j) -> map_get j byId = None ->
  exists j', (init_links byId i ls hl).2 = Some (NodeNotFound j') /\
             map_get j' byId = None.
Proof.
  revert i hl. induction ls as [|l0 ls IH]; intros i hl Hnd Hl Hd Hj Hnone.
  { inversion Hl. }
  apply NoDup_cons in Hnd as [Hl0 Hnd]. simpl.
  destruct (hl !! l0) as [d0|] eqn:Hd0.
  2:{ apply IH; try done. apply elem_of_cons in Hl as [->|Hl]; [congruence|done]. }
  destruct (resolve byId (k_source d0)) as [e|src] eqn:Hsrc; simpl.
  { apply resolve_inl in Hsrc as (j' & _ & -> & Hj'). eauto. }
  destruct (resolve byId (k_target d0)) as [e|tgt] eqn:Htgt; simpl.
  { apply resolve_inl in Htgt as (j' & _ & -> & Hj'). eauto. }
  apply elem_of_cons in Hl as [->|Hl].
  - exfalso. rewrite Hd0 in Hd. injection Hd as ->.
    apply resolve_inr in Hsrc. apply resolve_inr in Htgt.
    destruct Hj as [Hj|Hj]; rewrite Hj in *.
    + destruct Hsrc as (? & ? & _). congruence.
    + destruct Htgt as (? & ? & _). congruence.
  - apply IH; try done.
    rewrite list_lookup_insert_ne; [done|]. intros ->. done.
Qed.

End LinkForceFacts.

Section EffectFacts.
Context `{JsNum} {physics : D3Physics}.

Lemma skeleton_ok_mono n hl n' hl' sk :
  skeleton_ok n hl sk -> n <= n' -> length hl <= length hl' ->
  (forall l, l < length hl -> hl' !! l = hl !! l) ->
  skeleton_ok n' hl' sk.
Proof.
  intros (Hn & Hl & Hres & Hsc) Hle Hle' Hsame. split_and!; [| | |done].
  - eapply Forall_impl; [exact Hn|]. simpl. lia.
  - eapply Forall_impl; [exact Hl|]. simpl. lia.
  - intros Hlive. specialize (Hres Hlive).
    rewrite Forall_forall in Hres, Hl |- *. intros l Hin.
    destruct (Hres l Hin) as (d & a & b & Hd & Hrest).
    exists d, a, b. split; [|done]. rewrite Hsame; [done|]. by apply Hl.
Qed.

(** An effect run adds objects at the end of the store and one simulation
    over these new objects. *)
Lemma wf_extend w w' snew :
  wf w ->
  sims w' = sims w ++ [snew] ->
  data_nodes w' = data_nodes w -> data_links w' = data_links w ->
  length (heap_nodes w) <= length (heap_nodes w') ->
  length (heap_links w) <= length (heap_links w') ->
  (forall l, l < length (heap_nodes w) -> heap_nodes w' !! l = heap_nodes w !! l) ->
  (forall l, l < length (heap_links w) -> heap_links w' !! l = heap_links w !! l) ->
  s_nodes snew = seq (length (heap_nodes w))
                     (length (heap_nodes w') - length (heap_nodes w)) ->
  s_links snew = seq (length (heap_links w))
                     (length (heap_links w') - length (heap_links w)) ->
  skeleton_ok (length (heap_nodes w')) (heap_links w') (skeleton snew) ->
  wf w'.
Proof.
  intros [Hs Hsep Hdn Hdl Hcn Hcl] Hsims Hd1 Hd2 Hlen1 Hlen2 Hfr1 Hfr2 Hns Hls Hok.
  assert (Hold : forall sk l, sk ∈ map skeleton (sims w) -> l ∈ sk_nodes sk ->
                              l < length (heap_nodes w)).
  { intros sk l Hsk Hl. rewrite Forall_forall in Hs.
    destruct (Hs sk Hsk) as (Hn & _). rewrite Forall_forall in Hn. by apply Hn. }
  assert (Holdl : forall sk l, sk ∈ map skeleton (sims w) -> l ∈ sk_links sk ->
                               l < length (heap_links w)).
  { intros sk l Hsk Hl. rewrite Forall_forall in Hs.
    destruct (Hs sk Hsk) as (_ & Hn & _). rewrite Forall_forall in Hn. by apply Hn. }
  assert (Hen : forall l, engine_node w' l = true <->
                          engine_node w l = true \/ l ∈ s_nodes snew).
  { intros l. rewrite !engine_node_spec, Hsims, map_app. simpl. split.
    - intros (sk & Hsk & Hl). apply elem_of_app in Hsk as [Hsk|Hsk]; [left; eauto|].
      apply list_elem_of_singleton in Hsk as ->. by right.
    - intros [(sk & Hsk & Hl)|Hl].
      + exists sk. split; [|done]. apply elem_of_app. by left.
      + exists (skeleton snew). split; [|done]. apply elem_of_app. right. left. }
  assert (Hel : forall l, engine_link w' l = true <->
                          engine_link w l = true \/ l ∈ s_links snew).
  { intros l. rewrite !engine_link_spec, Hsims, map_app. simpl. split.
    - intros (sk & Hsk & Hl). apply elem_of_app in Hsk as [Hsk|Hsk]; [left; eauto|].
      apply list_elem_of_singleton in Hsk as ->. by right.
    - intros [(sk & Hsk & Hl)|Hl].
      + exists sk. split; [|done]. apply elem_of_app. by left.
      + exists (skeleton snew). split; [|done]. apply elem_of_app. right. left. }
  assert (Hcn1 : forall l, caller_node w l = true -> caller_node w' l = true).
  { intros l Hc. apply caller_node_spec in Hc as [Hlt Hc]. apply caller_node_spec.
    split; [lia|]. apply not_true_is_false. rewrite Hen. intros [?|Hl]; [congruence|].
    rewrite Hns in Hl. apply elem_of_seq in Hl. lia. }
  assert (Hcn2 : forall l, caller_node w' l = true -> caller_node w l = true).
  { intros l Hc. apply caller_node_spec in Hc as [Hlt Hc]. apply caller_node_spec.
    assert (Hne : ~ engine_node w' l = true) by congruence.
    rewrite Hen in Hne. split.
    - destruct (decide (l < length (heap_nodes w))); [done|]. exfalso. apply Hne.
      right. rewrite Hns. apply elem_of_seq. lia.
    - apply not_true_is_false. tauto. }
  assert (Hcl1 : forall l, caller_link w l = true -> caller_link w' l = true).
  { intros l Hc. apply caller_link_spec in Hc as [Hlt Hc]. apply caller_link_spec.
    split; [lia|]. apply not_true_is_false. rewrite Hel. intros [?|Hl]; [congruence|].
    rewrite Hls in Hl. apply elem_of_seq in Hl. lia. }
  assert (Hcl2 : forall l, caller_link w' l = true -> caller_link w l = true).
  { intros l Hc. apply caller_link_spec in Hc as [Hlt Hc]. apply caller_link_spec.
    assert (Hne : ~ engine_link w' l = true) by congruence.
    rewrite Hel in Hne. split.
    - destruct (decide (l < length (heap_links w))); [done|]. exfalso. apply Hne.
      right. rewrite Hls. apply elem_of_seq. lia.
    - apply not_true_is_false. tauto. }
  split.
  - rewrite Hsims, map_app. apply Forall_app. split.
    + eapply Forall_impl; [exact Hs|]. intros sk Hsk.
      eapply skeleton_ok_mono; eauto.
    + simpl. constructor; [exact Hok | constructor].
  - rewrite Hsims, map_app. simpl. intros i j a b l Ha Hb Hij Hla Hlb.
    assert (Hnew : forall x, x ∈ sk_nodes (skeleton snew) ->
                             length (heap_nodes w) <= x).
    { intros x Hx. simpl in Hx. rewrite Hns in Hx. apply elem_of_seq in Hx. lia. }
    apply lookup_app_Some in Ha as [Ha|[Hi Ha]];
      apply lookup_app_Some in Hb as [Hb|[Hj Hb]].
    + by eapply (Hsep i j a b l).
    + apply list_lookup_singleton_Some in Hb as [_ <-].
      apply Hnew in Hlb. apply list_elem_of_lookup_2 in Ha.
      specialize (Hold a l Ha Hla). lia.
    + apply list_lookup_singleton_Some in Ha as [_ <-].
      apply Hnew in Hla. apply list_elem_of_lookup_2 in Hb.
      specialize (Hold b l Hb Hlb). lia.
    + apply list_lookup_singleton_Some in Ha as [Ha _].
      apply list_lookup_singleton_Some in Hb as [Hb _]. lia.
  - rewrite Hd1. eapply Forall_impl; [exact Hdn|]. exact Hcn1.
  - rewrite Hd2. eapply Forall_impl; [exact Hdl|]. exact Hcl1.
  - intros l Hl. apply Hcn2 in Hl. rewrite Hfr1; [by apply Hcn|].
    by apply caller_node_spec in Hl as [? _].
  - intros l Hl. apply Hcl2 in Hl. rewrite Hfr2; [by apply Hcl|].
    by apply caller_link_spec in Hl as [? _].
Qed.

End EffectFacts.

Section EffectRun.
Context `{JsNum} {physics : D3Physics}.

Lemma app_seq_lookup {A} (h cs : list A) l :
  l ∈ seq (length h) (length cs) -> exists c, (h ++ cs) !! l = Some c /\ c ∈ cs.
Proof.
  intros Hl. apply elem_of_seq in Hl.
  destruct (lookup_lt_is_Some_2 cs (l - length h)) as [c Hc]; [lia|].
  exists c. split; [|by eapply list_elem_of_lookup_2].
  rewrite lookup_app_r by lia. done.
Qed.

Lemma copies_plain_nodes w c :
  wf w -> c ∈ objects (heap_nodes w) (data_nodes w) -> exists n, c = host_node n.
Proof.
  intros Hw Hc. apply objects_elem in Hc as (l & Hl & Hc).
  pose proof (wf_data_nodes _ Hw) as Hd. rewrite Forall_forall in Hd.
  destruct (wf_caller_nodes _ Hw l (Hd l Hl)) as [n Hn]. exists n. congruence.
Qed.

Lemma copies_plain_links w c :
  wf w -> c ∈ objects (heap_links w) (data_links w) -> exists g, c = host_link g.
Proof.
  intros Hw Hc. apply objects_elem in Hc as (l & Hl & Hc).
  pose proof (wf_data_links _ Hw) as Hd. rewrite Forall_forall in Hd.
  destruct (wf_caller_links _ Hw l (Hd l Hl)) as [g Hg]. exists g. congruence.
Qed.

Lemma build_scene_data hn hl ns ls :
  let d := scene_data (build_scene hn hl ns ls) in
  Forall (fun l => l ∈ ls) d.1.1.1 /\ Forall (fun l => l ∈ ls) d.1.1.2 /\
  Forall (fun l => l ∈ ns) d.1.2 /\
  Forall (fun p => p.1.1 ∈ ns /\ p.1.2 = lit 12 /\ p.2 = ".35em") d.2.
Proof.
  simpl. split_and!; apply Forall_forall; intros l Hl;
    apply list_elem_of_fmap in Hl as (p & -> & Hp).
  - apply list_elem_of_fmap in Hp as (l & -> & Hl). done.
  - apply list_elem_of_omap in Hp as (l & Hl & Hp).
    apply fmap_Some in Hp as (d & _ & ->). done.
  - apply list_elem_of_lookup in Hp as [i Hp].
    apply lookup_zip_with_Some in Hp as (l & f & -> & Hl & _).
    simpl. by eapply list_elem_of_lookup_2.
  - apply list_elem_of_omap in Hp as (l & Hl & Hp).
    apply fmap_Some in Hp as (d & _ & ->). done.
Qed.

Lemma run_effect_wf w : wf w -> wf (run_effect w).
Proof.
  intros Hw. unfold run_effect.
  destruct (_ || _) eqn:Hguard.
  { eapply wf_static; try done. }
  set (cn := objects (heap_nodes w) (data_nodes w)).
  set (cl := objects (heap_links w) (data_links w)).
  set (ns := seq (length (heap_nodes w)) (length cn)).
  set (ls := seq (length (heap_links w)) (length cl)).
  set (hn := for_nodes init_node 0 ns (heap_nodes w ++ cn)).
  set (byId := nodeById hn ns).
  destruct (init_links byId 0 ls (heap_links w ++ cl)) as [hl err] eqn:Hinit.
  assert (Hlenn : length hn = length (heap_nodes w) + length cn).
  { unfold hn. by rewrite for_nodes_length, length_app. }
  assert (Hlenl : length hl = length (heap_links w) + length cl).
  { replace hl with (init_links byId 0 ls (heap_links w ++ cl)).1 by (by rewrite Hinit).
    by rewrite init_links_length, length_app. }
  assert (Hfrn : forall l, l < length (heap_nodes w) -> hn !! l = heap_nodes w !! l).
  { intros l Hl. unfold hn. rewrite for_nodes_outside.
    - by apply lookup_app_l.
    - unfold ns. rewrite elem_of_seq. lia. }
  assert (Hfrl : forall l, l < length (heap_links w) -> hl !! l = heap_links w !! l).
  { intros l Hl.
    replace hl with (init_links byId 0 ls (heap_links w ++ cl)).1 by (by rewrite Hinit).
    rewrite init_links_outside.
    - by apply lookup_app_l.
    - unfold ls. rewrite elem_of_seq. lia. }
  assert (Hvn : Forall (fun l => l < length hn) ns).
  { apply Forall_forall. intros l Hl. apply elem_of_seq in Hl. lia. }
  assert (Hvl : Forall (fun l => l < length hl) ls).
  { apply Forall_forall. intros l Hl. apply elem_of_seq in Hl. lia. }
  destruct err as [e|].
  - eapply (wf_extend w _ (forceSimulation ns ls)); try done; simpl;
      try lia.
    + f_equal. lia.
    + f_equal. lia.
    + split_and!; simpl; try done.
      intros [?|[? ?]]; done.
  - eapply wf_extend; try done; simpl; try lia.
    + f_equal. lia.
    + f_equal. lia.
    + split_and!; simpl; try done.
      * intros _. apply Forall_forall. intros l Hl.
        assert (Hres := init_links_resolved byId 0 ls (heap_links w ++ cl)).
        rewrite Hinit in Hres. simpl in Hres.
        destruct (Hres (NoDup_seq _ _)) with (l := l)
          as (d & a & b & g & Hd & _ & Hs & Ht & _ & Ha & Hb); try done.
        { intros l' Hl'. apply app_seq_lookup in Hl' as (c & Hc & Hin).
          apply (copies_plain_links w) in Hin as [g ->]; [|done]. eauto. }
        exists d, a, b. split_and!; try done.
        -- by apply nodeById_Some in Ha as [? _].
        -- by apply nodeById_Some in Hb as [? _].
      * intros d [= <-]. apply build_scene_data.
Qed.

End EffectRun.

Section Reachability.
Context `{JsNum} {physics : D3Physics}.

Lemma lookup_host_nodes (h : list NodeObj) (ns : list GraphNode) l :
  length h <= l -> l < length h + length ns ->
  exists n, (h ++ map host_node ns) !! l = Some (host_node n).
Proof.
  intros Hge Hlt. rewrite lookup_app_r by done.
  destruct (lookup_lt_is_Some_2 ns (l - length h)) as [n Hn]; [lia|].
  exists n. by rewrite list_lookup_fmap, Hn.
Qed.

Lemma lookup_host_links (h : list LinkObj) (ls : list GraphLink) l :
  length h <= l -> l < length h + length ls ->
  exists g, (h ++ map host_link ls) !! l = Some (host_link g).
Proof.
  intros Hge Hlt. rewrite lookup_app_r by done.
  destruct (lookup_lt_is_Some_2 ls (l - length h)) as [g Hg]; [lia|].
  exists g. by rewrite list_lookup_fmap, Hg.
Qed.

(** The caller allocates the objects of a new snapshot and passes it. *)
Lemma set_data_wf w ns ls dn dl :
  wf w -> valid_event w (SetData ns ls dn dl) = true ->
  wf {| heap_nodes := heap_nodes w ++ map host_node ns;
        heap_links := heap_links w ++ map host_link ls;
        sims := sims w;
        data_nodes := dn; data_links := dl;
        dimensions := dimensions w; svgRef := svgRef w;
        status := status w; cleanup := cleanup w;
        attached := attached w |}.
Proof.
  intros Hw Hv. simpl in Hv. apply andb_true_iff in Hv as [Hvn Hvl].
  rewrite forallb_forall in Hvn, Hvl.
  set (w1 := mkWorld _ _ _ _ _ _ _ _ _ _).
  assert (Hen : forall l, engine_node w1 l = engine_node w l) by done.
  assert (Hel : forall l, engine_link w1 l = engine_link w l) by done.
  destruct Hw as [Hs Hsep Hdn Hdl Hcn Hcl]. split; simpl.
  - eapply Forall_impl; [exact Hs|]. intros sk Hsk.
    eapply skeleton_ok_mono; [exact Hsk | | |].
    + rewrite length_app. lia.
    + rewrite length_app. lia.
    + intros l Hl. by apply lookup_app_l.
  - done.
  - apply Forall_forall. intros l Hl. apply list_elem_of_In, Hvn in Hl.
    apply andb_true_iff in Hl as [Hlt Hne]. apply bool_decide_eq_true in Hlt.
    apply caller_node_spec. simpl. rewrite length_app, length_map.
    split; [done|]. rewrite Hen. by apply negb_true_iff.
  - apply Forall_forall. intros l Hl. apply list_elem_of_In, Hvl in Hl.
    apply andb_true_iff in Hl as [Hlt Hne]. apply bool_decide_eq_true in Hlt.
    apply caller_link_spec. simpl. rewrite length_app, length_map.
    split; [done|]. rewrite Hel. by apply negb_true_iff.
  - intros l Hl. apply caller_node_spec in Hl as [Hlt Hne]. simpl in Hlt.
    rewrite length_app, length_map in Hlt. rewrite Hen in Hne.
    destruct (decide (l < length (heap_nodes w))) as [Hin|Hout].
    + rewrite lookup_app_l by done. apply Hcn. by apply caller_node_spec.
    + apply lookup_host_nodes; lia.
  - intros l Hl. apply caller_link_spec in Hl as [Hlt Hne]. simpl in Hlt.
    rewrite length_app, length_map in Hlt. rewrite Hel in Hne.
    destruct (decide (l < length (heap_links w))) as [Hin|Hout].
    + rewrite lookup_app_l by done. apply Hcl. by apply caller_link_spec.
    + apply lookup_host_links; lia.
Qed.

Lemma mount_wf ns ls : wf (mount ns ls).
Proof.
  apply run_effect_wf. split; simpl.
  - constructor.
  - intros i j a b l Ha. done.
  - apply Forall_forall. intros l Hl. apply elem_of_seq in Hl.
    apply caller_node_spec. simpl. rewrite length_map. split; [lia|done].
  - apply Forall_forall. intros l Hl. apply elem_of_seq in Hl.
    apply caller_link_spec. simpl. rewrite length_map. split; [lia|done].
  - intros l Hl. apply caller_node_spec in Hl as [Hlt _]. simpl in Hlt.
    rewrite length_map in Hlt.
    destruct (lookup_host_nodes [] ns l) as [n Hn]; simpl; [lia | lia | eauto].
  - intros l Hl. apply caller_link_spec in Hl as [Hlt _]. simpl in Hlt.
    rewrite length_map in Hlt.
    destruct (lookup_host_links [] ls l) as [g Hg]; simpl; [lia | lia | eauto].
Qed.

Lemma step_wf e w : wf w -> valid_event w e = true -> wf (step e w).
Proof.
  intros Hw Hv. destruct e as [wd ht|ns ls dn dl| | |k i ev|k i ev|k i ev]; simpl.
  - destruct (is_mounted w); [|done].
    apply run_effect_wf, run_cleanup_wf. eapply wf_static; try done.
  - destruct (is_mounted w); [|done].
    apply run_effect_wf, run_cleanup_wf. by apply set_data_wf.
  - destruct (is_mounted w); [|done].
    eapply (wf_static (run_cleanup w)); try done. by apply run_cleanup_wf.
  - by apply frame_wf.
  - destruct (decide _); [|done].
    apply dispatch_drag_wf; [apply dragstarted_skeleton | done].
  - apply dispatch_drag_wf; [apply dragged_skeleton | done].
  - apply dispatch_drag_wf; [apply dragended_skeleton | done].
Qed.

Lemma reachable_wf w : reachable w -> wf w.
Proof.
  induction 1 as [ns ls|w e Hr IH Hv]; [apply mount_wf | by apply step_wf].
Qed.

End Reachability.

Section Frames.
Context `{JsNum} {physics : D3Physics}.

Lemma keeps_caller_refl w : keeps_caller w w.
Proof. split; intros l Hl; done. Qed.

Lemma keeps_caller_trans w1 w2 w3 :
  keeps_caller w1 w2 -> keeps_caller w2 w3 -> keeps_caller w1 w3.
Proof.
  intros [Hn1 Hl1] [Hn2 Hl2]. split; intros l Hl.
  - destruct (Hn1 l Hl) as [Hc Heq]. destruct (Hn2 l Hc) as [Hc' Heq'].
    split; [done | congruence].
  - destruct (Hl1 l Hl) as [Hc Heq]. destruct (Hl2 l Hc) as [Hc' Heq'].
    split; [done | congruence].
Qed.

Lemma keeps_caller_static w w' :
  wf w ->
  map skeleton (sims w') = map skeleton (sims w) ->
  length (heap_nodes w') = length (heap_nodes w) ->
  heap_links w' = heap_links w ->
  (forall l, caller_node w l = true -> heap_nodes w' !! l = heap_nodes w !! l) ->
  keeps_caller w w'.
Proof.
  intros Hw Hsk Hlen Hhl Hfr. split; intros l Hl.
  - split; [|by apply Hfr].
    unfold caller_node in *. by rewrite Hlen, (engine_node_ext w w').
  - split; [|by rewrite Hhl].
    unfold caller_link in *. by rewrite Hhl, (engine_link_ext w w').
Qed.

Lemma step_sim_keeps_caller k w : wf w -> keeps_caller w (step_sim k w).
Proof.
  intros Hw. pose proof (step_sim_spec k w) as Hs. simpl in Hs.
  destruct Hs as (Hsk & _ & Hlen & Hhl & _ & _ & _ & _ & _ & _ & _ & _ & Hout).
  apply keeps_caller_static; try done.
  intros l Hl. apply Hout. intros s Hs. by eapply caller_node_not_engine.
Qed.

Lemma foldl_step_sim_keeps_caller ks w :
  wf w -> keeps_caller w (foldl (fun w k => step_sim k w) w ks).
Proof.
  revert w. induction ks as [|k ks IH]; intros w Hw; simpl.
  - apply keeps_caller_refl.
  - eapply keeps_caller_trans; [by apply step_sim_keeps_caller|].
    by apply IH, step_sim_wf.
Qed.

Lemma dispatch_drag_keeps_caller handler k i ev w :
  (forall ev s d, skeleton (handler ev s d).1 = skeleton s) ->
  wf w -> keeps_caller w (dispatch_drag handler k i ev w).
Proof.
  intros Hh Hw. unfold dispatch_drag.
  destruct (sims w !! k) as [s|] eqn:Hk; [|apply keeps_caller_refl].
  destruct (s_scene s) as [sc|] eqn:Hsc; [|apply keeps_caller_refl].
  destruct (sc_node sc !! i) as [c|] eqn:Hc; [|apply keeps_caller_refl].
  destruct (heap_nodes w !! c_datum c) as [d|] eqn:Hd; [|apply keeps_caller_refl].
  apply keeps_caller_static; try done; simpl.
  - by apply (map_skeleton_insert _ _ s).
  - by rewrite length_insert.
  - intros l Hl. apply list_lookup_insert_ne. intros <-.
    eapply caller_node_not_engine; [exact Hl | exact Hk |].
    by eapply circle_datum_owned.
Qed.

Lemma run_cleanup_keeps_caller w : wf w -> keeps_caller w (run_cleanup w).
Proof.
  intros Hw. unfold run_cleanup.
  destruct (cleanup w) as [k|]; [|apply keeps_caller_refl].
  apply keeps_caller_static; try done; simpl.
  apply map_skeleton_alter. intros s. apply skeleton_set_running.
Qed.

(** What an effect run leaves as it was, and what it adds. *)
Lemma run_effect_frame w :
  let w' := run_effect w in
  (forall l, l < length (heap_nodes w) -> heap_nodes w' !! l = heap_nodes w !! l) /\
  (forall l, l < length (heap_links w) -> heap_links w' !! l = heap_links w !! l) /\
  length (heap_nodes w) <= length (heap_nodes w') /\
  length (heap_links w) <= length (heap_links w') /\
  data_nodes w' = data_nodes w /\ data_links w' = data_links w /\
  dimensions w' = dimensions w /\ svgRef w' = svgRef w /\
  (sims w' = sims w \/
   exists snew, sims w' = sims w ++ [snew] /\
     s_nodes snew = seq (length (heap_nodes w))
                        (length (heap_nodes w') - length (heap_nodes w)) /\
     s_links snew = seq (length (heap_links w))
                        (length (heap_links w') - length (heap_links w))).
Proof.
  unfold run_effect. destruct (_ || _) eqn:Hguard.
  { simpl. split_and!; try done. by left. }
  set (cn := objects (heap_nodes w) (data_nodes w)).
  set (cl := objects (heap_links w) (data_links w)).
  set (ns := seq (length (heap_nodes w)) (length cn)).
  set (ls := seq (length (heap_links w)) (length cl)).
  set (hn := for_nodes init_node 0 ns (heap_nodes w ++ cn)).
  set (byId := nodeById hn ns).
  destruct (init_links byId 0 ls (heap_links w ++ cl)) as [hl err] eqn:Hinit.
  assert (Hlenn : length hn = length (heap_nodes w) + length cn).
  { unfold hn. by rewrite for_nodes_length, length_app. }
  assert (Hlenl : length hl = length (heap_links w) + length cl).
  { replace hl with (init_links byId 0 ls (heap_links w ++ cl)).1 by (by rewrite Hinit).
    by rewrite init_links_length, length_app. }
  assert (Hfrn : forall l, l < length (heap_nodes w) -> hn !! l = heap_nodes w !! l).
  { intros l Hl. unfold hn. rewrite for_nodes_outside.
    - by apply lookup_app_l.
    - unfold ns. rewrite elem_of_seq. lia. }
  assert (Hfrl : forall l, l < length (heap_links w) -> hl !! l = heap_links w !! l).
  { intros l Hl.
    replace hl with (init_links byId 0 ls (heap_links w ++ cl)).1 by (by rewrite Hinit).
    rewrite init_links_outside.
    - by apply lookup_app_l.
    - unfold ls. rewrite elem_of_seq. lia. }
  destruct err as [e|]; simpl; split_and!; try done; try lia;
    right; eexists; (split; [reflexivity|]); simpl; split; f_equal; lia.
Qed.

Lemma caller_node_extend w w' :
  length (heap_nodes w) <= length (heap_nodes w') ->
  (sims w' = sims w \/
   exists snew, sims w' = sims w ++ [snew] /\
     s_nodes snew = seq (length (heap_nodes w))
                        (length (heap_nodes w') - length (heap_nodes w))) ->
  forall l, caller_node w l = true -> caller_node w' l = true.
Proof.
  intros Hlen Hs l Hl. apply caller_node_spec in Hl as [Hlt Hne].
  apply caller_node_spec. split; [lia|]. apply not_true_is_false.
  rewrite engine_node_spec. intros (sk & Hsk & Hin).
  assert (engine_node w l = true); [|congruence]. apply engine_node_spec.
  destruct Hs as [Hs|(snew & Hs & Hns)]; rewrite Hs in Hsk; [eauto|].
  rewrite map_app in Hsk. apply elem_of_app in Hsk as [Hsk|Hsk]; [eauto|].
  apply list_elem_of_singleton in Hsk as ->. simpl in Hin. rewrite Hns in Hin.
  apply elem_of_seq in Hin. lia.
Qed.

Lemma caller_link_extend w w' :
  length (heap_links w) <= length (heap_links w') ->
  (sims w' = sims w \/
   exists snew, sims w' = sims w ++ [snew] /\
     s_links snew = seq (length (heap_links w))
                        (length (heap_links w') - length (heap_links w))) ->
  forall l, caller_link w l = true -> caller_link w' l = true.
Proof.
  intros Hlen Hs l Hl. apply caller_link_spec in Hl as [Hlt Hne].
  apply caller_link_spec. split; [lia|]. apply not_true_is_false.
  rewrite engine_link_spec. intros (sk & Hsk & Hin).
  assert (engine_link w l = true); [|congruence]. apply engine_link_spec.
  destruct Hs as [Hs|(snew & Hs & Hns)]; rewrite Hs in Hsk; [eauto|].
  rewrite map_app in Hsk. apply elem_of_app in Hsk as [Hsk|Hsk]; [eauto|].
  apply list_elem_of_singleton in Hsk as ->. simpl in Hin. rewrite Hns in Hin.
  apply elem_of_seq in Hin. lia.
Qed.

Lemma run_effect_keeps_caller w : keeps_caller w (run_effect w).
Proof.
  pose proof (run_effect_frame w) as Hf. simpl in Hf.
  destruct Hf as (Hfn & Hfl & Hln & Hll & _ & _ & _ & _ & Hs).
  split; intros l Hl.
  - split.
    + eapply caller_node_extend; [exact Hln | | exact Hl].
      destruct Hs as [?|(snew & ? & ? & ?)]; [by left | right; eauto].
    + apply Hfn. by apply caller_node_spec in Hl as [? _].
  - split.
    + eapply caller_link_extend; [exact Hll | | exact Hl].
      destruct Hs as [?|(snew & ? & ? & ?)]; [by left | right; eauto].
    + apply Hfl. by apply caller_link_spec in Hl as [? _].
Qed.

Lemma step_keeps_caller e w :
  wf w -> valid_event w e = true -> keeps_caller w (step e w).
Proof.
  intros Hw Hv. destruct e as [wd ht|ns ls dn dl| | |k i ev|k i ev|k i ev]; simpl.
  - destruct (is_mounted w); [|apply keeps_caller_refl].
    set (w1 := mkWorld _ _ _ _ _ _ _ _ _ _).
    assert (Hw1 : wf w1) by (eapply wf_static; try done).
    eapply keeps_caller_trans; [|apply run_effect_keeps_caller].
    eapply keeps_caller_trans; [|by apply run_cleanup_keeps_caller].
    by apply keeps_caller_static.
  - destruct (is_mounted w); [|apply keeps_caller_refl].
    set (w1 := mkWorld _ _ _ _ _ _ _ _ _ _).
    assert (Hw1 : wf w1) by (by apply set_data_wf).
    eapply keeps_caller_trans; [|apply run_effect_keeps_caller].
    eapply keeps_caller_trans; [|by apply run_cleanup_keeps_caller].
    split; intros l Hl.
    + apply caller_node_spec in Hl as [Hlt Hne]. split.
      * apply caller_node_spec. simpl. rewrite length_app. split; [lia|done].
      * simpl. by apply lookup_app_l.
    + apply caller_link_spec in Hl as [Hlt Hne]. split.
      * apply caller_link_spec. simpl. rewrite length_app. split; [lia|done].
      * simpl. by apply lookup_app_l.
  - destruct (is_mounted w); [|apply keeps_caller_refl].
    eapply keeps_caller_trans; [by apply run_cleanup_keeps_caller|].
    apply keeps_caller_static; try done. by apply run_cleanup_wf.
  - by apply foldl_step_sim_keeps_caller.
  - destruct (decide _); [|apply keeps_caller_refl].
    apply dispatch_drag_keeps_caller; [apply dragstarted_skeleton | done].
  - apply dispatch_drag_keeps_caller; [apply dragged_skeleton | done].
  - apply dispatch_drag_keeps_caller; [apply dragended_skeleton | done].
Qed.

Lemma run_keeps_caller es w :
  wf w -> valid_run es w = true -> keeps_caller w (run es w) /\ wf (run es w).
Proof.
  revert w. induction es as [|e es IH]; intros w Hw Hv; simpl.
  - split; [apply keeps_caller_refl | done].
  - simpl in Hv. apply andb_true_iff in Hv as [Hv Hvs].
    destruct (IH (step e w)) as [Hk Hw']; [by apply step_wf | done |].
    split; [|done].
    eapply keeps_caller_trans; [by apply step_keeps_caller | done].
Qed.

End Frames.

Section Teardown.
Context `{JsNum} {physics : D3Physics}.

Lemma step_sim_stopped k w s :
  sims w !! k = Some s -> s_running s = false -> step_sim k w = w.
Proof. intros Hk Hr. unfold step_sim. by rewrite Hk, Hr. Qed.

Lemma wf_separated w j k sj sk l :
  wf w -> sims w !! j = Some sj -> sims w !! k = Some sk -> j <> k ->
  l ∈ s_nodes sk -> l ∉ s_nodes sj.
Proof.
  intros Hw Hj Hk Hne Hl.
  apply (wf_sep _ Hw k j (skeleton sk) (skeleton sj) l); try done;
    by apply skeleton_lookup.
Qed.

(** Timer callbacks of other simulations, and of this one when it is
    stopped, leave a simulation and its nodes as they are. *)
Lemma foldl_step_sim_other ks w k s :
  wf w -> sims w !! k = Some s -> (k ∉ ks \/ s_running s = false) ->
  let w' := foldl (fun w j => step_sim j w) w ks in
  sims w' !! k = Some s /\
  heap_links w' = heap_links w /\
  (forall l, l ∈ s_nodes s -> heap_nodes w' !! l = heap_nodes w !! l).
Proof.
  revert w. induction ks as [|j ks IH]; intros w Hw Hk Hcase; simpl; [done|].
  destruct (decide (j = k)) as [->|Hne].
  - destruct Hcase as [Hnin|Hr]; [exfalso; apply Hnin; left|].
    rewrite (step_sim_stopped k w s) by done. apply IH; try done. by right.
  - pose proof (step_sim_spec j w) as Hs. simpl in Hs.
    destruct Hs as (_ & _ & _ & Hhl & _ & _ & _ & _ & _ & _ & _ & Hoth & Hout).
    destruct (IH (step_sim j w)) as (Hk' & Hhl' & Hfr).
    + by apply step_sim_wf.
    + rewrite Hoth; done.
    + destruct Hcase as [Hnin|Hr]; [left|by right].
      by apply not_elem_of_cons in Hnin as [_ ?].
    + split_and!; [done | congruence |].
      intros l Hl. rewrite Hfr by done. apply Hout.
      intros sj Hj. by eapply (wf_separated w j k).
Qed.

Lemma frame_stopped w k s :
  wf w -> sims w !! k = Some s -> s_running s = false ->
  sims (frame w) !! k = Some s /\
  (forall l, l ∈ s_nodes s -> heap_nodes (frame w) !! l = heap_nodes w !! l).
Proof.
  intros Hw Hk Hr. unfold frame.
  destruct (foldl_step_sim_other (seq 0 (length (sims w))) w k s) as (? & _ & ?);
    try done. by right.
Qed.

Lemma frames_stopped n w k s :
  wf w -> sims w !! k = Some s -> s_running s = false ->
  let w' := run (replicate n Frame) w in
  wf w' /\ sims w' !! k = Some s /\
  (forall l, l ∈ s_nodes s -> heap_nodes w' !! l = heap_nodes w !! l).
Proof.
  revert w. induction n as [|n IH]; intros w Hw Hk Hr; simpl; [done|].
  destruct (frame_stopped w k s Hw Hk Hr) as [Hk' Hfr].
  destruct (IH (frame w)) as (Hw' & Hk'' & Hfr'); [by apply frame_wf | done | done |].
  split_and!; try done. intros l Hl. rewrite Hfr' by done. by apply Hfr.
Qed.

Lemma sim_nodes_valid w k s l :
  wf w -> sims w !! k = Some s -> l ∈ s_nodes s -> l < length (heap_nodes w).
Proof.
  intros Hw Hk Hl. destruct (wf_sim_ok w k s Hw Hk) as (Hn & _).
  rewrite Forall_forall in Hn. by apply Hn.
Qed.

Lemma run_effect_old_sim w k s :
  sims w !! k = Some s -> sims (run_effect w) !! k = Some s.
Proof.
  intros Hk. pose proof (run_effect_frame w) as Hf. simpl in Hf.
  destruct Hf as (_ & _ & _ & _ & _ & _ & _ & _ & [->|(snew & -> & _)]); [done|].
  by apply lookup_app_l_Some.
Qed.

(** What a teardown does to the simulation of the current effect run. *)
Lemma teardown_stops w e k s :
  wf w -> is_teardown e = true -> is_mounted w = true ->
  cleanup w = Some k -> sims w !! k = Some s ->
  sims (step e w) !! k = Some (stop s) /\
  (forall l, l ∈ s_nodes s -> heap_nodes (step e w) !! l = heap_nodes w !! l).
Proof.
  intros Hw He Hm Hc Hk.
  assert (Hv : forall l, l ∈ s_nodes s -> l < length (heap_nodes w))
    by (intros l; by eapply sim_nodes_valid).
  destruct e as [wd ht|ns ls dn dl| | |? ? ?|? ? ?|? ? ?]; try done;
    simpl; rewrite Hm.
  - set (w1 := run_cleanup _).
    assert (Hk1 : sims w1 !! k = Some (stop s)).
    { unfold w1, run_cleanup. simpl. rewrite Hc. simpl.
      by rewrite list_lookup_alter_eq, Hk. }
    split; [by apply run_effect_old_sim|].
    intros l Hl. pose proof (run_effect_frame w1) as (Hfn & _).
    rewrite Hfn.
    + unfold w1, run_cleanup. simpl. by rewrite Hc.
    + unfold w1, run_cleanup. simpl. rewrite Hc. simpl. by apply Hv.
  - set (w1 := run_cleanup _).
    assert (Hk1 : sims w1 !! k = Some (stop s)).
    { unfold w1, run_cleanup. simpl. rewrite Hc. simpl.
      by rewrite list_lookup_alter_eq, Hk. }
    split; [by apply run_effect_old_sim|].
    intros l Hl. pose proof (run_effect_frame w1) as (Hfn & _).
    assert (Hh : heap_nodes w1 = heap_nodes w ++ map host_node ns).
    { unfold w1, run_cleanup. simpl. by rewrite Hc. }
    rewrite Hfn by (rewrite Hh, length_app; specialize (Hv l Hl); lia).
    rewrite Hh. apply lookup_app_l. by apply Hv.
  - unfold run_cleanup. rewrite Hc. simpl.
    split; [by rewrite list_lookup_alter_eq, Hk | done].
Qed.

End Teardown.

Section Ticks.
Context `{JsNum} {physics : D3Physics}.

Lemma with_kin_pinned px py k d : pinned_at px py d -> pinned_at px py (with_kin k d).
Proof. done. Qed.

Lemma integrate_pinned px py d : pinned_at px py d -> pinned_at px py (integrate d).
Proof. done. Qed.

Lemma integrate_holds px py d : pinned_at px py d -> held_at px py (integrate d).
Proof.
  intros [Hx Hy]. unfold held_at, pinned_at, integrate. simpl.
  by rewrite Hx, Hy.
Qed.

Lemma integrate_held px py d : held_at px py d -> held_at px py (integrate d).
Proof. intros [Hp _]. by apply integrate_holds. Qed.

(** After a tick, a pinned node is at its pin. *)
Lemma tick_pinned s hn hl l d px py :
  l ∈ s_nodes s -> hn !! l = Some d -> pinned_at px py d ->
  exists d', (tick s hn hl).2 !! l = Some d' /\ held_at px py d'.
Proof.
  intros Hl Hd Hp.
  destruct (lookup_lt_is_Some_2 (tick s hn hl).2 l) as [d' Hd'].
  { rewrite tick_length. by eapply lookup_lt_Some. }
  exists d'. split; [done|]. revert d' Hd'. unfold tick. simpl.
  apply (for_nodes_establishes (pinned_at px py) (held_at px py)); try done.
  - intros ? a Ha. by apply integrate_holds.
  - intros ? a Ha. by apply integrate_held.
  - destruct (s_center s).
    + apply set_kins_invariant; [intros k a; apply with_kin_pinned|].
      intros a Ha. congruence.
    + intros a Ha. congruence.
Qed.

Lemma step_sim_running k w s :
  sims w !! k = Some s -> s_running s = true ->
  let r := tick s (heap_nodes w) (heap_links w) in
  let sc := on_tick r.2 (heap_links w) <$> s_scene s in
  exists s', sims (step_sim k w) !! k = Some s' /\
    heap_nodes (step_sim k w) = r.2 /\
    heap_links (step_sim k w) = heap_links w /\
    s_nodes s' = s_nodes s /\ s_links s' = s_links s /\
    s_scene s' = sc /\ s_ticks s' = S (s_ticks s) /\
    s_center s' = s_center s /\ s_alphaTarget s' = s_alphaTarget s.
Proof.
  intros Hk Hr. unfold step_sim. rewrite Hk, Hr. simpl.
  eexists. split.
  { apply list_lookup_insert_eq. by eapply lookup_lt_Some. }
  by destruct (nlt _ _).
Qed.

Lemma seq_split k n : k < n -> seq 0 n = seq 0 k ++ k :: seq (S k) (n - S k).
Proof.
  intros Hk. replace n with (k + S (n - S k)) at 1 by lia.
  by rewrite seq_app.
Qed.

(** One animation frame, seen from simulation [k]: the callbacks before it
    and after it leave it and its nodes alone. *)
Lemma frame_at w k s :
  wf w -> sims w !! k = Some s ->
  exists w1,
    wf w1 /\ sims w1 !! k = Some s /\ heap_links w1 = heap_links w /\
    (forall l, l ∈ s_nodes s -> heap_nodes w1 !! l = heap_nodes w !! l) /\
    sims (frame w) !! k = sims (step_sim k w1) !! k /\
    heap_links (frame w) = heap_links w /\
    (forall l, l ∈ s_nodes s ->
       heap_nodes (frame w) !! l = heap_nodes (step_sim k w1) !! l).
Proof.
  intros Hw Hk. unfold frame.
  rewrite (seq_split k) by (by eapply lookup_lt_Some).
  rewrite foldl_app. simpl.
  set (w1 := foldl _ w (seq 0 k)).
  destruct (foldl_step_sim_other (seq 0 k) w k s Hw Hk) as (Hk1 & Hl1 & Hn1).
  { left. rewrite elem_of_seq. lia. }
  fold w1 in Hk1, Hl1, Hn1.
  assert (Hw1 : wf w1) by (by apply foldl_step_sim_wf).
  pose proof (step_sim_spec k w1) as Hs. simpl in Hs.
  destruct Hs as (Hsk & Hlen & _ & Hhl & _).
  destruct (lookup_lt_is_Some_2 (sims (step_sim k w1)) k) as [s2 Hk2].
  { rewrite Hlen. by eapply lookup_lt_Some. }
  destruct (foldl_step_sim_other (seq (S k) (length (sims w) - S k))
              (step_sim k w1) k s2) as (Hk3 & Hl3 & Hn3).
  { by apply step_sim_wf. }
  { done. }
  { left. rewrite elem_of_seq. lia. }
  assert (Hsk2 : skeleton s2 = skeleton s).
  { apply (f_equal (fun m => m !! k)) in Hsk.
    rewrite !list_lookup_fmap, Hk2, Hk1 in Hsk. simpl in Hsk. congruence. }
  apply (f_equal sk_nodes) in Hsk2. simpl in Hsk2.
  exists w1. split_and!; try done; try congruence.
  intros l Hl. apply Hn3. by rewrite Hsk2.
Qed.

Lemma on_tick_rendered n hn hn' hl s sc :
  skeleton_ok n hl (skeleton s) -> s_scene s = Some sc -> length hn = n ->
  (forall l, l ∈ s_nodes s -> hn' !! l = hn !! l) ->
  rendered hn' hl (on_tick hn hl sc).
Proof.
  intros (Hvn & Hvl & Hres & Hsc) Hscene Hlen Hsame. simpl in *.
  rewrite Hscene in Hres, Hsc. simpl in Hsc.
  specialize (Hres (or_intror (mk_is_Some _ _ eq_refl))).
  destruct (Hsc _ eq_refl) as (Hd1 & Hd2 & Hd3 & Hd4).
  rewrite Forall_forall in Hres, Hvn, Hvl.
  simpl in Hd1, Hd2, Hd3, Hd4.
  apply Forall_fmap in Hd1. apply Forall_fmap in Hd2.
  apply Forall_fmap in Hd3. apply Forall_fmap in Hd4.
  assert (Hnode : forall a, a ∈ s_nodes s -> exists na, hn !! a = Some na).
  { intros a Ha. apply lookup_lt_is_Some_2. rewrite Hlen. by apply Hvn. }
  unfold rendered, on_tick. simpl. split_and!; apply Forall_fmap.
  - eapply Forall_impl; [exact Hd1|]. intros ln Hln. simpl in *.
    destruct (Hres _ Hln) as (d & a & b & Hd & Hs & Ht & Ha & Hb).
    destruct (Hnode a Ha) as [na Hna]. destruct (Hnode b Hb) as [nb Hnb].
    exists d, a, b, na, nb. unfold tick_link. rewrite Hd. simpl.
    rewrite Hs, Ht. simpl. rewrite Hna, Hnb, !Hsame by done. done.
  - eapply Forall_impl; [exact Hd2|]. intros t Ht'. simpl in *.
    destruct (Hres _ Ht') as (d & a & b & Hd & Hs & Ht & Ha & Hb).
    destruct (Hnode a Ha) as [na Hna]. destruct (Hnode b Hb) as [nb Hnb].
    exists d, a, b, na, nb. unfold tick_linkLabel. rewrite Hd. simpl.
    rewrite Hs, Ht. simpl. rewrite Hna, Hnb, !Hsame by done. done.
  - eapply Forall_impl; [exact Hd3|]. intros c Hc. simpl in *.
    destruct (Hnode _ Hc) as [d Hd]. exists d.
    unfold tick_node. rewrite Hd. simpl. rewrite Hsame by done. done.
  - eapply Forall_impl; [exact Hd4|]. intros t (Ht & Hdx & Hdy). simpl in *.
    destruct (Hnode _ Ht) as [d Hd]. exists d.
    unfold tick_label. rewrite Hd. simpl. rewrite Hsame by done. done.
Qed.

End Ticks.

Section Initialization.
Context `{JsNum} {physics : D3Physics}.

Lemma init_node_host i n : init_node i (host_node n) = fresh_node i n.
Proof.
  unfold init_node, host_node, fresh_node. simpl.
  by rewrite isNaN_nan.
Qed.

(** The copies, once [d3.forceSimulation] has initialized them. *)
Lemma copies_initialized (h cn : list NodeObj) j :
  for_nodes init_node 0 (seq (length h) (length cn)) (h ++ cn)
    !! (length h + j) = init_node j <$> cn !! j.
Proof.
  destruct (decide (j < length cn)) as [Hj|Hj].
  - rewrite (for_nodes_inside _ 0 _ _ j); [| apply NoDup_seq | by apply lookup_seq_lt].
    rewrite lookup_app_r by lia. simpl. f_equal. f_equal. lia.
  - rewrite for_nodes_outside by (rewrite elem_of_seq; lia).
    rewrite !lookup_ge_None_2; [done | lia | rewrite length_app; lia].
Qed.

Lemma objects_initialized (h cn : list NodeObj) j :
  objects (for_nodes init_node 0 (seq (length h) (length cn)) (h ++ cn))
    (seq (length h) (length cn)) !! j = init_node j <$> cn !! j.
Proof.
  destruct (decide (j < length cn)) as [Hj|Hj].
  - rewrite (objects_lookup _ _ j (length h + j)).
    + apply copies_initialized.
    + apply Forall_forall. intros l Hl. apply elem_of_seq in Hl.
      rewrite for_nodes_length, length_app. lia.
    + by apply lookup_seq_lt.
  - rewrite !lookup_ge_None_2; [done | lia |].
    pose proof (objects_length
      (for_nodes init_node 0 (seq (length h) (length cn)) (h ++ cn))
      (seq (length h) (length cn))) as Hlen.
    rewrite length_seq in Hlen. lia.
Qed.

Lemma ids_initialized (h cn : list NodeObj) :
  ids_of (for_nodes init_node 0 (seq (length h) (length cn)) (h ++ cn))
    (seq (length h) (length cn)) = map (fun o => n_id (o_data o)) cn.
Proof.
  unfold ids_of. apply list_eq. intros j.
  rewrite !list_lookup_fmap, objects_initialized.
  by destruct (cn !! j).
Qed.

Lemma guard_false w :
  data_nodes w <> [] -> svgRef w = true ->
  (length (data_nodes w) =? 0) || negb (svgRef w) = false.
Proof.
  intros Hd ->. destruct (data_nodes w); [done|]. done.
Qed.

(** The simulation an effect run registers is new, and its nodes are the
    initialized copies of the nodes of the snapshot. *)
Lemma run_effect_active w s :
  wf w -> active_sim (run_effect w) = Some s ->
  cleanup (run_effect w) = Some (length (sims w)) /\
  s_center s = Some (ndiv (dimensions w).1 (lit 2),
                     ndiv (dimensions w).2 (lit 2)) /\
  s_ticks s = 0 /\ s_alpha s = lit 1 /\ s_alphaTarget s = lit 0 /\
  s_running s = true /\
  length (s_nodes s) = length (data_nodes w) /\
  forall i l, s_nodes s !! i = Some l ->
    exists l0 n, data_nodes w !! i = Some l0 /\
      heap_nodes w !! l0 = Some (host_node n) /\
      heap_nodes (run_effect w) !! l = Some (fresh_node i n).
Proof.
  intros Hw. unfold active_sim, run_effect.
  destruct (_ || _) eqn:Hguard; [done|].
  set (cn := objects (heap_nodes w) (data_nodes w)).
  set (cl := objects (heap_links w) (data_links w)).
  set (ns := seq (length (heap_nodes w)) (length cn)).
  set (ls := seq (length (heap_links w)) (length cl)).
  set (hn := for_nodes init_node 0 ns (heap_nodes w ++ cn)).
  destruct (init_links _ 0 ls (heap_links w ++ cl)) as [hl [e|]] eqn:Hinit;
    [done|].
  cbn [cleanup sims heap_nodes].
  rewrite list_lookup_middle by done. intros [= <-]. cbn.
  assert (Hvalid : Forall (fun l => l < length (heap_nodes w)) (data_nodes w)).
  { eapply Forall_impl; [apply (wf_data_nodes _ Hw)|]. intros l Hl.
    by apply caller_node_spec in Hl as [? _]. }
  assert (Hlen : length cn = length (data_nodes w)) by (by apply objects_valid).
  split_and!; try done.
  { unfold ns. by rewrite length_seq. }
  intros i l Hl. unfold ns in Hl. apply lookup_seq in Hl as [-> Hi].
  destruct (lookup_lt_is_Some_2 (data_nodes w) i) as [l0 Hl0]; [lia|].
  pose proof (wf_data_nodes _ Hw) as Hd. rewrite Forall_forall in Hd.
  destruct (wf_caller_nodes _ Hw l0) as [n Hn].
  { apply Hd. by eapply list_elem_of_lookup_2. }
  exists l0, n. split_and!; try done.
  unfold hn, ns. rewrite copies_initialized.
  unfold cn. rewrite (objects_lookup _ _ i l0) by done.
  rewrite Hn. simpl. by rewrite init_node_host.
Qed.

(** A snapshot with a dangling link makes the effect run fail while it
    registers the link force. *)
Lemma run_effect_dangling w :
  dangling w -> data_nodes w <> [] -> svgRef w = true ->
  exists i s,
    (i ∉ snapshot_ids w) /\
    status (run_effect w) = Crashed (NodeNotFound i) /\
    cleanup (run_effect w) = None /\ attached (run_effect w) = None /\
    sims (run_effect w) = sims w ++ [s] /\
    s_ticks s = 0 /\ s_center s = None /\ s_scene s = None /\
    s_running s = true.
Proof.
  intros (d & j & Hd & Hj & Hnone) Hne Hsvg. unfold run_effect.
  rewrite guard_false by done.
  set (cn := objects (heap_nodes w) (data_nodes w)).
  set (cl := objects (heap_links w) (data_links w)).
  set (ns := seq (length (heap_nodes w)) (length cn)).
  set (ls := seq (length (heap_links w)) (length cl)).
  set (hn := for_nodes init_node 0 ns (heap_nodes w ++ cn)).
  assert (Hids : ids_of hn ns = snapshot_ids w) by apply ids_initialized.
  fold cl in Hd. apply list_elem_of_lookup in Hd as [p Hp].
  destruct (init_links_missing (nodeById hn ns) 0 ls (heap_links w ++ cl)
              (length (heap_links w) + p) d j) as (j' & Herr & Hj').
  - apply NoDup_seq.
  - apply elem_of_seq. apply lookup_lt_Some in Hp. lia.
  - rewrite lookup_app_r by lia. by replace (_ + p - _) with p by lia.
  - done.
  - apply nodeById_None. by rewrite Hids.
  - destruct (init_links _ 0 ls _) as [hl err]. simpl in Herr. subst err.
    exists j', (forceSimulation ns ls). simpl. split_and!; try done.
    rewrite <- Hids. by apply nodeById_None.
Qed.

(** The timer callback of a simulation without forces and without tick
    listener reads no link. *)
Lemma step_sim_reads_no_link w k s hl :
  sims w !! k = Some s -> s_center s = None -> s_scene s = None ->
  step_sim k (with_links hl w) = with_links hl (step_sim k w).
Proof.
  intros Hk Hc Hsc. unfold step_sim. simpl. rewrite Hk.
  destruct (s_running s); [|done].
  unfold tick. rewrite Hc. simpl. rewrite Hsc. simpl. done.
Qed.

Lemma run_effect_empty w :
  data_nodes w = [] ->
  sims (run_effect w) = sims w /\
  heap_nodes (run_effect w) = heap_nodes w /\
  heap_links (run_effect w) = heap_links w /\
  attached (run_effect w) = attached w /\
  status (run_effect w) = status w /\
  cleanup (run_effect w) = None.
Proof. intros Hd. unfold run_effect. rewrite Hd. simpl. done. Qed.

Lemma frames_idle n w : sims w = [] -> run (replicate n Frame) w = w.
Proof.
  intros Hs. induction n as [|n IH]; simpl; [done|].
  unfold frame. rewrite Hs. simpl. exact IH.
Qed.

End Initialization.

Section Settled.
Context `{JsNum} {physics : D3Physics}.

Lemma nodeById_is_Some hn ns i :
  i ∈ ids_of hn ns -> is_Some (map_get i (nodeById hn ns)).
Proof.
  intros Hi. destruct (map_get i (nodeById hn ns)) eqn:Hg; [by eexists|].
  apply nodeById_None in Hg. done.
Qed.

(** When every identifier is a key, the loop ends without an error. *)
Lemma init_links_ok byId i ls hl :
  NoDup ls ->
  (forall l, l ∈ ls -> exists g, hl !! l = Some (host_link g) /\
     is_Some (map_get (l_source g) byId) /\
     is_Some (map_get (l_target g) byId)) ->
  (init_links byId i ls hl).2 = None.
Proof.
  revert i hl. induction ls as [|l0 ls IH]; intros i hl Hnd Hall; [done|].
  apply NoDup_cons in Hnd as [Hl0 Hnd].
  destruct (Hall l0) as (g0 & Hg0 & [a Ha] & [b Hb]); [left|].
  simpl. rewrite Hg0. simpl. rewrite Ha, Hb. simpl.
  apply IH; [done|]. intros l Hl.
  rewrite list_lookup_insert_ne; [apply Hall; by right|].
  intros ->. done.
Qed.

Lemma run_effect_resolvable_ok w :
  wf w -> resolvable w ->
  let cn := objects (heap_nodes w) (data_nodes w) in
  let cl := objects (heap_links w) (data_links w) in
  let ns := seq (length (heap_nodes w)) (length cn) in
  let ls := seq (length (heap_links w)) (length cl) in
  let hn := for_nodes init_node 0 ns (heap_nodes w ++ cn) in
  (init_links (nodeById hn ns) 0 ls (heap_links w ++ cl)).2 = None.
Proof.
  intros Hw Hres cn cl ns ls hn.
  assert (Hids : ids_of hn ns = snapshot_ids w) by apply ids_initialized.
  apply init_links_ok; [apply NoDup_seq|].
  intros l Hl. apply app_seq_lookup in Hl as (d & Hd & Hin).
  destruct (copies_plain_links w d Hw Hin) as [g ->].
  exists g. split; [done|].
  split; apply nodeById_is_Some; rewrite Hids; eapply Hres; eauto.
Qed.

(** With a snapshot that has nodes and no dangling link, the effect run
    registers a new simulation. *)
Lemma run_effect_starts w :
  wf w -> svgRef w = true -> data_nodes w <> [] -> resolvable w ->
  is_Some (active_sim (run_effect w)) /\ status (run_effect w) = status w.
Proof.
  intros Hw Hsvg Hne Hres.
  pose proof (run_effect_resolvable_ok w Hw Hres) as Hok. simpl in Hok.
  unfold active_sim, run_effect. rewrite guard_false by done.
  destruct (init_links _ 0 _ _) as [hl err]. simpl in Hok. subst err.
  cbn [cleanup sims status]. rewrite list_lookup_middle by done.
  split; [by eexists | done].
Qed.

Lemma objects_ext {A} (h h' : list A) ls :
  (forall l, l ∈ ls -> h' !! l = h !! l) -> objects h' ls = objects h ls.
Proof.
  unfold objects. induction ls as [|l ls IH]; intros Hext; csimpl; [done|].
  rewrite Hext by left. rewrite IH; [done|]. intros l' Hl'. apply Hext. by right.
Qed.

Lemma resolvable_keeps w w' :
  wf w -> keeps_caller w w' ->
  data_nodes w' = data_nodes w -> data_links w' = data_links w ->
  resolvable w -> resolvable w'.
Proof.
  intros Hw [Hkn Hkl] Hdn Hdl Hres d i.
  unfold snapshot_ids, ids_of. rewrite Hdn, Hdl.
  pose proof (wf_data_nodes _ Hw) as Hn. pose proof (wf_data_links _ Hw) as Hl.
  rewrite Forall_forall in Hn, Hl.
  rewrite (objects_ext (heap_nodes w) (heap_nodes w')),
    (objects_ext (heap_links w) (heap_links w')).
  - apply Hres.
  - intros l Hin. by apply Hkl, Hl.
  - intros l Hin. by apply Hkn, Hn.
Qed.

(** An effect run that does not fail has found every endpoint. *)
Lemma run_effect_settled w :
  wf w -> svgRef w = true -> settled (run_effect w).
Proof.
  intros Hw Hsvg Hm.
  pose proof (run_effect_frame w) as (_ & _ & _ & _ & Hdn & Hdl & _ & Hs & _).
  split; [congruence|].
  destruct (decide (data_nodes w = [])) as [Hd|Hd]; [left; congruence|]. right.
  apply (resolvable_keeps w); try done; [apply run_effect_keeps_caller|].
  intros d i Hin Hend.
  destruct (decide (i ∈ snapshot_ids w)) as [|Hnin]; [done|]. exfalso.
  destruct (run_effect_dangling w) as (j & s & _ & Hst & _); try done.
  { by exists d, i. }
  unfold is_mounted in Hm. by rewrite Hst in Hm.
Qed.

Lemma step_quiet e w :
  match e with
  | Frame | DragStart _ _ _ | Drag _ _ _ | DragEnd _ _ _ => True
  | _ => False
  end ->
  status (step e w) = status w /\ svgRef (step e w) = svgRef w /\
  data_nodes (step e w) = data_nodes w /\ data_links (step e w) = data_links w.
Proof.
  destruct e as [wd ht|ns ls dn dl| | |k i ev|k i ev|k i ev]; try done; intros _.
  - simpl. unfold frame. generalize (seq 0 (length (sims w))). intros ks.
    revert w. induction ks as [|k ks IH]; intros w; simpl; [done|].
    destruct (IH (step_sim k w)) as (-> & -> & -> & ->).
    pose proof (step_sim_spec k w) as Hs. simpl in Hs.
    destruct Hs as (_ & _ & _ & _ & ? & ? & ? & _ & _ & _ & ? & _). done.
  - simpl. destruct (decide _); [|done]. unfold dispatch_drag.
    destruct (sims w !! k) as [s|]; [|done].
    destruct (s_scene s) as [sc|]; [|done].
    destruct (sc_node sc !! i) as [c|]; [|done].
    by destruct (heap_nodes w !! c_datum c).
  - simpl. unfold dispatch_drag.
    destruct (sims w !! k) as [s|]; [|done].
    destruct (s_scene s) as [sc|]; [|done].
    destruct (sc_node sc !! i) as [c|]; [|done].
    by destruct (heap_nodes w !! c_datum c).
  - simpl. unfold dispatch_drag.
    destruct (sims w !! k) as [s|]; [|done].
    destruct (s_scene s) as [sc|]; [|done].
    destruct (sc_node sc !! i) as [c|]; [|done].
    by destruct (heap_nodes w !! c_datum c).
Qed.

Lemma settled_quiet e w :
  match e with
  | Frame | DragStart _ _ _ | Drag _ _ _ | DragEnd _ _ _ => True
  | _ => False
  end ->
  wf w -> settled w -> settled (step e w).
Proof.
  intros He Hw Hset Hm.
  destruct (step_quiet e w He) as (Hst & Hsvg & Hdn & Hdl).
  destruct Hset as [Hs Hd]. { unfold is_mounted in *. by rewrite <- Hst. }
  split; [congruence|]. destruct Hd as [Hd|Hd]; [left; congruence|]. right.
  apply (resolvable_keeps w); try done.
  apply step_keeps_caller; [done|]. by destruct e.
Qed.

Lemma step_settled e w :
  wf w -> valid_event w e = true -> settled w -> settled (step e w).
Proof.
  intros Hw Hv Hset.
  destruct e as [wd ht|ns ls dn dl| | |k i ev|k i ev|k i ev];
    try (by apply settled_quiet).
  - simpl. destruct (is_mounted w) eqn:Hm; [|done].
    destruct (Hset Hm) as [Hsvg _].
    apply run_effect_settled.
    + apply run_cleanup_wf. eapply wf_static; try done.
    + unfold run_cleanup. simpl. by destruct (cleanup w).
  - simpl. destruct (is_mounted w) eqn:Hm; [|done].
    destruct (Hset Hm) as [Hsvg _].
    apply run_effect_settled.
    + apply run_cleanup_wf. by apply set_data_wf.
    + unfold run_cleanup. simpl. by destruct (cleanup w).
  - simpl. destruct (is_mounted w) eqn:Hm; [|done]. intros Hm'. done.
Qed.

Lemma reachable_settled w : reachable w -> settled w.
Proof.
  induction 1 as [ns ls|w e Hr IH Hv].
  - apply run_effect_settled; [|done].
    pose proof (mount_wf ns ls) as Hw. clear Hw.
    split; simpl.
    + constructor.
    + intros i j a b l Ha. done.
    + apply Forall_forall. intros l Hl. apply elem_of_seq in Hl.
      apply caller_node_spec. simpl. rewrite length_map. split; [lia|done].
    + apply Forall_forall. intros l Hl. apply elem_of_seq in Hl.
      apply caller_link_spec. simpl. rewrite length_map. split; [lia|done].
    + intros l Hl. apply caller_node_spec in Hl as [Hlt _]. simpl in Hlt.
      rewrite length_map in Hlt.
      destruct (lookup_host_nodes [] ns l) as [n Hn]; simpl; [lia | lia | eauto].
    + intros l Hl. apply caller_link_spec in Hl as [Hlt _]. simpl in Hlt.
      rewrite length_map in Hlt.
      destruct (lookup_host_links [] ls l) as [g Hg]; simpl; [lia | lia | eauto].
  - apply step_settled; [by apply reachable_wf | done | done].
Qed.

End Settled.

Section ForGood.
Context `{JsNum} {physics : D3Physics}.

Lemma run_effect_attached w :
  attached (run_effect w) = attached w \/
  attached (run_effect w) = None \/
  attached (run_effect w) = Some (length (sims w)).
Proof.
  unfold run_effect. destruct (_ || _); [by left|].
  destruct (init_links _ _ _ _) as [hl [e|]]; simpl; auto.
Qed.

Lemma frame_attached w : attached (frame w) = attached w.
Proof.
  unfold frame. generalize (seq 0 (length (sims w))). intros ks.
  revert w. induction ks as [|k ks IH]; intros w; simpl; [done|].
  rewrite IH. pose proof (step_sim_spec k w) as Hs. simpl in Hs.
  by destruct Hs as (_ & _ & _ & _ & _ & _ & _ & _ & ? & _).
Qed.

(** What a drag event changes: the simulation and one of its nodes, and
    of this node only what the handler changes. *)
Lemma dispatch_drag_spec handler k i ev w :
  wf w ->
  let w' := dispatch_drag handler k i ev w in
  attached w' = attached w /\
  (forall j, j <> k -> sims w' !! j = sims w !! j) /\
  (forall s, sims w !! k = Some s ->
     (sims w' !! k = Some s /\ heap_nodes w' = heap_nodes w) \/
     exists l d, l ∈ s_nodes s /\ heap_nodes w !! l = Some d /\
       sims w' !! k = Some (handler ev s d).1 /\
       heap_nodes w' = <[l := (handler ev s d).2]> (heap_nodes w)).
Proof.
  intros Hw. unfold dispatch_drag.
  destruct (sims w !! k) as [s|] eqn:Hk; [|by split_and!].
  destruct (s_scene s) as [sc|] eqn:Hsc;
    [|split_and!; try done; intros ? [= <-]; by left].
  destruct (sc_node sc !! i) as [c|] eqn:Hc;
    [|split_and!; try done; intros ? [= <-]; by left].
  destruct (heap_nodes w !! c_datum c) as [d|] eqn:Hd;
    [|split_and!; try done; intros ? [= <-]; by left].
  simpl. split_and!; [done | |].
  - intros j Hj. by apply list_lookup_insert_ne.
  - intros ? [= <-]. right. exists (c_datum c), d. split_and!; try done.
    + by eapply circle_datum_owned.
    + apply list_lookup_insert_eq. by eapply lookup_lt_Some.
Qed.

Lemma torn_down_drag handler k' i ev k s0 w0 w :
  wf w -> torn_down k s0 w0 w ->
  (k' = k -> forall ev s d,
     s_running (handler ev s d).1 = s_running s /\
     s_ticks (handler ev s d).1 = s_ticks s /\
     s_nodes (handler ev s d).1 = s_nodes s /\
     kin_of (handler ev s d).2 = kin_of d) ->
  torn_down k s0 w0 (dispatch_drag handler k' i ev w).
Proof.
  intros Hw (Hatt & s & Hk & Hrun & Hticks & Hns & Hkin) Hh.
  destruct (dispatch_drag_spec handler k' i ev w Hw) as (Ha & Hoth & Hsame).
  split; [by rewrite Ha|].
  destruct (decide (k' = k)) as [->|Hne].
  - destruct (Hsame s Hk) as [[Hk' Hheap]|(l & d & Hl & Hd & Hk' & Hheap)].
    + exists s. rewrite Hheap. done.
    + destruct (Hh eq_refl ev s d) as (Hr' & Ht' & Hn' & Hkin').
      exists (handler ev s d).1. split_and!; try congruence.
      intros l' Hl'. rewrite Hheap, <- Hkin by done.
      destruct (decide (l' = l)) as [->|Hll].
      * rewrite list_lookup_insert_eq by (by eapply lookup_lt_Some).
        rewrite Hd. simpl. by rewrite Hkin'.
      * by rewrite list_lookup_insert_ne.
  - exists s. split_and!; try done; [by rewrite Hoth|].
    intros l Hl. rewrite <- Hkin by done. f_equal.
    destruct (sims w !! k') as [s'|] eqn:Hk'.
    + destruct (Hsame s' eq_refl) as [[_ ->]|(l' & d & Hl' & Hd & _ & ->)]; [done|].
      apply list_lookup_insert_ne. intros ->.
      rewrite <- Hns in Hl. by apply (wf_separated w k' k s' s l).
    + unfold dispatch_drag. by rewrite Hk'.
Qed.

Lemma torn_down_effect k s0 w0 w :
  wf w -> torn_down k s0 w0 w -> torn_down k s0 w0 (run_effect w).
Proof.
  intros Hw (Hatt & s & Hk & Hrun & Hticks & Hns & Hkin). split.
  - destruct (run_effect_attached w) as [->|[->| ->]]; [done | done |].
    intros [= Heq]. apply lookup_lt_Some in Hk. lia.
  - exists s. split_and!; try done; [by apply run_effect_old_sim|].
    intros l Hl. rewrite <- Hkin by done. f_equal.
    pose proof (run_effect_frame w) as (Hfn & _). apply Hfn.
    eapply sim_nodes_valid; [done | exact Hk | by rewrite Hns].
Qed.

Lemma torn_down_cleanup k s0 w0 w :
  torn_down k s0 w0 w -> torn_down k s0 w0 (run_cleanup w).
Proof.
  intros (Hatt & s & Hk & Hrun & Hticks & Hns & Hkin). unfold run_cleanup.
  destruct (cleanup w) as [k'|] eqn:Hc; [|by split; [|exists s]].
  split; [done|]. simpl. destruct (decide (k' = k)) as [->|Hne].
  - exists (stop s). by rewrite list_lookup_alter_eq, Hk.
  - exists s. by rewrite list_lookup_alter_ne.
Qed.

Lemma torn_down_step e k s0 w0 w :
  wf w -> valid_event w e = true ->
  torn_down k s0 w0 w -> torn_down k s0 w0 (step e w).
Proof.
  intros Hw Hv Ht.
  destruct e as [wd ht|ns ls dn dl| | |k' i ev|k' i ev|k' i ev]; simpl.
  - destruct (is_mounted w); [|done].
    apply torn_down_effect.
    { apply run_cleanup_wf. eapply wf_static; try done. }
    by apply torn_down_cleanup.
  - destruct (is_mounted w); [|done].
    apply torn_down_effect.
    { apply run_cleanup_wf. by apply set_data_wf. }
    apply torn_down_cleanup.
    destruct Ht as (Hatt & s & Hk & Hrun & Hticks & Hns & Hkin).
    split; [done|]. exists s. split_and!; try done.
    intros l Hl. simpl. rewrite <- Hkin by done. f_equal.
    apply lookup_app_l.
    eapply sim_nodes_valid; [done | exact Hk | by rewrite Hns].
  - destruct (is_mounted w); [|done].
    destruct (torn_down_cleanup k s0 w0 w Ht)
      as (_ & s & Hk & Hrun & Hticks & Hns & Hkin).
    split; [done|]. by exists s.
  - destruct Ht as (Hatt & s & Hk & Hrun & Hticks & Hns & Hkin).
    destruct (frame_stopped w k s Hw Hk Hrun) as [Hk' Hfr].
    split; [by rewrite frame_attached|]. exists s. split_and!; try done.
    intros l Hl. rewrite <- Hkin by done. f_equal. apply Hfr. by rewrite Hns.
  - destruct (decide (attached w = Some k')) as [Ha|Ha]; [|done].
    apply torn_down_drag; [done | done |].
    intros ->. by destruct Ht as [? _].
  - by apply torn_down_drag.
  - apply torn_down_drag; [done | done |]. intros _ ev' s d. simpl.
    by destruct (ev_active ev' =? 0).
Qed.

Lemma torn_down_run es k s0 w0 w :
  wf w -> valid_run es w = true ->
  torn_down k s0 w0 w -> torn_down k s0 w0 (run es w).
Proof.
  revert w. induction es as [|e es IH]; intros w Hw Hv Ht; simpl; [done|].
  simpl in Hv. apply andb_true_iff in Hv as [Hv Hvs].
  apply IH; [by apply step_wf | done | by apply torn_down_step].
Qed.

End ForGood.

Section EngineProperties.
Context `{JsNum} {physics : D3Physics}.

(** C7: the engine works on copies.  From any state the component can be
    in, and through any events, every object of the caller, in particular
    every node and every link of the snapshot, keeps all its fields. *)
Theorem caller_objects_never_mutated w es :
  reachable w -> valid_run es w = true ->
  Forall (fun l => caller_node w l = true) (data_nodes w) /\
  Forall (fun l => caller_link w l = true) (data_links w) /\
  (forall l, caller_node w l = true ->
     heap_nodes (run es w) !! l = heap_nodes w !! l) /\
  (forall l, caller_link w l = true ->
     heap_links (run es w) !! l = heap_links w !! l).
Proof.
  intros Hr Hv. pose proof (reachable_wf w Hr) as Hw.
  destruct (run_keeps_caller es w Hw Hv) as [[Hn Hl] _].
  split_and!.
  - apply (wf_data_nodes _ Hw).
  - apply (wf_data_links _ Hw).
  - intros l Hc. by apply Hn.
  - intros l Hc. by apply Hl.
Qed.

(** C8, as the code does it: the cleanup stops the simulation of the
    effect run that registered it.  After the cleanup has run (on unmount,
    on a new snapshot, and also on a resize), any number of animation
    frames fire no tick of the simulation it stopped and change none of its
    nodes.  If its primitives are then out of the document, this holds
    through all events: the simulation stays stopped, never ticks, and the
    positions and velocities of its nodes stay as they were.  An unmount
    while no cleanup is registered stops no simulation. *)
Theorem teardown_stops_work w e k s n :
  reachable w -> valid_event w e = true -> is_teardown e = true ->
  is_mounted w = true -> cleanup w = Some k -> sims w !! k = Some s ->
  (exists s', sims (run (replicate n Frame) (step e w)) !! k = Some s' /\
     s_running s' = false /\ s_ticks s' = s_ticks s /\
     forall l, l ∈ s_nodes s ->
       heap_nodes (run (replicate n Frame) (step e w)) !! l
         = heap_nodes w !! l) /\
  (attached (step e w) <> Some k ->
   forall es, valid_run es (step e w) = true ->
     torn_down k s w (run es (step e w))) /\
  (forall w0, is_mounted w0 = true -> cleanup w0 = None ->
     sims (step Unmount w0) = sims w0 /\
     heap_nodes (step Unmount w0) = heap_nodes w0).
Proof.
  intros Hr Hv He Hm Hc Hk. pose proof (reachable_wf w Hr) as Hw.
  destruct (teardown_stops w e k s Hw He Hm Hc Hk) as [Hk1 Hfr1].
  split_and!.
  - destruct (frames_stopped n (step e w) k (stop s)) as (_ & Hk2 & Hfr2);
      [by apply step_wf | done | done |].
    exists (stop s). split_and!; try done.
    intros l Hl. rewrite Hfr2 by done. by apply Hfr1.
  - intros Hatt es Hes. apply torn_down_run; [by apply step_wf | done |].
    split; [done|]. exists (stop s). split_and!; try done.
    intros l Hl. by rewrite Hfr1.
  - intros w0 Hm0 Hc0. unfold step. rewrite Hm0. unfold run_cleanup.
    by rewrite Hc0.
Qed.

(** C4: on every tick of a running simulation the listener sets each line
    to the current positions of the node objects its link refers to, each
    link label to their midpoint, each circle and each node label to the
    position of its node, the label keeping its offset [dx = 12],
    [dy = .35em]. *)
Theorem tick_repositions_primitives w k s sc :
  reachable w -> sims w !! k = Some s -> s_running s = true ->
  s_scene s = Some sc ->
  let w' := step Frame w in
  exists s' sc', sims w' !! k = Some s' /\ s_ticks s' = S (s_ticks s) /\
    s_scene s' = Some sc' /\
    scene_data sc' = scene_data sc /\
    rendered (heap_nodes w') (heap_links w') sc'.
Proof.
  intros Hr Hk Hrun Hsc w'. pose proof (reachable_wf w Hr) as Hw.
  destruct (frame_at w k s Hw Hk) as (w1 & Hw1 & Hk1 & Hl1 & Hn1 & Hk' & Hl' & Hn').
  destruct (step_sim_running k w1 s Hk1 Hrun)
    as (s' & Hs' & Hhn & Hhl & Hns & _ & Hscene & Hticks & _).
  simpl in Hscene. rewrite Hsc in Hscene. simpl in Hscene.
  exists s', (on_tick (tick s (heap_nodes w1) (heap_links w1)).2 (heap_links w1) sc).
  unfold w'. simpl. split_and!; try done.
  - congruence.
  - apply scene_data_on_tick.
  - rewrite Hl', <- Hl1.
    eapply on_tick_rendered; [by apply (wf_sim_ok w1 k) | done | apply tick_length |].
    intros l Hl. rewrite Hn' by done. by rewrite Hhn.
Qed.

(** Pin fidelity: a tick leaves a pinned node of a running simulation
    exactly at its pin, still pinned. *)
Lemma pinned_node_held w k s l d px py :
  reachable w -> sims w !! k = Some s -> s_running s = true ->
  l ∈ s_nodes s -> heap_nodes w !! l = Some d -> pinned_at px py d ->
  exists d', heap_nodes (step Frame w) !! l = Some d' /\ held_at px py d'.
Proof.
  intros Hr Hk Hrun Hl Hd Hp. pose proof (reachable_wf w Hr) as Hw.
  destruct (frame_at w k s Hw Hk) as (w1 & Hw1 & Hk1 & Hl1 & Hn1 & Hk' & Hl' & Hn').
  destruct (step_sim_running k w1 s Hk1 Hrun) as (s' & _ & Hhn & _).
  destruct (tick_pinned s (heap_nodes w1) (heap_links w1) l d px py)
    as (d' & Hd' & Hheld); try done.
  { by rewrite Hn1. }
  exists d'. split; [|done]. simpl. rewrite Hn' by done. by rewrite Hhn.
Qed.

(** C5, as the code has it: pointer-down pins the node at its current
    position and, when no other gesture is active, sets the alpha target to
    0.3 and restarts the timer; pointer-move sets the pin to the position
    of the event; pointer-up clears the pin and, when no other gesture is
    active, sets the alpha target to 0; with another gesture active the
    simulation is left as it is.  While a node is pinned, every tick puts
    it exactly at its pin. *)
Theorem drag_pins_node :
  (forall ev s d,
     let r := dragstarted ev s d in
     pinned_at (o_x d) (o_y d) r.2 /\ kin_of r.2 = kin_of d /\
     (ev_active ev = 0 ->
        s_alphaTarget r.1 = lit 0.3 /\ s_running r.1 = true) /\
     (ev_active ev <> 0 -> r.1 = s)) /\
  (forall ev s d,
     let r := dragged ev s d in
     pinned_at (ev_x ev) (ev_y ev) r.2 /\ kin_of r.2 = kin_of d /\ r.1 = s) /\
  (forall ev s d,
     let r := dragended ev s d in
     o_fx r.2 = None /\ o_fy r.2 = None /\ kin_of r.2 = kin_of d /\
     (ev_active ev = 0 -> s_alphaTarget r.1 = lit 0) /\
     (ev_active ev <> 0 -> r.1 = s)) /\
  (forall w k s l d px py,
     reachable w -> sims w !! k = Some s -> s_running s = true ->
     l ∈ s_nodes s -> heap_nodes w !! l = Some d -> pinned_at px py d ->
     exists d', heap_nodes (step Frame w) !! l = Some d' /\ held_at px py d').
Proof.
  split_and!.
  - intros ev s d. simpl. split_and!; try done.
    + intros ->. done.
    + intros Hne. apply Nat.eqb_neq in Hne. by rewrite Hne.
  - intros ev s d. done.
  - intros ev s d. simpl. split_and!; try done.
    + intros ->. done.
    + intros Hne. apply Nat.eqb_neq in Hne. by rewrite Hne.
  - apply pinned_node_held.
Qed.

End EngineProperties.

Section SetupProperties.
Context `{JsNum} {physics : D3Physics}.

(** C1, as the code does it: a resize runs the cleanup and the effect
    again.  The previous simulation is stopped; the simulation that is
    current afterwards is a new one, centered on the middle of the new
    viewport, and each of its nodes is a new copy of the caller's node, at
    its initial place and at rest: what the previous simulation had
    accumulated is not carried over. *)
Theorem resize_reinitializes w wd ht :
  reachable w -> is_mounted w = true -> data_nodes w <> [] ->
  let w' := step (Resize wd ht) w in
  (forall k s0, cleanup w = Some k -> sims w !! k = Some s0 ->
     sims w' !! k = Some (stop s0)) /\
  exists s, active_sim w' = Some s /\
    cleanup w' = Some (length (sims w)) /\
    is_mounted w' = true /\
    s_center s = Some (ndiv wd (lit 2), ndiv ht (lit 2)) /\
    s_ticks s = 0 /\ s_alpha s = lit 1 /\
    length (s_nodes s) = length (data_nodes w) /\
    forall i l, s_nodes s !! i = Some l ->
      exists l0 n, data_nodes w !! i = Some l0 /\
        heap_nodes w !! l0 = Some (host_node n) /\
        heap_nodes w' !! l = Some (fresh_node i n).
Proof.
  intros Hr Hm Hne w'. pose proof (reachable_wf w Hr) as Hw.
  split.
  { intros k s0 Hc Hk.
    by destruct (teardown_stops w (Resize wd ht) k s0 Hw eq_refl Hm Hc Hk). }
  destruct (reachable_settled w Hr Hm) as [Hsvg [Hd|Hres]]; [done|].
  unfold w' in *. simpl in *. rewrite Hm in *.
  set (w0 := mkWorld _ _ _ _ _ _ _ _ _ _) in *.
  assert (Hw0 : wf w0) by (eapply wf_static; try done).
  assert (Hw1 : wf (run_cleanup w0)) by (by apply run_cleanup_wf).
  assert (Hsame : heap_nodes (run_cleanup w0) = heap_nodes w /\
                  heap_links (run_cleanup w0) = heap_links w /\
                  data_nodes (run_cleanup w0) = data_nodes w /\
                  data_links (run_cleanup w0) = data_links w /\
                  dimensions (run_cleanup w0) = (wd, ht) /\
                  svgRef (run_cleanup w0) = svgRef w /\
                  status (run_cleanup w0) = status w /\
                  length (sims (run_cleanup w0)) = length (sims w)).
  { unfold run_cleanup. destruct (cleanup w0); simpl; try done.
    by rewrite length_alter. }
  destruct Hsame as (Hh & Hhl & Hd & Hdl & Hdim & Hsv & Hst & Hlen).
  assert (Hres1 : resolvable (run_cleanup w0)).
  { unfold resolvable, snapshot_ids. rewrite Hh, Hhl, Hd, Hdl. exact Hres. }
  destruct (run_effect_starts (run_cleanup w0)) as [[s Hs] Hstat]; try done.
  { congruence. } { congruence. }
  exists s. split; [exact Hs|].
  destruct (run_effect_active _ s Hw1 Hs)
    as (Hc & Hcen & Ht & Hal & _ & _ & Hn & Hnodes).
  rewrite Hdim in Hcen. rewrite Hd in Hn, Hnodes. rewrite Hh in Hnodes.
  rewrite Hlen in Hc. split_and!; try done.
  unfold is_mounted in *. by rewrite Hstat, Hst.
Qed.

(** C2, as the code does it: a snapshot with a link whose source or
    target is the id of none of its nodes makes the effect run fail with
    d3's "node not found" error for such an id while it registers the link
    force: no force and no tick listener is registered, nothing is drawn,
    no cleanup is registered and no simulation is made current.  The
    failure comes after [d3.forceSimulation] has started the timer of the
    new simulation, and nothing stops this timer: the component, which the
    error took down, ignores a new snapshot, a resize and an unmount, and
    the next animation frame ticks the simulation.  Its ticks read no link:
    in every state of the component, a simulation that has forces or a
    tick listener has all its links resolved to node objects of its own,
    and the timer callback of a simulation that has neither reads no link
    at all. *)
Theorem dangling_link_fails_setup :
  (forall w, dangling w -> data_nodes w <> [] -> svgRef w = true ->
     exists i s,
       (i ∉ snapshot_ids w) /\
       status (run_effect w) = Crashed (NodeNotFound i) /\
       cleanup (run_effect w) = None /\ attached (run_effect w) = None /\
       sims (run_effect w) = sims w ++ [s] /\
       s_ticks s = 0 /\ s_center s = None /\ s_scene s = None /\
       s_running s = true) /\
  (forall w, wf w -> dangling w -> data_nodes w <> [] -> svgRef w = true ->
     (forall e, is_teardown e = true -> step e (run_effect w) = run_effect w) /\
     exists s', sims (step Frame (run_effect w)) !! length (sims w) = Some s' /\
       s_ticks s' = 1) /\
  (forall w k s, reachable w -> sims w !! k = Some s ->
     is_Some (s_center s) \/ is_Some (s_scene s) ->
     Forall (resolved_in (heap_links w) (s_nodes s)) (s_links s) /\
     Forall (fun l => l < length (heap_nodes w)) (s_nodes s)) /\
  (forall w k s hl, sims w !! k = Some s ->
     s_center s = None -> s_scene s = None ->
     step_sim k (with_links hl w) = with_links hl (step_sim k w)).
Proof.
  split_and!; [apply run_effect_dangling | | | apply step_sim_reads_no_link].
  - intros w Hw Hd Hne Hsvg.
    destruct (run_effect_dangling w Hd Hne Hsvg)
      as (i & s & _ & Hst & _ & _ & Hsims & Ht & _ & _ & Hrun).
    split.
    + intros e He. unfold step, is_mounted. rewrite Hst.
      by destruct e.
    + pose proof (run_effect_wf w Hw) as Hw'.
      assert (Hk : sims (run_effect w) !! length (sims w) = Some s).
      { rewrite Hsims. by apply list_lookup_middle. }
      destruct (frame_at _ _ s Hw' Hk) as (w1 & _ & Hk1 & _ & _ & Hk' & _).
      destruct (step_sim_running _ w1 s Hk1 Hrun)
        as (s' & Hs' & _ & _ & _ & _ & _ & Hticks & _).
      exists s'. split; [|by rewrite Hticks, Ht].
      change (step Frame (run_effect w)) with (frame (run_effect w)).
      by rewrite Hk'.
  - intros w k s Hr Hk Hlive. pose proof (reachable_wf w Hr) as Hw.
    destruct (wf_sim_ok w k s Hw Hk) as (Hn & _ & Hres & _). simpl in *.
    split; [|done]. apply Hres.
    destruct Hlive as [[c Hc]|[sc Hsc]].
    + left. by rewrite Hc.
    + right. rewrite Hsc. by eexists.
Qed.

End SetupProperties.

(** ** More on the merge *)

Section MergeInvariants.
Context `{JsNum}.

Lemma map_has_prefix {V} k (m m' : list (string * V)) :
  m `prefix_of` m' -> map_has k m = true -> map_has k m' = true.
Proof.
  intros [tl ->] Hk. apply map_has_elem. apply map_has_elem in Hk.
  rewrite fmap_app. apply elem_of_app. by left.
Qed.

Lemma add_node_has m n : map_has (ci_key n) (add_node m n) = true.
Proof.
  unfold add_node, ci_key.
  destruct (map_has (toLowerCase (n_id n)) m) eqn:Hm; [done|].
  rewrite map_set_fresh by done. apply map_has_elem.
  rewrite fmap_app. apply elem_of_app. right. simpl. apply list_elem_of_singleton.
  done.
Qed.

Lemma foldl_add_node_has ns m n :
  n ∈ ns -> map_has (ci_key n) (foldl add_node m ns) = true.
Proof.
  revert m. induction ns as [|a ns IH]; intros m Hin; simpl.
  { by apply elem_of_nil in Hin. }
  apply elem_of_cons in Hin as [->|Hin]; [|by apply IH].
  eapply map_has_prefix; [apply foldl_add_node_prefix | apply add_node_has].
Qed.

Lemma foldl_add_node_fixed ns m :
  (forall n, n ∈ ns -> map_has (ci_key n) m = true) ->
  foldl add_node m ns = m.
Proof.
  induction ns as [|a ns IH]; intros Hall; simpl; [done|].
  assert (Ha : add_node m a = m).
  { unfold add_node. fold (ci_key a). rewrite Hall; [done | by left]. }
  rewrite Ha. apply IH. intros n Hn. apply Hall. by right.
Qed.

Lemma keyed_entries m :
  keyed m -> map (fun n => (toLowerCase (n_id n), n)) (map_values m) = m.
Proof.
  intros [_ Hk]. unfold map_values.
  induction m as [|[k v] m IH]; [done|].
  apply Forall_cons in Hk as [Hkv Hk]. simpl in Hkv. cbn.
  f_equal; [by rewrite Hkv | by apply IH].
Qed.

Lemma merged_nodeMap_again prev newNodes newLinks :
  merged_nodeMap (updateGraph prev newNodes newLinks) newNodes
  = merged_nodeMap prev newNodes.
Proof.
  unfold merged_nodeMap at 1. unfold updateGraph. cbn [nodes].
  pose proof (merged_nodeMap_keyed prev newNodes) as Hk.
  rewrite keyed_entries by done.
  rewrite map_of_entries_NoDup by apply Hk.
  apply foldl_add_node_fixed. intros n Hn. by apply foldl_add_node_has.
Qed.

(** What [foldl add_node] appends. *)
Lemma foldl_add_node_added ns m :
  exists added,
    foldl add_node m ns = m ++ added /\
    forall e, e ∈ added ->
      exists n, n ∈ ns /\ e = (ci_key n, with_val5 n) /\
                map_has (ci_key n) m = false.
Proof.
  revert m. induction ns as [|a ns IH]; intros m; simpl.
  { exists []. split; [by rewrite app_nil_r|]. intros e He.
    by apply elem_of_nil in He. }
  unfold add_node at 2. fold (ci_key a).
  destruct (map_has (ci_key a) m) eqn:Hm.
  - destruct (IH m) as (added & Heq & Hadd). exists added. split; [done|].
    intros e He. destruct (Hadd e He) as (n & Hn & -> & Hf).
    exists n. split_and!; [by right | done | done].
  - rewrite map_set_fresh by done.
    destruct (IH (m ++ [(ci_key a, with_val5 a)])) as (added & Heq & Hadd).
    exists ((ci_key a, with_val5 a) :: added). split.
    { rewrite Heq. by rewrite <- app_assoc. }
    intros e He. apply elem_of_cons in He as [->|He].
    { exists a. split_and!; [by left | done | done]. }
    destruct (Hadd e He) as (n & Hn & -> & Hf).
    exists n. split_and!; [by right | done |].
    apply map_has_false. apply map_has_false in Hf.
    rewrite fmap_app in Hf. intros Hin. apply Hf, elem_of_app. by left.
Qed.

Lemma add_link_keys_exact m st l : keys_exact st -> keys_exact (add_link m st l).
Proof.
  unfold keys_exact, add_link. intros Hst.
  destruct (decide _); [done|]. destruct (_ && _); [|done]. simpl.
  rewrite map_app, list_to_set_app_L, <- Hst. simpl.
  rewrite (right_id_L ∅ (∪)). apply (comm_L (∪)).
Qed.

Lemma foldl_add_link_keys_exact m ls st :
  keys_exact st -> keys_exact (foldl (add_link m) st ls).
Proof.
  revert st. induction ls as [|l ls IH]; intros st Hst; simpl; [done|].
  by apply IH, add_link_keys_exact.
Qed.

Lemma add_link_mono m st l : st.2 ⊆ (add_link m st l).2.
Proof.
  unfold add_link. destruct (decide _); [done|]. destruct (_ && _); [|done].
  simpl. set_solver.
Qed.

Lemma foldl_add_link_mono m ls st : st.2 ⊆ (foldl (add_link m) st ls).2.
Proof.
  revert st. induction ls as [|l ls IH]; intros st; simpl; [done|].
  etrans; [apply add_link_mono | apply IH].
Qed.

Lemma add_link_ignored m st l : ignored m (add_link m st l).2 l.
Proof.
  unfold ignored, add_link. destruct (decide _); [by left|].
  destruct (_ && _) eqn:Hb; [|by right]. left. simpl. set_solver.
Qed.

Lemma foldl_add_link_ignored m ls st l :
  l ∈ ls -> ignored m (foldl (add_link m) st ls).2 l.
Proof.
  revert st. induction ls as [|a ls IH]; intros st Hin; simpl.
  { by apply elem_of_nil in Hin. }
  apply elem_of_cons in Hin as [->|Hin]; [|by apply IH].
  destruct (add_link_ignored m st a) as [Hk|Hb]; [left|by right].
  by apply (foldl_add_link_mono m ls).
Qed.

Lemma foldl_add_link_fixed m ls st :
  (forall l, l ∈ ls -> ignored m st.2 l) -> foldl (add_link m) st ls = st.
Proof.
  induction ls as [|a ls IH]; intros Hall; simpl; [done|].
  assert (Ha : add_link m st a = st).
  { unfold add_link. destruct (Hall a) as [Hk|Hb]; [by left | |].
    - by rewrite decide_True.
    - destruct (decide _); [done|]. by rewrite Hb. }
  rewrite Ha. apply IH. intros l Hl. apply Hall. by right.
Qed.

Lemma links_keys_exact (ls : list GraphLink) :
  keys_exact (ls, list_to_set (map link_key ls)).
Proof. done. Qed.

Lemma foldl_add_node_length ns m :
  length (foldl add_node m ns) <= length m + length ns.
Proof.
  revert m. induction ns as [|a ns IH]; intros m; simpl; [lia|].
  etrans; [apply IH|]. unfold add_node.
  destruct (map_has _ m) eqn:Hm; [lia|].
  rewrite map_set_fresh by done. rewrite length_app. simpl. lia.
Qed.

Lemma foldl_add_link_length m ls st :
  length (foldl (add_link m) st ls).1 <= length st.1 + length ls.
Proof.
  revert st. induction ls as [|a ls IH]; intros st; simpl; [lia|].
  etrans; [apply IH|]. unfold add_link.
  destruct (decide _); [lia|]. destruct (_ && _); [|lia].
  simpl. rewrite length_app. simpl. lia.
Qed.

Lemma foldl_add_node_with_val5 ns m :
  foldl add_node m (map with_val5 ns) = foldl add_node m ns.
Proof.
  revert m. induction ns as [|a ns IH]; intros m; simpl; [done|].
  by rewrite IH.
Qed.

(** X1: whatever the previous graph and the proposal, the nodes of the
    merged graph have pairwise distinct identifiers, ignoring case. *)
Theorem updateGraph_ids_distinct_ignoring_case prev newNodes newLinks :
  NoDup (map (fun n => toLowerCase (n_id n))
           (nodes (updateGraph prev newNodes newLinks))).
Proof. apply (updateGraph_distinct_ids prev newNodes newLinks). Qed.

(** X2: merging the same proposal a second time changes nothing. *)
Theorem updateGraph_idempotent prev newNodes newLinks :
  updateGraph (updateGraph prev newNodes newLinks) newNodes newLinks
  = updateGraph prev newNodes newLinks.
Proof.
  unfold updateGraph at 1. rewrite merged_nodeMap_again.
  unfold updateGraph. cbn [nodes links]. f_equal.
  set (m := merged_nodeMap prev newNodes).
  set (st := foldl (add_link m)
               (links prev, list_to_set (map link_key (links prev))) newLinks).
  assert (Hst : keys_exact st)
    by apply foldl_add_link_keys_exact, links_keys_exact.
  unfold keys_exact in Hst. rewrite <- Hst.
  replace (st.1, st.2) with st by by destruct st.
  rewrite foldl_add_link_fixed; [done|].
  intros l Hl. by apply foldl_add_link_ignored.
Qed.

(** X3: the nodes a merge adds.  The nodes of the result are those of the
    previous graph state followed by new ones; each new one is a proposed
    node with [val] set to 5 whose identifier is, ignoring case, that of no
    previous node; and every proposed identifier is, ignoring case, the
    identifier of a node of the result. *)
Theorem updateGraph_appends_fresh_nodes prev newNodes newLinks :
  graph_state prev ->
  let g := updateGraph prev newNodes newLinks in
  exists added,
    nodes g = nodes prev ++ added /\
    (forall a, a ∈ added ->
       exists n, n ∈ newNodes /\ a = with_val5 n /\
         forall p, p ∈ nodes prev ->
           toLowerCase (n_id p) <> toLowerCase (n_id n)) /\
    (forall n, n ∈ newNodes ->
       exists a, a ∈ nodes g /\ toLowerCase (n_id a) = toLowerCase (n_id n)).
Proof.
  intros Hg g. apply graph_state_distinct_ids in Hg.
  unfold g, updateGraph, merged_nodeMap, map_values. cbn [nodes].
  set (es := map (fun n => (toLowerCase (n_id n), n)) (nodes prev)).
  assert (Hes : es.*1 = map ci_key (nodes prev)).
  { unfold es. rewrite <- list_fmap_compose. done. }
  assert (Hv : es.*2 = nodes prev).
  { unfold es. rewrite <- list_fmap_compose. apply list_fmap_id. }
  assert (Hm : map_of_entries es = es).
  { apply map_of_entries_NoDup. rewrite Hes. exact Hg. }
  destruct (foldl_add_node_added newNodes es) as (added & Heq & Hadd).
  exists added.*2. split_and!.
  - rewrite Hm, Heq, fmap_app, Hv. done.
  - intros a Ha. apply list_elem_of_fmap in Ha as (e & -> & He).
    destruct (Hadd e He) as (n & Hn & -> & Hf). exists n.
    split_and!; [done | done |]. intros p Hp Heqk.
    apply map_has_false in Hf. apply Hf. rewrite Hes.
    apply list_elem_of_fmap. exists p. by split.
  - intros n Hn. rewrite Hm.
    pose proof (foldl_add_node_has newNodes es n Hn) as Hhas.
    apply map_has_keyed_node in Hhas as (a & Ha & Hka).
    + exists a. by split.
    + apply foldl_add_node_keyed. rewrite <- Hm. apply entries_keyed.
Qed.

(** X4: in every graph state each link has, ignoring case, the
    identifier of a node of the graph as its source and as its target. *)
Theorem graph_state_links_resolve g :
  graph_state g ->
  forall l, l ∈ links g ->
    (exists n, n ∈ nodes g /\
       toLowerCase (n_id n) = toLowerCase (l_source l)) /\
    (exists n, n ∈ nodes g /\
       toLowerCase (n_id n) = toLowerCase (l_target l)).
Proof.
  induction 1 as [|prev newNodes newLinks Hprev IH]; intros l Hl.
  - assert (Hall : Forall (fun l =>
        toLowerCase (l_source l) ∈ map ci_key (nodes INITIAL_DATA) /\
        toLowerCase (l_target l) ∈ map ci_key (nodes INITIAL_DATA))
        (links INITIAL_DATA)).
    { apply (bool_decide_unpack _). vm_compute. reflexivity. }
    rewrite Forall_forall in Hall. destruct (Hall l Hl) as [Hs Ht].
    apply list_elem_of_fmap in Hs as (a & Ha & Hin).
    apply list_elem_of_fmap in Ht as (b & Hb & Hin').
    split; [by exists a | by exists b].
  - destruct (foldl_add_link_spec (merged_nodeMap prev newNodes) newLinks
                (links prev, list_to_set (map link_key (links prev))))
      as (added & Heq & Hadd).
    { intros l' Hl'. simpl in *. apply elem_of_list_to_set.
      apply list_elem_of_fmap. by exists l'. }
    simpl in Heq. unfold updateGraph in Hl. cbn [links] in Hl.
    rewrite Heq in Hl. apply elem_of_app in Hl as [Hl|Hl].
    + destruct (updateGraph_nodes_prefix prev newNodes newLinks) as [tl Htl].
      { by apply graph_state_distinct_ids. }
      destruct (IH l Hl) as [(a & Ha & Hka) (b & Hb & Hkb)].
      split; [exists a | exists b]; (split; [|done]);
        rewrite Htl; apply elem_of_app; by left.
    + apply list_elem_of_lookup in Hl as [i Hi].
      destruct (Hadd i l Hi) as (_ & _ & Hs & Ht).
      split; (apply map_has_keyed_node; [apply merged_nodeMap_keyed | done]).
Qed.

(** X5: in every graph state the keys [source-target-relationship] of the
    links are pairwise distinct; in particular no link occurs twice. *)
Theorem graph_state_link_keys_distinct g :
  graph_state g -> NoDup (map link_key (links g)).
Proof.
  induction 1 as [|prev newNodes newLinks Hprev IH].
  - apply (bool_decide_unpack _). vm_compute. reflexivity.
  - destruct (foldl_add_link_spec (merged_nodeMap prev newNodes) newLinks
                (links prev, list_to_set (map link_key (links prev))))
      as (added & Heq & Hadd).
    { intros l' Hl'. simpl in *. apply elem_of_list_to_set.
      apply list_elem_of_fmap. by exists l'. }
    simpl in Heq, Hadd. unfold updateGraph. cbn [links]. rewrite Heq.
    clear Heq. revert Hadd.
    induction added as [|a added IHa] using rev_ind; intros Hadd.
    { by rewrite app_nil_r. }
    rewrite app_assoc, map_app. simpl. apply NoDup_app. split_and!.
    + apply IHa. intros i l Hi.
      destruct (Hadd i l) as (Hin & Hpre & Hs & Ht).
      { apply lookup_app_l_Some. exact Hi. }
      split_and!; try done.
      intros l' Hl'. apply Hpre. rewrite take_app_le; [done|].
      apply lookup_lt_Some in Hi. lia.
    + intros k Hk Hk'. apply list_elem_of_singleton in Hk'. subst k.
      apply list_elem_of_fmap in Hk as (l' & Hkey & Hl').
      destruct (Hadd (length added) a) as (_ & Hpre & _).
      { by rewrite lookup_app_r, Nat.sub_diag. }
      apply (Hpre l'); [|done].
      rewrite take_app_length. done.
    + apply NoDup_singleton.
Qed.

(** X6: a merge removes nothing and adds at most as many nodes and links
    as were proposed: the counts shown in the header never decrease, and
    the counts of the proposal, which the importer reports on success, bound
    the growth. *)
Theorem updateGraph_growth_bounds prev newNodes newLinks :
  graph_state prev ->
  let g := updateGraph prev newNodes newLinks in
  length (nodes prev) <= length (nodes g) <=
    length (nodes prev) + length newNodes /\
  length (links prev) <= length (links g) <=
    length (links prev) + length newLinks.
Proof.
  intros Hg g. apply graph_state_distinct_ids in Hg.
  split_and!.
  - by apply prefix_length, updateGraph_nodes_prefix.
  - unfold g, updateGraph, merged_nodeMap, map_values. cbn [nodes].
    rewrite length_fmap.
    etrans; [apply foldl_add_node_length|].
    rewrite map_of_entries_NoDup; [by rewrite length_map|].
    rewrite <- list_fmap_compose. exact Hg.
  - apply prefix_length, updateGraph_links_prefix.
  - unfold g, updateGraph. cbn [links].
    etrans; [apply foldl_add_link_length | done].
Qed.

(** X7: the default [val] that the extraction service gives every node it
    returns has no effect on the merge, which sets [val] itself. *)
Theorem updateGraph_val_default_redundant prev data :
  updateGraph prev (nodes (processed data)) (links (processed data))
  = updateGraph prev (nodes data) (links data).
Proof.
  unfold updateGraph, merged_nodeMap, processed. cbn [nodes links].
  by rewrite foldl_add_node_with_val5.
Qed.

End MergeInvariants.
Section MergeLinks.
Context `{JsNum}.

Lemma foldl_map_set_has {V} k (acc es : list (string * V)) :
  k ∈ acc.*1 ++ es.*1 ->
  map_has k (foldl (fun m e => map_set e.1 e.2 m) acc es) = true.
Proof.
  revert acc. induction es as [|[k' v'] es IH]; intros acc Hk; csimpl.
  { rewrite app_nil_r in Hk. by apply map_has_elem. }
  apply IH. rewrite map_set_keys. csimpl in Hk.
  apply elem_of_app in Hk as [Hk|Hk].
  - apply elem_of_app. left. destruct (map_has k' acc); [done|].
    apply elem_of_app. by left.
  - apply elem_of_cons in Hk as [->|Hk].
    + apply elem_of_app. left. destruct (map_has k' acc) eqn:Hh.
      * by apply map_has_elem.
      * apply elem_of_app. right. by left.
    + apply elem_of_app. by right.
Qed.

Lemma merged_nodeMap_has prev newNodes n :
  n ∈ nodes prev ++ newNodes ->
  map_has (ci_key n) (merged_nodeMap prev newNodes) = true.
Proof.
  intros [Hn|Hn]%elem_of_app.
  - eapply map_has_prefix; [apply foldl_add_node_prefix|].
    apply (foldl_map_set_has _ []). simpl.
    rewrite <- list_fmap_compose. apply list_elem_of_fmap. by exists n.
  - by apply foldl_add_node_has.
Qed.

(** X8: a proposed link between entities that are known or proposed in
    the same call is not lost.  If the source and the target of a proposed
    link each match, ignoring case, the id of a previous or of a proposed
    node, the merged graph has a link with the key of the proposed one:
    this link, or one that was there before it. *)
Theorem updateGraph_keeps_resolvable_links prev newNodes newLinks l :
  l ∈ newLinks ->
  (exists n, n ∈ nodes prev ++ newNodes /\
     toLowerCase (n_id n) = toLowerCase (l_source l)) ->
  (exists n, n ∈ nodes prev ++ newNodes /\
     toLowerCase (n_id n) = toLowerCase (l_target l)) ->
  exists l', l' ∈ links (updateGraph prev newNodes newLinks) /\
    link_key l' = link_key l.
Proof.
  intros Hl (a & Ha & Hka) (b & Hb & Hkb).
  unfold updateGraph. cbn [links].
  set (m := merged_nodeMap prev newNodes).
  set (st := foldl (add_link m)
               (links prev, list_to_set (map link_key (links prev))) newLinks).
  assert (Hst : keys_exact st)
    by apply foldl_add_link_keys_exact, links_keys_exact.
  destruct (foldl_add_link_ignored m newLinks
              (links prev, list_to_set (map link_key (links prev))) l Hl)
    as [Hk|Hno].
  - fold st in Hk. rewrite Hst in Hk. apply elem_of_list_to_set in Hk.
    apply list_elem_of_fmap in Hk as (l' & Hkey & Hl'). by exists l'.
  - pose proof (merged_nodeMap_has prev newNodes a Ha) as Hma.
    pose proof (merged_nodeMap_has prev newNodes b Hb) as Hmb.
    unfold ci_key in Hma, Hmb. rewrite Hka in Hma. rewrite Hkb in Hmb.
    fold m in Hma, Hmb. by rewrite Hma, Hmb in Hno.
Qed.

(** X9: links are told apart by the key [source-target-relationship]
    only.  A link is added only if no link before it has its key; and two
    links that differ in source and target can have the same key, so that
    the second of them is taken for a duplicate. *)
Theorem updateGraph_dedup_by_key :
  (forall prev newNodes newLinks i l,
     added_links prev newNodes newLinks !! i = Some l ->
     forall l', l' ∈ links prev ++ take i (added_links prev newNodes newLinks) ->
       link_key l' <> link_key l) /\
  (exists a b, l_source a <> l_source b /\ l_target a <> l_target b /\
     link_key a = link_key b).
Proof.
  split.
  - intros prev newNodes newLinks i l Hi.
    destruct (foldl_add_link_spec (merged_nodeMap prev newNodes) newLinks
                (links prev, list_to_set (map link_key (links prev))))
      as (add' & Heq & Hadd).
    { intros l0 Hl0. simpl in *. apply elem_of_list_to_set.
      apply list_elem_of_fmap. by exists l0. }
    simpl in Heq, Hadd.
    assert (Hadded : added_links prev newNodes newLinks = add').
    { unfold added_links, updateGraph. simpl. rewrite Heq.
      by rewrite drop_app_length. }
    rewrite Hadded in Hi |- *. by destruct (Hadd i l Hi) as (_ & Hpre & _).
  - exists (mkGraphLink "a-b" "c" "uses"), (mkGraphLink "a" "b-c" "uses").
    split_and!; done.
Qed.

End MergeLinks.

(** ** More on the component *)

Section SceneFacts.
Context `{JsNum} {physics : D3Physics}.

Lemma build_scene_labels hn hl ns ls :
  map lb_text (sc_label (build_scene hn hl ns ls)) = ids_of hn ns.
Proof.
  unfold build_scene, ids_of, objects. cbn [sc_label].
  induction ns as [|l ns IH]; csimpl; [done|].
  destruct (hn !! l); csimpl; by rewrite IH.
Qed.

Lemma build_scene_linkLabels hn hl ns ls :
  map ll_text (sc_linkLabel (build_scene hn hl ns ls))
  = map k_relationship (objects hl ls).
Proof.
  unfold build_scene, objects. cbn [sc_linkLabel].
  induction ls as [|l ls IH]; csimpl; [done|].
  destruct (hl !! l); csimpl; by rewrite IH.
Qed.

Lemma build_scene_lines hn hl ns ls :
  map ln_datum (sc_link (build_scene hn hl ns ls)) = ls.
Proof.
  unfold build_scene. cbn [sc_link]. apply list_eq. intros j.
  rewrite !list_lookup_fmap. by destruct (ls !! j).
Qed.

Lemma build_scene_circles hn hl ns ls :
  Forall (fun l => l < length hn) ns ->
  map c_datum (sc_node (build_scene hn hl ns ls)) = ns /\
  Forall (fun c => c_r c = lit 8) (sc_node (build_scene hn hl ns ls)).
Proof.
  intros Hv. unfold build_scene, node_fills. cbn [sc_node].
  set (fs := (fills [] _).1).
  assert (Hlen : length fs = length ns).
  { unfold fs. by rewrite fills_length, length_map, objects_valid. }
  clearbody fs. split.
  - clear Hv. revert fs Hlen. induction ns as [|l ns IH]; intros [|f fs] Hlen;
      simpl in *; try done. f_equal. apply IH. lia.
  - clear Hv. revert fs Hlen. induction ns as [|l ns IH]; intros [|f fs] Hlen;
      simpl in *; try done. constructor; [done|]. apply IH. lia.
Qed.

Lemma rendered_first_wf ns ls : wf (rendered_first ns ls).
Proof.
  split; simpl.
  - constructor.
  - intros i j a b l Ha. done.
  - apply Forall_forall. intros l Hl. apply elem_of_seq in Hl.
    apply caller_node_spec. simpl. rewrite length_map. split; [lia|done].
  - apply Forall_forall. intros l Hl. apply elem_of_seq in Hl.
    apply caller_link_spec. simpl. rewrite length_map. split; [lia|done].
  - intros l Hl. apply caller_node_spec in Hl as [Hlt _]. simpl in Hlt.
    rewrite length_map in Hlt.
    destruct (lookup_host_nodes [] ns l) as [n Hn]; simpl; [lia | lia | eauto].
  - intros l Hl. apply caller_link_spec in Hl as [Hlt _]. simpl in Hlt.
    rewrite length_map in Hlt.
    destruct (lookup_host_links [] ls l) as [g Hg]; simpl; [lia | lia | eauto].
Qed.

Lemma objects_all {A} (h : list A) : objects h (seq 0 (length h)) = h.
Proof. apply (objects_app_seq [] h). Qed.

Lemma rendered_first_ids ns ls :
  snapshot_ids (rendered_first ns ls) = map n_id ns.
Proof.
  unfold snapshot_ids, ids_of. simpl.
  rewrite <- (length_map host_node ns), objects_all.
  apply list_eq. intros j. rewrite !list_lookup_fmap.
  by destruct (ns !! j).
Qed.

Lemma rendered_first_resolvable ns ls :
  (forall l, l ∈ ls -> l_source l ∈ map n_id ns /\ l_target l ∈ map n_id ns) ->
  resolvable (rendered_first ns ls).
Proof.
  intros Hall d i Hd Hi. rewrite rendered_first_ids.
  simpl in Hd. rewrite <- (length_map host_link ls), objects_all in Hd.
  apply list_elem_of_fmap in Hd as (l & -> & Hl).
  destruct (Hall l Hl) as [Hs Ht].
  destruct Hi as [Hi|Hi]; simpl in Hi; by inversion Hi; subst.
Qed.

(** X10: the first effect run on a snapshot with nodes, all of whose links
    name nodes of the snapshot by their exact identifiers, leaves the
    component mounted with a running simulation and draws the snapshot: one
    circle of radius 8 and one label per node, bound to the simulation's
    nodes in order, the labels reading the identifiers; one line and one
    link label per link, bound to the simulation's links in order, the
    link labels reading the relationships. *)
Theorem mount_renders_snapshot ns ls :
  ns <> [] ->
  (forall l, l ∈ ls -> l_source l ∈ map n_id ns /\ l_target l ∈ map n_id ns) ->
  exists s sc,
    status (mount ns ls) = Mounted /\
    active_sim (mount ns ls) = Some s /\ s_running s = true /\
    s_scene s = Some sc /\
    length (s_nodes s) = length ns /\ length (s_links s) = length ls /\
    map c_datum (sc_node sc) = s_nodes s /\
    Forall (fun c => c_r c = lit 8) (sc_node sc) /\
    map lb_text (sc_label sc) = map n_id ns /\
    map ln_datum (sc_link sc) = s_links s /\
    map ll_text (sc_linkLabel sc) = map l_relationship ls.
Proof.
  intros Hne Hall.
  change (mount ns ls) with (run_effect (rendered_first ns ls)).
  pose proof (rendered_first_wf ns ls) as Hw.
  pose proof (rendered_first_resolvable ns ls Hall) as Hres.
  pose proof (run_effect_resolvable_ok _ Hw Hres) as Hok.
  assert (Hcn : objects (map host_node ns) (seq 0 (length ns))
                = map host_node ns).
  { by rewrite <- (length_map host_node ns), objects_all. }
  assert (Hcl : objects (map host_link ls) (seq 0 (length ls))
                = map host_link ls).
  { by rewrite <- (length_map host_link ls), objects_all. }
  unfold active_sim, run_effect. rewrite guard_false; cycle 1.
  { simpl. by destruct ns. }
  { done. }
  cbn [rendered_first heap_nodes heap_links data_nodes data_links dimensions
       svgRef status sims] in Hok |- *.
  rewrite !Hcn, !Hcl in Hok. rewrite !Hcn, !Hcl.
  set (ns' := seq (length (map host_node ns)) (length (map host_node ns))) in *.
  set (ls' := seq (length (map host_link ls)) (length (map host_link ls))) in *.
  set (hn := for_nodes init_node 0 ns' _) in *.
  destruct (init_links _ 0 _ _) as [hl err] eqn:Hinit. simpl in Hok.
  subst err. cbn [cleanup sims status length].
  change (Some 0) with (Some (length (@nil Sim))).
  rewrite (list_lookup_middle [] []) by done.
  assert (Hhl : hl = (init_links (nodeById hn ns') 0 ls'
                        (map host_link ls ++ map host_link ls)).1)
    by by rewrite Hinit.
  assert (Hvalid : Forall (fun l => l < length hn) ns').
  { apply Forall_forall. intros l Hl. apply elem_of_seq in Hl.
    unfold hn. rewrite for_nodes_length, length_app. lia. }
  destruct (build_scene_circles hn hl ns' ls' Hvalid) as [Hdat Hr].
  eexists _, _. split_and!; try done.
  - cbn [s_nodes]. unfold ns'. by rewrite length_seq, length_map.
  - cbn [s_links]. unfold ls'. by rewrite length_seq, length_map.
  - rewrite build_scene_labels. unfold hn, ns'. rewrite ids_initialized.
    apply list_eq. intros j. rewrite !list_lookup_fmap.
    by destruct (ns !! j).
  - apply build_scene_lines.
  - rewrite build_scene_linkLabels.
    assert (Hvl : Forall (fun l => l < length hl) ls').
    { apply Forall_forall. intros l Hl. apply elem_of_seq in Hl.
      rewrite Hhl, init_links_length, length_app. lia. }
    apply list_eq. intros j. rewrite !list_lookup_fmap.
    destruct (ls !! j) as [g|] eqn:Hg; simpl.
    + assert (Hj : ls' !! j = Some (length (map host_link ls) + j)).
      { apply lookup_seq_lt. rewrite length_map. by eapply lookup_lt_Some. }
      rewrite (objects_lookup hl ls' j _ Hvl Hj).
      destruct (init_links_resolved (nodeById hn ns') 0 ls'
                  (map host_link ls ++ map host_link ls)) with
        (l := length (map host_link ls) + j)
        as (d & a & b & g' & Hd & Hg' & _ & _ & Hrel & _).
      * apply NoDup_seq.
      * intros l Hl. apply app_seq_lookup in Hl as (c & Hc & Hin).
        apply list_elem_of_fmap in Hin as (g0 & -> & _). by exists g0.
      * by rewrite Hinit.
      * by eapply list_elem_of_lookup_2.
      * rewrite <- Hhl in Hd. rewrite Hd. simpl. rewrite Hrel.
        rewrite lookup_app_r in Hg' by lia.
        replace (length (map host_link ls) + j - length (map host_link ls))
          with j in Hg' by lia.
        rewrite list_lookup_fmap, Hg in Hg'. simpl in Hg'.
        by inversion Hg'.
    + apply lookup_ge_None in Hg.
      apply fmap_None, lookup_ge_None.
      etrans; [apply objects_length|]. unfold ls'.
      by rewrite length_seq, length_map.
Qed.

End SceneFacts.

(** ** More on the colors *)

Section PaletteFacts.

(** X11: within one effect run that meets at most ten distinct groups, two
    nodes have the same fill exactly when they have the same group. *)
Theorem fill_tells_group gs i j gi gj :
  gs !! i = Some gi -> gs !! j = Some gj ->
  length (first_seen [] gs) <= 10 ->
  node_fills gs !! i = node_fills gs !! j <-> gi = gj.
Proof.
  intros Hi Hj Hlen.
  destruct (fills_lookup [] gs i gi Hi) as (p & Hp & Hfi).
  destruct (fills_lookup [] gs j gj Hj) as (q & Hq & Hfj).
  unfold node_fills. rewrite Hfi, Hfj.
  pose proof (index_of_lookup _ _ _ Hp) as Hlp.
  pose proof (index_of_lookup _ _ _ Hq) as Hlq.
  pose proof (lookup_lt_Some _ _ _ Hlp) as Hpl.
  pose proof (lookup_lt_Some _ _ _ Hlq) as Hql.
  split.
  - intros Heq. apply (inj Some) in Heq.
    rewrite !Nat.mod_small in Heq by lia.
    apply palette_lookup_inj in Heq; [|lia|lia]. subst q. congruence.
  - intros ->. congruence.
Qed.

(** X12: the palette has ten colors and is used cyclically: a group that
    is met ten distinct groups after another one gets the same fill. *)
Theorem palette_wraps gs i j gi gj p :
  gs !! i = Some gi -> gs !! j = Some gj ->
  index_of gi (first_seen [] gs) = Some p ->
  index_of gj (first_seen [] gs) = Some (p + 10) ->
  gi <> gj /\ node_fills gs !! i = node_fills gs !! j.
Proof.
  intros Hi Hj Hp Hq. split.
  { intros ->. rewrite Hp in Hq. inversion Hq. lia. }
  destruct (fills_lookup [] gs i gi Hi) as (p' & Hp' & Hfi).
  destruct (fills_lookup [] gs j gj Hj) as (q' & Hq' & Hfj).
  unfold node_fills. rewrite Hfi, Hfj.
  assert (p' = p) as -> by congruence.
  assert (q' = p + 10) as -> by congruence.
  do 2 f_equal. replace (p + 10) with (p + 1 * 10) by lia.
  by rewrite Nat.Div0.mod_add.
Qed.

End PaletteFacts.

(** ** A whole drag gesture *)

Section GestureFacts.
Context `{JsNum} {physics : D3Physics}.

Lemma dispatch_drag_hit handler k i ev w s sc c d :
  sims w !! k = Some s -> s_scene s = Some sc -> sc_node sc !! i = Some c ->
  heap_nodes w !! c_datum c = Some d ->
  dispatch_drag handler k i ev w
  = set_store (<[c_datum c := (handler ev s d).2]> (heap_nodes w))
      (<[k := (handler ev s d).1]> (sims w)) w.
Proof.
  intros Hk Hsc Hc Hd. unfold dispatch_drag. by rewrite Hk, Hsc, Hc, Hd.
Qed.

Lemma integrate_rests px py d :
  pinned_at px py d ->
  held_at px py (integrate d) /\
  o_vx (integrate d) = lit 0 /\ o_vy (integrate d) = lit 0.
Proof.
  intros [Hx Hy]. unfold held_at, pinned_at, integrate. simpl.
  by rewrite Hx, Hy.
Qed.

Lemma tick_pinned_rests s hn hl l d px py :
  l ∈ s_nodes s -> hn !! l = Some d -> pinned_at px py d ->
  exists d', (tick s hn hl).2 !! l = Some d' /\ held_at px py d' /\
             o_vx d' = lit 0 /\ o_vy d' = lit 0.
Proof.
  intros Hl Hd Hp.
  destruct (lookup_lt_is_Some_2 (tick s hn hl).2 l) as [d' Hd'].
  { rewrite tick_length. by eapply lookup_lt_Some. }
  exists d'. split; [done|]. revert d' Hd'. unfold tick. simpl.
  apply (for_nodes_establishes (pinned_at px py)
           (fun a => held_at px py a /\ o_vx a = lit 0 /\ o_vy a = lit 0));
    [ | | | done | ].
  - intros ? a Ha. by apply integrate_rests.
  - intros ? a [[Ha _] _]. by apply integrate_rests.
  - intros ? a Ha. by apply integrate_pinned.
  - destruct (s_center s).
    + apply set_kins_invariant; [intros k a; apply with_kin_pinned|].
      intros a Ha. congruence.
    + intros a Ha. congruence.
Qed.

Lemma tick_node_datum hn c : c_datum (tick_node hn c) = c_datum c.
Proof. unfold tick_node. by destruct (hn !! c_datum c). Qed.

(** A frame on a running simulation with a pinned node: the node is at its
    pin and at rest, and the circles of the simulation keep their data. *)
Lemma frame_pinned_rests w k s sc i c l d px py :
  wf w -> sims w !! k = Some s -> s_running s = true ->
  s_scene s = Some sc -> sc_node sc !! i = Some c ->
  l ∈ s_nodes s -> heap_nodes w !! l = Some d -> pinned_at px py d ->
  exists s' sc' c' d',
    sims (frame w) !! k = Some s' /\ s_scene s' = Some sc' /\
    sc_node sc' !! i = Some c' /\ c_datum c' = c_datum c /\
    heap_nodes (frame w) !! l = Some d' /\ held_at px py d' /\
    o_vx d' = lit 0 /\ o_vy d' = lit 0.
Proof.
  intros Hw Hk Hrun Hsc Hc Hl Hd Hp.
  destruct (frame_at w k s Hw Hk)
    as (w1 & Hw1 & Hk1 & Hl1 & Hn1 & Hk' & Hl' & Hn').
  destruct (step_sim_running k w1 s Hk1 Hrun)
    as (s' & Hs' & Hhn & _ & _ & _ & Hscene & _).
  destruct (tick_pinned_rests s (heap_nodes w1) (heap_links w1) l d px py)
    as (d' & Hd' & Hheld & Hvx & Hvy); try done.
  { by rewrite Hn1. }
  rewrite Hsc in Hscene. simpl in Hscene.
  eexists s', _, (tick_node _ c), d'. split_and!; try done.
  - by rewrite Hk'.
  - simpl. by rewrite list_lookup_fmap, Hc.
  - apply tick_node_datum.
  - rewrite Hn' by done. by rewrite Hhn.
Qed.

(** X13: a whole gesture on a circle of the displayed simulation, begun
    with no other gesture active: after pointer-down, a pointer-move to
    [(x, y)], one animation frame and pointer-up, the node of the circle is
    at [(x, y)], at rest, and no longer pinned; this holds whether or not
    the simulation had stopped before the gesture. *)
Theorem drag_gesture_moves_node w k i s sc c ev0 ev ev' :
  reachable w -> attached w = Some k ->
  sims w !! k = Some s -> s_scene s = Some sc -> sc_node sc !! i = Some c ->
  ev_active ev0 = 0 ->
  let w' := run [DragStart k i ev0; Drag k i ev; Frame; DragEnd k i ev'] w in
  exists d', heap_nodes w' !! c_datum c = Some d' /\
    o_x d' = ev_x ev /\ o_y d' = ev_y ev /\
    o_vx d' = lit 0 /\ o_vy d' = lit 0 /\
    o_fx d' = None /\ o_fy d' = None.
Proof.
  intros Hr Hatt Hk Hsc Hc Hact w'.
  pose proof (reachable_wf w Hr) as Hw.
  set (l := c_datum c).
  assert (Hl : l ∈ s_nodes s) by by eapply circle_datum_owned.
  destruct (lookup_lt_is_Some_2 (heap_nodes w) l) as [d Hd].
  { by eapply sim_nodes_valid. }
  (* pointer-down *)
  set (w1 := step (DragStart k i ev0) w).
  assert (Hw1 : wf w1) by by apply step_wf.
  assert (Hw1eq : w1 = set_store
            (<[l := (dragstarted ev0 s d).2]> (heap_nodes w))
            (<[k := (dragstarted ev0 s d).1]> (sims w)) w).
  { unfold w1, step. rewrite decide_True by done.
    exact (dispatch_drag_hit dragstarted k i ev0 w s sc c d Hk Hsc Hc Hd). }
  set (s1 := (dragstarted ev0 s d).1) in *.
  set (d1 := (dragstarted ev0 s d).2) in *.
  assert (Hk1 : sims w1 !! k = Some s1).
  { rewrite Hw1eq. simpl. apply list_lookup_insert_eq. by eapply lookup_lt_Some. }
  assert (Hd1 : heap_nodes w1 !! l = Some d1).
  { rewrite Hw1eq. simpl. apply list_lookup_insert_eq. by eapply lookup_lt_Some. }
  assert (Hrun1 : s_running s1 = true).
  { unfold s1, dragstarted. simpl. by rewrite Hact. }
  assert (Hsc1 : s_scene s1 = Some sc).
  { unfold s1, dragstarted. simpl. by rewrite Hact. }
  assert (Hn1 : s_nodes s1 = s_nodes s).
  { unfold s1, dragstarted. simpl. by rewrite Hact. }
  (* pointer-move *)
  set (w2 := step (Drag k i ev) w1).
  assert (Hw2 : wf w2) by by apply step_wf.
  assert (Hw2eq : w2 = set_store
            (<[l := (dragged ev s1 d1).2]> (heap_nodes w1))
            (<[k := (dragged ev s1 d1).1]> (sims w1)) w1).
  { exact (dispatch_drag_hit dragged k i ev w1 s1 sc c d1 Hk1 Hsc1 Hc Hd1). }
  assert (Hk2 : sims w2 !! k = Some s1).
  { rewrite Hw2eq. simpl. apply list_lookup_insert_eq. by eapply lookup_lt_Some. }
  assert (Hd2 : heap_nodes w2 !! l = Some (dragged ev s1 d1).2).
  { rewrite Hw2eq. simpl. apply list_lookup_insert_eq. by eapply lookup_lt_Some. }
  (* the frame *)
  destruct (frame_pinned_rests w2 k s1 sc i c l (dragged ev s1 d1).2
              (ev_x ev) (ev_y ev) Hw2 Hk2 Hrun1 Hsc1 Hc)
    as (s3 & sc3 & c3 & d3 & Hk3 & Hsc3 & Hc3 & Hdat3 & Hd3 & Hheld & Hvx & Hvy);
    [by rewrite Hn1 | done | done |].
  (* pointer-up *)
  assert (Hw4 : w' = set_store
            (<[l := (dragended ev' s3 d3).2]> (heap_nodes (frame w2)))
            (<[k := (dragended ev' s3 d3).1]> (sims (frame w2))) (frame w2)).
  { unfold l in *. rewrite <- Hdat3 in Hd3 |- *.
    exact (dispatch_drag_hit dragended k i ev' (frame w2) s3 sc3 c3 d3
             Hk3 Hsc3 Hc3 Hd3). }
  exists (dragended ev' s3 d3).2. rewrite Hw4. simpl.
  destruct Hheld as (_ & Hx & Hy). split_and!; try done.
  apply list_lookup_insert_eq. by eapply lookup_lt_Some.
Qed.

End GestureFacts.

(** ** What a frame leaves alone *)

Section FrameFacts.
Context `{JsNum} {physics : D3Physics}.

Lemma tick_keeps s hn hl l d :
  hn !! l = Some d ->
  exists d', (tick s hn hl).2 !! l = Some d' /\ kept d d'.
Proof.
  intros Hd.
  destruct (lookup_lt_is_Some_2 (tick s hn hl).2 l) as [d' Hd'].
  { rewrite tick_length. by eapply lookup_lt_Some. }
  exists d'. split; [done|]. revert d' Hd'. unfold tick. simpl.
  apply for_nodes_invariant.
  - intros _ a Ha. exact Ha.
  - destruct (s_center s).
    + apply set_kins_invariant.
      * intros k a Ha. exact Ha.
      * intros a Ha. rewrite Hd in Ha. by inversion Ha.
    + intros a Ha. rewrite Hd in Ha. by inversion Ha.
Qed.

Lemma step_sim_keeps k w l d :
  heap_nodes w !! l = Some d ->
  heap_links (step_sim k w) = heap_links w /\
  exists d', heap_nodes (step_sim k w) !! l = Some d' /\ kept d d'.
Proof.
  intros Hd. unfold step_sim.
  destruct (sims w !! k) as [s|]; [|by split; [|exists d]].
  destruct (s_running s); [|by split; [|exists d]].
  simpl. split; [done|]. by apply tick_keeps.
Qed.

Lemma foldl_step_sim_keeps ks w l d :
  heap_nodes w !! l = Some d ->
  let w' := foldl (fun w k => step_sim k w) w ks in
  heap_links w' = heap_links w /\
  exists d', heap_nodes w' !! l = Some d' /\ kept d d'.
Proof.
  revert w d. induction ks as [|k ks IH]; intros w d Hd; simpl.
  { by split; [|exists d]. }
  destruct (step_sim_keeps k w l d Hd) as (Hl1 & d1 & Hd1 & Hk1).
  destruct (IH _ _ Hd1) as (Hl2 & d2 & Hd2 & Hk2).
  split; [congruence|]. exists d2. split; [done|].
  destruct Hk1 as (? & ? & ? & ?), Hk2 as (? & ? & ? & ?).
  unfold kept. split_and!; congruence.
Qed.

(** X14: an animation frame only moves nodes.  It changes no link object,
    and of a node object it leaves the data of the caller (id, group,
    val), the index and the pin as they are. *)
Theorem frame_only_moves_nodes w l d :
  heap_nodes w !! l = Some d ->
  heap_links (step Frame w) = heap_links w /\
  exists d', heap_nodes (step Frame w) !! l = Some d' /\
    o_data d' = o_data d /\ o_index d' = o_index d /\
    o_fx d' = o_fx d /\ o_fy d' = o_fy d.
Proof. intros Hd. by apply foldl_step_sim_keeps. Qed.

End FrameFacts.

(** ** What is on screen *)

Section ScreenFacts.
Context `{JsNum} {physics : D3Physics}.

Lemma set_up_skeleton w k :
  set_up w k <->
  exists sk, map skeleton (sims w) !! k = Some sk /\
    sk_forces sk = true /\ is_Some (sk_scene sk).
Proof.
  unfold set_up. split.
  - intros (s & Hk & Hc & Hs). exists (skeleton s).
    split_and!; [by apply skeleton_lookup | |].
    + simpl. by destruct Hc as [c ->].
    + simpl. destruct Hs as [sc ->]. by eexists.
  - intros (sk & Hk & Hc & Hs).
    rewrite list_lookup_fmap in Hk. apply fmap_Some in Hk as (s & Hk & ->).
    exists s. split_and!; [done | |].
    + simpl in Hc. by destruct (s_center s).
    + simpl in Hs. destruct (s_scene s); [by eexists|].
      by destruct Hs.
Qed.

Lemma screen_ok_static w w' :
  map skeleton (sims w') = map skeleton (sims w) ->
  cleanup w' = cleanup w -> attached w' = attached w ->
  status w' = status w ->
  screen_ok w -> screen_ok w'.
Proof.
  intros Hsk Hc Ha Hs [H1 H2]. split.
  - intros k. rewrite Hc, Ha, Hs. apply H1.
  - intros k. rewrite Ha, set_up_skeleton, Hsk, <- set_up_skeleton. apply H2.
Qed.

Lemma foldl_step_sim_static ks w :
  let w' := foldl (fun w k => step_sim k w) w ks in
  map skeleton (sims w') = map skeleton (sims w) /\
  cleanup w' = cleanup w /\ attached w' = attached w /\
  status w' = status w.
Proof.
  revert w. induction ks as [|k ks IH]; intros w; simpl; [done|].
  destruct (IH (step_sim k w)) as (-> & -> & -> & ->).
  pose proof (step_sim_spec k w) as Hs. simpl in Hs.
  destruct Hs as (Hsk & _ & _ & _ & _ & _ & Hst & Hc & Ha & _).
  by rewrite Hsk, Hst, Hc, Ha.
Qed.

Lemma dispatch_drag_static handler k i ev w :
  (forall ev s d, skeleton (handler ev s d).1 = skeleton s) ->
  let w' := dispatch_drag handler k i ev w in
  map skeleton (sims w') = map skeleton (sims w) /\
  cleanup w' = cleanup w /\ attached w' = attached w /\
  status w' = status w.
Proof.
  intros Hh. unfold dispatch_drag.
  destruct (sims w !! k) as [s|] eqn:Hk; [|done].
  destruct (s_scene s) as [sc|] eqn:Hsc; [|done].
  destruct (sc_node sc !! i) as [c|] eqn:Hc; [|done].
  destruct (heap_nodes w !! c_datum c) as [d|] eqn:Hd; [|done].
  simpl. split_and!; try done. by apply (map_skeleton_insert _ _ s).
Qed.

Lemma set_up_extend w w' k :
  sims w `prefix_of` sims w' -> set_up w k -> set_up w' k.
Proof.
  intros [tl Htl] (s & Hk & Hc & Hs). exists s. split_and!; try done.
  rewrite Htl. by apply lookup_app_l_Some.
Qed.

Lemma run_effect_screen_ok w :
  status w = Mounted ->
  (forall k, attached w = Some k -> set_up w k) ->
  screen_ok (run_effect w).
Proof.
  intros Hst Hatt. unfold run_effect.
  destruct (_ || _).
  { split; simpl; [done|]. intros k Hk. by apply Hatt. }
  destruct (init_links _ 0 _ _) as [hl [e|]].
  { split; simpl; done. }
  split; cbn [cleanup attached status].
  - intros k [= <-]. done.
  - intros k [= <-]. eexists. cbn [sims].
    split_and!; [by apply list_lookup_middle | by eexists | by eexists].
Qed.

Lemma run_cleanup_set_up w k : set_up w k -> set_up (run_cleanup w) k.
Proof.
  intros Hk. apply set_up_skeleton. apply set_up_skeleton in Hk.
  unfold run_cleanup. destruct (cleanup w) as [j|]; [|done]. simpl.
  rewrite map_skeleton_alter; [done|]. intros s. apply skeleton_set_running.
Qed.

Lemma run_cleanup_fields w :
  attached (run_cleanup w) = attached w /\
  status (run_cleanup w) = status w.
Proof. unfold run_cleanup. by destruct (cleanup w). Qed.

Lemma is_mounted_status w : is_mounted w = true -> status w = Mounted.
Proof. unfold is_mounted. by destruct (status w). Qed.

Lemma step_screen_ok e w : screen_ok w -> screen_ok (step e w).
Proof.
  intros Hok. pose proof Hok as [H1 H2].
  destruct e as [wd ht|ns ls dn dl| | |k i ev|k i ev|k i ev]; simpl.
  - destruct (is_mounted w) eqn:Hm; [|done].
    apply is_mounted_status in Hm.
    match goal with |- screen_ok (run_effect (run_cleanup ?w0)) =>
      set (w1 := w0) end.
    destruct (run_cleanup_fields w1) as [Ha Hs].
    apply run_effect_screen_ok; [by rewrite Hs|].
    intros k Hk. rewrite Ha in Hk. apply run_cleanup_set_up.
    destruct (H2 k Hk) as (s & Hs1 & Hs2). by exists s.
  - destruct (is_mounted w) eqn:Hm; [|done].
    apply is_mounted_status in Hm.
    match goal with |- screen_ok (run_effect (run_cleanup ?w0)) =>
      set (w1 := w0) end.
    destruct (run_cleanup_fields w1) as [Ha Hs].
    apply run_effect_screen_ok; [by rewrite Hs|].
    intros k Hk. rewrite Ha in Hk. apply run_cleanup_set_up.
    destruct (H2 k Hk) as (s & Hs1 & Hs2). by exists s.
  - destruct (is_mounted w); [|done]. split; simpl; done.
  - destruct (foldl_step_sim_static (seq 0 (length (sims w))) w)
      as (Hsk & Hc & Ha & Hs).
    by apply (screen_ok_static w).
  - destruct (decide _); [|done].
    destruct (dispatch_drag_static dragstarted k i ev w)
      as (Hsk & Hc & Ha & Hs); [apply dragstarted_skeleton|].
    by apply (screen_ok_static w).
  - destruct (dispatch_drag_static dragged k i ev w)
      as (Hsk & Hc & Ha & Hs); [apply dragged_skeleton|].
    by apply (screen_ok_static w).
  - destruct (dispatch_drag_static dragended k i ev w)
      as (Hsk & Hc & Ha & Hs); [apply dragended_skeleton|].
    by apply (screen_ok_static w).
Qed.

Lemma reachable_screen_ok w : reachable w -> screen_ok w.
Proof.
  induction 1 as [ns ls|w e Hr IH Hv].
  - apply run_effect_screen_ok; [done|]. intros k Hk. done.
  - by apply step_screen_ok.
Qed.

(** X15: at every moment of the component's life, a cleanup is registered
    only while the component is mounted, the simulation it will stop is the
    one whose primitives are on screen, and the primitives on screen belong
    to a simulation that has its forces and its tick listener. *)
Theorem displayed_simulation_set_up w :
  reachable w ->
  (forall k, cleanup w = Some k ->
     attached w = Some k /\ status w = Mounted) /\
  (forall k, attached w = Some k ->
     exists s, sims w !! k = Some s /\
       is_Some (s_center s) /\ is_Some (s_scene s)).
Proof. intros Hr. exact (reachable_screen_ok w Hr). Qed.

End ScreenFacts.

(** ** An empty snapshot *)

Section EmptySnapshot.
Context `{JsNum} {physics : D3Physics}.

(** C6, as the code does it: with a snapshot of zero nodes the effect
    returns at its guard: no simulation is created, nothing is drawn, the
    store is untouched, no error is raised and no cleanup is registered;
    what was on screen stays on screen.  A component first rendered with
    such a snapshot has no simulation and no primitive, and animation
    frames leave it so.  When such a snapshot replaces the snapshot of a
    running effect, the cleanup stops the previous simulation, but its
    primitives stay on screen; a pointer-down on one of its circles, with
    no other gesture active, restarts this simulation, for which no
    cleanup is registered. *)
Theorem empty_snapshot_idle :
  (forall w, data_nodes w = [] ->
     sims (run_effect w) = sims w /\
     heap_nodes (run_effect w) = heap_nodes w /\
     heap_links (run_effect w) = heap_links w /\
     attached (run_effect w) = attached w /\
     status (run_effect w) = status w /\
     cleanup (run_effect w) = None) /\
  (forall ls n,
     let w := run (replicate n Frame) (mount [] ls) in
     sims w = [] /\ attached w = None /\ status w = Mounted /\
     active_sim w = None) /\
  (forall w ns ls dl k s,
     reachable w -> valid_event w (SetData ns ls [] dl) = true ->
     is_mounted w = true -> cleanup w = Some k -> sims w !! k = Some s ->
     let w' := step (SetData ns ls [] dl) w in
     status w' = Mounted /\ cleanup w' = None /\ attached w' = Some k /\
     sims w' !! k = Some (stop s) /\ length (sims w') = length (sims w) /\
     forall i sc c ev,
       s_scene s = Some sc -> sc_node sc !! i = Some c -> ev_active ev = 0 ->
       exists s', sims (step (DragStart k i ev) w') !! k = Some s' /\
         s_running s' = true /\
         cleanup (step (DragStart k i ev) w') = None).
Proof.
  split_and!; [apply run_effect_empty | |].
  { intros ls n. simpl. rewrite frames_idle by done. done. }
  intros w ns ls dl k s Hr Hv Hm Hc Hk w'.
  pose proof (reachable_wf w Hr) as Hw.
  destruct (reachable_screen_ok w Hr) as [Hscr _].
  destruct (Hscr k Hc) as [Hatt Hst].
  assert (Hw' : wf w') by by apply step_wf.
  unfold w' in *. clear w'. simpl in *. rewrite Hm in *.
  set (w0 := mkWorld _ _ _ _ _ _ _ _ _ _) in *.
  assert (Hclean : run_cleanup w0
            = {| heap_nodes := heap_nodes w0; heap_links := heap_links w0;
                 sims := alter stop k (sims w);
                 data_nodes := []; data_links := dl;
                 dimensions := dimensions w; svgRef := svgRef w;
                 status := status w; cleanup := None;
                 attached := attached w |}).
  { unfold run_cleanup. simpl. by rewrite Hc. }
  rewrite Hclean in *. clear Hclean.
  set (w1 := mkWorld _ _ (alter stop k (sims w)) _ _ _ _ _ _ _) in *.
  destruct (run_effect_empty w1 eq_refl)
    as (Hsims & Hhn & Hhl & Hat & Hstat & Hcl).
  set (w2 := run_effect w1) in *.
  assert (Hk2 : sims w2 !! k = Some (stop s)).
  { rewrite Hsims. simpl. by rewrite list_lookup_alter_eq, Hk. }
  assert (Hatt2 : attached w2 = Some k) by (by rewrite Hat).
  split_and!; [by rewrite Hstat | done | done | done | |].
  { rewrite Hsims. simpl. by rewrite length_alter. }
  intros i sc c ev Hsc Hci Hact.
  assert (Hl : c_datum c ∈ s_nodes (stop s)).
  { by eapply (circle_datum_owned w2 k (stop s) sc i c). }
  destruct (lookup_lt_is_Some_2 (heap_nodes w2) (c_datum c)) as [d Hd].
  { by eapply sim_nodes_valid. }
  rewrite decide_True by done.
  rewrite (dispatch_drag_hit dragstarted k i ev w2 (stop s) sc c d)
    by done.
  simpl. rewrite Hact. simpl. eexists. split_and!; [| |done].
  - apply list_lookup_insert_eq. by eapply lookup_lt_Some.
  - done.
Qed.

End EmptySnapshot.

(** ** A new snapshot *)

Section SnapshotFacts.
Context `{JsNum} {physics : D3Physics}.

(** X16: a new snapshot restarts the layout.  The simulation of the
    previous effect run is stopped; if the run for the new snapshot sets up
    a simulation, it is a new one, not yet ticked, with [alpha] at 1 and
    its timer on, and each of its nodes is a new copy of the node at the
    same place of the snapshot, at its initial position and at rest, also
    when the caller passes a node object it passed before. *)
Theorem new_snapshot_restarts_layout w ns ls dn dl s :
  reachable w -> valid_event w (SetData ns ls dn dl) = true ->
  is_mounted w = true ->
  let w' := step (SetData ns ls dn dl) w in
  active_sim w' = Some s ->
  (forall k s0, cleanup w = Some k -> sims w !! k = Some s0 ->
     sims w' !! k = Some (stop s0)) /\
  cleanup w' = Some (length (sims w)) /\
  s_center s = Some (ndiv (dimensions w).1 (lit 2),
                     ndiv (dimensions w).2 (lit 2)) /\
  s_ticks s = 0 /\ s_alpha s = lit 1 /\ s_running s = true /\
  length (s_nodes s) = length dn /\
  forall i l, s_nodes s !! i = Some l ->
    exists l0 n, dn !! i = Some l0 /\
      (heap_nodes w ++ map host_node ns) !! l0 = Some (host_node n) /\
      heap_nodes w' !! l = Some (fresh_node i n).
Proof.
  intros Hr Hv Hm w' Hs. pose proof (reachable_wf w Hr) as Hw.
  split.
  { intros k s0 Hc Hk.
    by destruct (teardown_stops w (SetData ns ls dn dl) k s0 Hw eq_refl Hm
                   Hc Hk). }
  unfold w' in *. simpl in *. rewrite Hm in *.
  set (w0 := mkWorld _ _ _ _ _ _ _ _ _ _) in *.
  assert (Hw0 : wf w0) by by apply set_data_wf.
  assert (Hw1 : wf (run_cleanup w0)) by by apply run_cleanup_wf.
  assert (Hsame : heap_nodes (run_cleanup w0)
                  = heap_nodes w ++ map host_node ns /\
                  data_nodes (run_cleanup w0) = dn /\
                  dimensions (run_cleanup w0) = dimensions w /\
                  length (sims (run_cleanup w0)) = length (sims w)).
  { unfold run_cleanup. destruct (cleanup w0); simpl; try done.
    by rewrite length_alter. }
  destruct Hsame as (Hh & Hd & Hdim & Hlen).
  destruct (run_effect_active _ s Hw1 Hs)
    as (Hc & Hcen & Ht & Hal & _ & Hrun & Hn & Hnodes).
  rewrite Hdim in Hcen. rewrite Hd in Hn, Hnodes. rewrite Hh in Hnodes.
  rewrite Hlen in Hc. split_and!; done.
Qed.

End SnapshotFacts.

(** ** The sources of a solution *)

Section MapOrder.
Context {V : Type}.
Implicit Types (m acc es : list (string * V)).

Lemma foldl_map_set_keys acc es :
  (foldl (fun m e => map_set e.1 e.2 m) acc es).*1 = first_seen acc.*1 es.*1.
Proof.
  revert acc. induction es as [|[k v] es IH]; intros acc; csimpl; [done|].
  rewrite IH, map_set_keys. f_equal.
  destruct (map_has k acc) eqn:Hk.
  - apply map_has_elem in Hk. by rewrite decide_True.
  - apply map_has_false in Hk. by rewrite decide_False.
Qed.

Lemma map_of_entries_keys es : (map_of_entries es).*1 = first_seen [] es.*1.
Proof. apply (foldl_map_set_keys [] es). Qed.

Lemma map_get_elem_NoDup k v m :
  NoDup m.*1 -> (k, v) ∈ m <-> map_get k m = Some v.
Proof.
  induction m as [|[k' v'] m IH]; csimpl; intros Hnd.
  { split; [by intros ?%elem_of_nil | done]. }
  apply NoDup_cons in Hnd as [Hk' Hnd].
  destruct (decide (k = k')) as [->|Hne].
  - split.
    + intros [Heq|Hin]%elem_of_cons; [congruence|].
      destruct Hk'. apply list_elem_of_fmap. by exists (k', v).
    + intros [= ->]. by left.
  - rewrite <- IH by done. split.
    + intros [Heq|Hin]%elem_of_cons; [congruence | done].
    + intros Hin. by right.
Qed.

Lemma map_get_foldl_skip k acc es :
  k ∉ es.*1 ->
  map_get k (foldl (fun m e => map_set e.1 e.2 m) acc es) = map_get k acc.
Proof.
  revert acc. induction es as [|[k' v'] es IH]; intros acc Hk; csimpl; [done|].
  csimpl in Hk. apply not_elem_of_cons in Hk as [Hne Hk].
  rewrite IH by done. rewrite map_get_set. by rewrite decide_False.
Qed.

(** The value of a key is the one of its last entry. *)
Lemma map_of_entries_last k v es :
  map_get k (map_of_entries es) = Some v <->
  exists es1 es2, es = es1 ++ (k, v) :: es2 /\ k ∉ es2.*1.
Proof.
  unfold map_of_entries. split.
  - induction es as [|[k' v'] es IH] using rev_ind; [done|].
    rewrite foldl_app. simpl. rewrite map_get_set.
    destruct (decide (k = k')) as [->|Hne].
    + intros [= ->]. exists es, []. split; [done|]. apply not_elem_of_nil.
    + intros Hget. destruct (IH Hget) as (es1 & es2 & -> & Hk).
      exists es1, (es2 ++ [(k', v')]). split.
      * by rewrite <- app_assoc.
      * rewrite fmap_app. simpl. intros [Hin|Hin]%elem_of_app; [done|].
        apply list_elem_of_singleton in Hin. done.
  - intros (es1 & es2 & -> & Hk).
    rewrite foldl_app. simpl. rewrite map_get_foldl_skip by done.
    rewrite map_get_set. by rewrite decide_True.
Qed.

End MapOrder.

Section Sources.

Lemma uniqueSources_keyed ss :
  let m := map_of_entries (map (fun item => (uri item, item)) ss) in
  NoDup m.*1 /\ Forall (fun e => e.1 = uri e.2) m.
Proof.
  apply (foldl_map_set_inv (fun e => e.1 = uri e.2) []).
  - constructor.
  - constructor.
  - apply Forall_forall. intros e He.
    apply list_elem_of_fmap in He as (s & -> & _). done.
Qed.

Lemma keyed_uris (m : list (string * Source)) :
  Forall (fun e => e.1 = uri e.2) m -> map uri (map_values m) = m.*1.
Proof.
  unfold map_values. induction m as [|[k v] m IH]; intros Hk; [done|].
  apply Forall_cons in Hk as [Hkv Hk]. simpl in Hkv. cbn.
  f_equal; [done | by apply IH].
Qed.

Lemma first_seen_NoDup seen gs : NoDup seen -> NoDup (first_seen seen gs).
Proof.
  revert seen. induction gs as [|g gs IH]; intros seen Hnd; simpl; [done|].
  apply IH. destruct (decide (g ∈ seen)); [done|].
  apply NoDup_app. split_and!; [done | | apply NoDup_singleton].
  intros x Hx Hx'. apply list_elem_of_singleton in Hx'. by subst.
Qed.

Lemma uniqueSources_uris ss :
  map uri (uniqueSources ss) = first_seen [] (map uri ss).
Proof.
  destruct (uniqueSources_keyed ss) as [_ Hk].
  unfold uniqueSources. etrans; [apply keyed_uris, Hk|].
  rewrite map_of_entries_keys. f_equal. rewrite <- list_fmap_compose. done.
Qed.

Lemma uniqueSources_elem ss s :
  s ∈ uniqueSources ss <->
  exists l1 l2, ss = l1 ++ s :: l2 /\ forall s', s' ∈ l2 -> uri s' <> uri s.
Proof.
  destruct (uniqueSources_keyed ss) as [Hnd Hk]. simpl in Hnd, Hk.
  unfold uniqueSources, map_values.
  set (f := fun item => (uri item, item)).
  set (m := map_of_entries (map f ss)) in *.
  assert (Hin : s ∈ m.*2 <-> map_get (uri s) m = Some s).
  { rewrite <- map_get_elem_NoDup by done. split.
    - intros ([k v] & -> & He)%list_elem_of_fmap. simpl.
      rewrite Forall_forall in Hk. specialize (Hk _ He). simpl in Hk.
      by subst k.
    - intros He. apply list_elem_of_fmap. by exists (uri s, s). }
  rewrite Hin. unfold m. rewrite map_of_entries_last. split.
  - intros (es1 & es2 & Heq & Hnot).
    apply fmap_app_inv in Heq as (l1 & l2' & -> & Heq & ->).
    symmetry in Heq.
    apply fmap_cons_inv in Heq as (s0 & l2 & Hs0 & -> & ->).
    unfold f in Hs0. inversion Hs0 as [[Hu Hs]]. subst s0.
    exists l1, l2. split; [done|]. intros s' Hs' Heq. apply Hnot.
    apply list_elem_of_fmap. exists (f s'). split; [done|].
    apply list_elem_of_fmap. by exists s'.
  - intros (l1 & l2 & -> & Hnot). exists (map f l1), (map f l2). split.
    + by rewrite map_app.
    + intros Hin'. apply list_elem_of_fmap in Hin' as (e & He1 & He).
      apply list_elem_of_fmap in He as (s' & -> & Hs'). simpl in He1.
      by apply (Hnot s').
Qed.

Lemma truthy_Some s : truthy s = true -> exists t, s = Some t /\ t <> "".
Proof.
  destruct s as [t|]; [|done]. simpl. intros Ht. exists t. split; [done|].
  intros ->. done.
Qed.

Lemma web_sources_elem cs s :
  s ∈ web_sources cs ->
  title s <> "" /\ uri s <> "" /\
  exists c, c ∈ cs /\ gc_web c = Some (mkWebRef (Some (uri s)) (Some (title s))).
Proof.
  unfold web_sources. intros Hs.
  apply list_elem_of_omap in Hs as (c & Hc & Hsrc).
  apply list_elem_of_In, filter_In in Hc as [Hc Hweb].
  apply list_elem_of_In in Hc.
  unfold has_web in Hweb. unfold to_source in Hsrc.
  destruct (gc_web c) as [[u t]|] eqn:Hw; [|done]. simpl in *.
  apply andb_true_iff in Hweb as [Hu Ht].
  apply truthy_Some in Hu as (u' & -> & Hu).
  apply truthy_Some in Ht as (t' & -> & Ht).
  inversion Hsrc. subst s. simpl. split_and!; [done | done |].
  by exists c.
Qed.

(** X17: the result that the solver shows always has a solution text,
    and its sources have pairwise distinct addresses, a title and an
    address each, both taken from one grounding chunk of the reply. *)
Theorem shown_result_well_formed reply :
  let result := shown_result reply in
  solution result <> "" /\
  NoDup (map uri (sources result)) /\
  forall s, s ∈ sources result ->
    title s <> "" /\ uri s <> "" /\
    exists r c, reply = Some r /\ c ∈ groundingChunks r /\
      gc_web c = Some (mkWebRef (Some (uri s)) (Some (title s))).
Proof.
  destruct reply as [r|]; simpl.
  - split_and!.
    + unfold or_else. destruct (r_text r) as [t|]; [|done].
      destruct (String.eqb t "") eqn:Ht; [done|].
      intros ->. done.
    + rewrite uniqueSources_uris.
      generalize (map uri (web_sources (groundingChunks r))).
      intros l. apply first_seen_NoDup. constructor.
    + intros s Hs. apply uniqueSources_elem in Hs as (l1 & l2 & Heq & _).
      assert (Hin : s ∈ web_sources (groundingChunks r)).
      { rewrite Heq. apply elem_of_app. right. by left. }
      destruct (web_sources_elem _ _ Hin) as (Ht & Hu & c & Hc & Hw).
      split_and!; try done. by exists r, c.
  - split_and!; [done | constructor |]. intros s Hs.
    by apply elem_of_nil in Hs.
Qed.

(** X18: removing duplicate sources keeps one source per address, at the
    place where the address first occurs and with the title of its last
    occurrence. *)
Theorem uniqueSources_first_place_last_title ss :
  map uri (uniqueSources ss) = first_seen [] (map uri ss) /\
  forall s, s ∈ uniqueSources ss <->
    exists l1 l2, ss = l1 ++ s :: l2 /\
      forall s', s' ∈ l2 -> uri s' <> uri s.
Proof. split; [apply uniqueSources_uris | apply uniqueSources_elem]. Qed.

End Sources.

(** ** The exports of a solution *)

Section CsvFacts.

Lemma append_nil (b : string) : "" +:+ b = b.
Proof. done. Qed.

Lemma append_cons x (a b : string) : String x a +:+ b = String x (a +:+ b).
Proof. done. Qed.

Lemma append_assoc (a b c : string) : (a +:+ b) +:+ c = a +:+ (b +:+ c).
Proof.
  induction a as [|x a IH]; [done|]. rewrite !append_cons. by f_equal.
Qed.

Lemma read_quoted_escaped s rest :
  match rest with
  | String b _ => b <> dquote
  | EmptyString => True
  end ->
  read_quoted
    (replace_all dquote (String dquote (String dquote "")) s
     +:+ String dquote rest)
  = Some (s, rest).
Proof.
  intros Hrest. induction s as [|a s IH]; cbn [replace_all].
  - rewrite append_nil. cbn [read_quoted]. rewrite Ascii.eqb_refl.
    destruct rest as [|b rest]; [done|].
    apply Ascii.eqb_neq in Hrest. by rewrite Hrest.
  - destruct (Ascii.eqb a dquote) eqn:Ha.
    + apply Ascii.eqb_eq in Ha. subst a.
      rewrite !append_cons, append_nil. cbn [read_quoted].
      rewrite Ascii.eqb_refl. by rewrite IH.
    + rewrite append_cons. cbn [read_quoted]. rewrite Ha. by rewrite IH.
Qed.

Lemma replace_all_absent c r s :
  has_char c s = false -> replace_all c r s = s.
Proof.
  induction s as [|a s IH]; simpl; [done|].
  intros [Ha Hs]%orb_false_iff. rewrite Ha. by rewrite IH.
Qed.

Lemma has_char_app c a b :
  has_char c (a +:+ b) = has_char c a || has_char c b.
Proof.
  induction a as [|x a IH]; [done|]. rewrite append_cons. cbn [has_char].
  by rewrite IH, orb_assoc.
Qed.

(** X19: the solution cell of the exported sheet reads back as the
    solution, whatever characters it contains: the file is the header,
    then [Solution,] and a quoted field whose contents are the solution
    and after which the line ends. *)
Theorem csv_solution_reads_back result :
  exists body,
    csvContent result = csvHeader +:+ "Solution," +:+ String dquote body /\
    read_quoted body
    = Some (solution result, String newline (sourceRows result)).
Proof.
  exists (replace_all dquote (String dquote (String dquote ""))
            (solution result)
          +:+ String dquote (String newline (sourceRows result))).
  split.
  - unfold csvContent, solutionRow. f_equal.
    rewrite append_assoc. f_equal. rewrite append_cons. f_equal.
    rewrite append_assoc. f_equal.
  - by apply read_quoted_escaped.
Qed.

(** X20: a source row of the exported sheet reads back as
    [title (address)] when neither the title nor the address has a double
    quote; the row does not escape them. *)
Theorem csv_source_reads_back s :
  has_char dquote (title s) = false -> has_char dquote (uri s) = false ->
  exists body,
    sourceRow s = "Source," +:+ String dquote body /\
    read_quoted body = Some (title s +:+ " (" +:+ uri s +:+ ")", "").
Proof.
  intros Ht Hu. eexists. split; [reflexivity|].
  set (cell := title s +:+ " (" +:+ uri s +:+ ")").
  assert (Hc : has_char dquote cell = false).
  { unfold cell. rewrite !has_char_app, Ht, Hu. done. }
  rewrite <- (replace_all_absent dquote (String dquote (String dquote ""))
                cell Hc) at 1.
  replace (title s +:+ " (" +:+ uri s +:+ ")" +:+ String dquote "")
    with (cell +:+ String dquote "").
  - rewrite (replace_all_absent _ _ _ Hc).
    rewrite <- (replace_all_absent dquote (String dquote (String dquote ""))
                  cell Hc) at 1.
    by apply read_quoted_escaped.
  - unfold cell. by rewrite !append_assoc.
Qed.

Lemma length_append (a b : string) :
  String.length (a +:+ b) = String.length a + String.length b.
Proof.
  induction a as [|x a IH]; [done|]. rewrite append_cons. simpl. by rewrite IH.
Qed.

Lemma escaped_length c :
  String.length c
  <= String.length (replace_all dquote (String dquote (String dquote "")) c) /\
  (has_char dquote c = true ->
   String.length c
   < String.length (replace_all dquote (String dquote (String dquote "")) c)).
Proof.
  induction c as [|a c IH]; [by split|]. destruct IH as [IH1 IH2].
  cbn [replace_all has_char].
  destruct (Ascii.eqb a dquote); cbn [orb].
  - rewrite !append_cons, append_nil. simpl. split; intros; lia.
  - simpl. split; [lia|]. intros Hc. specialize (IH2 Hc). lia.
Qed.

(** What the reader has read is what it returns, with the quotes doubled,
    then the closing quote and the rest. *)
Lemma read_quoted_inv n s c rest :
  String.length s <= n -> read_quoted s = Some (c, rest) ->
  s = replace_all dquote (String dquote (String dquote "")) c
      +:+ String dquote rest.
Proof.
  revert s c rest. induction n as [|n IH]; intros s c rest Hn Hr.
  { destruct s; [done | simpl in Hn; lia]. }
  destruct s as [|a s]; [done|]. cbn [read_quoted] in Hr.
  destruct (Ascii.eqb a dquote) eqn:Ha.
  - apply Ascii.eqb_eq in Ha. subst a.
    destruct s as [|b s].
    { inversion Hr. done. }
    destruct (Ascii.eqb b dquote) eqn:Hb.
    + apply Ascii.eqb_eq in Hb. subst b.
      apply fmap_Some in Hr as ([c' rest'] & Hr & Heq).
      inversion Heq. subst c rest. clear Heq.
      apply IH in Hr; [|simpl in Hn; lia]. cbn [fst snd replace_all].
      rewrite Ascii.eqb_refl, !append_cons, append_nil. by rewrite <- Hr.
    + inversion Hr. done.
  - apply fmap_Some in Hr as ([c' rest'] & Hr & Heq).
    inversion Heq. subst c rest. clear Heq.
    apply IH in Hr; [|simpl in Hn; lia]. cbn [fst snd replace_all].
    rewrite Ha, append_cons. by rewrite <- Hr.
Qed.

(** X21: the source rows of the exported sheet are not escaped.  When
    the title or the address of a source has a double quote, a reader of
    the sheet does not read the cell back as [title (address)].  When the
    first double quote of the title is not followed at once by another
    one, the reader ends the cell at that quote: it reads only the part of
    the title before it, and the rest of the row is left over. *)
Theorem csv_source_quote_breaks_cell :
  (forall s body,
     has_char dquote (title s) || has_char dquote (uri s) = true ->
     sourceRow s = "Source," +:+ String dquote body ->
     read_quoted body <> Some (title s +:+ " (" +:+ uri s +:+ ")", "")) /\
  (forall before after address,
     has_char dquote before = false ->
     match after with
     | String b _ => b <> dquote
     | EmptyString => True
     end ->
     exists body,
       sourceRow (mkSource (before +:+ String dquote after) address)
       = "Source," +:+ String dquote body /\
       read_quoted body
       = Some (before,
               after +:+ " (" +:+ address +:+ ")" +:+ String dquote "")).
Proof.
  split.
  - intros s body Hq Hrow Hread.
    unfold sourceRow in Hrow. apply (inj (String.append "Source,")) in Hrow.
    inversion Hrow as [Hbody]. clear Hrow.
    set (cell := title s +:+ " (" +:+ uri s +:+ ")") in *.
    assert (Hb : body = cell +:+ String dquote "").
    { rewrite <- Hbody. unfold cell. by rewrite !append_assoc. }
    apply (read_quoted_inv (String.length body)) in Hread; [|done].
    rewrite Hb in Hread.
    assert (Hc : has_char dquote cell = true).
    { unfold cell. rewrite !has_char_app.
      apply orb_true_iff in Hq as [Hq|Hq]; rewrite Hq; [done|].
      by rewrite !orb_true_r. }
    destruct (escaped_length cell) as [_ Hlt]. specialize (Hlt Hc).
    apply (f_equal String.length) in Hread.
    rewrite !length_append in Hread. lia.
  - intros before after address Hb Ha. eexists. split; [reflexivity|].
    cbn [title uri]. rewrite append_assoc, append_cons.
    rewrite <- (replace_all_absent dquote (String dquote (String dquote ""))
                  before Hb) at 1.
    apply read_quoted_escaped.
    destruct after as [|b after]; [|exact Ha].
    rewrite append_nil. discriminate.
Qed.

End CsvFacts.

Section PdfFacts.
Variable splitTextToSize : nat -> string -> list string.

Lemma put_line_spec step st line :
  pdf_ok st.1 -> 20 <= st.2 ->
  let st' := put_line step st line in
  pdf_ok st'.1 /\ 20 <= st'.2 /\
  pd_fontSize st'.1 = pd_fontSize st.1 /\
  drawn st'.1 = drawn st.1 ++ [line].
Proof.
  destruct st as [d y]. simpl. intros (Hp & Hd & Hm) Hy.
  unfold put_line. simpl. destruct (280 <? y) eqn:Hlt; simpl.
  - split_and!; try done; try lia.
    + split_and!; simpl.
      * done.
      * apply Forall_app. split; [done|]. by constructor.
      * unfold pages. simpl. apply Forall_app. split; [done|].
        constructor; [|done]. constructor; [|done]. split; simpl; lia.
    + unfold drawn, pages. simpl.
      rewrite !concat_app, !map_app. simpl. by rewrite !app_nil_r.
  - apply Nat.ltb_ge in Hlt. split_and!; try done; try lia.
    + split_and!; simpl.
      * by destruct (pd_page d).
      * done.
      * unfold pages in *. simpl. apply Forall_app in Hm as [Hm1 Hm2].
        apply Forall_app. split; [done|]. constructor; [|done].
        apply Forall_cons in Hm2 as [Hm2 _]. apply Forall_app.
        split; [done|]. constructor; [|done]. split; simpl; lia.
    + unfold drawn, pages. simpl.
      rewrite !concat_app, !map_app. simpl.
      rewrite !app_nil_r, map_app. simpl. by rewrite app_assoc.
Qed.

Lemma put_lines_spec step ls st :
  pdf_ok st.1 -> 20 <= st.2 ->
  let st' := foldl (put_line step) st ls in
  pdf_ok st'.1 /\ 20 <= st'.2 /\
  pd_fontSize st'.1 = pd_fontSize st.1 /\
  drawn st'.1 = drawn st.1 ++ ls.
Proof.
  revert st. induction ls as [|l ls IH]; intros st Hok Hy; simpl.
  { by rewrite app_nil_r. }
  destruct (put_line_spec step st l Hok Hy) as (Hok1 & Hy1 & Hf1 & Hd1).
  destruct (IH _ Hok1 Hy1) as (Hok2 & Hy2 & Hf2 & Hd2).
  split_and!; try done.
  - by rewrite Hf2.
  - rewrite Hd2, Hd1. by rewrite <- app_assoc.
Qed.

Lemma put_source_spec st s :
  pdf_ok st.1 -> 20 <= st.2 ->
  let st' := put_source splitTextToSize st s in
  pdf_ok st'.1 /\ 20 <= st'.2 /\
  pd_fontSize st'.1 = pd_fontSize st.1 /\
  drawn st'.1
  = drawn st.1 ++
    splitTextToSize (pd_fontSize st.1) (title s +:+ " - " +:+ uri s).
Proof.
  intros Hok Hy. unfold put_source.
  destruct (put_lines_spec 5
              (splitTextToSize (pd_fontSize st.1)
                 (title s +:+ " - " +:+ uri s)) st Hok Hy)
    as (Hok1 & Hy1 & Hf1 & Hd1).
  cbn [fst snd]. split_and!; [done | lia | done | done].
Qed.

Lemma put_sources_spec ss st :
  pdf_ok st.1 -> 20 <= st.2 ->
  let st' := foldl (put_source splitTextToSize) st ss in
  pdf_ok st'.1 /\
  drawn st'.1
  = drawn st.1 ++
    concat (map (fun s => splitTextToSize (pd_fontSize st.1)
                            (title s +:+ " - " +:+ uri s)) ss).
Proof.
  revert st. induction ss as [|s ss IH]; intros st Hok Hy; simpl.
  { by rewrite app_nil_r. }
  destruct (put_source_spec st s Hok Hy) as (Hok1 & Hy1 & Hf1 & Hd1).
  destruct (IH _ Hok1 Hy1) as (Hok2 & Hd2).
  split; [done|]. rewrite Hd2, Hd1, Hf1. by rewrite <- app_assoc.
Qed.

Lemma export_pdf_spec result :
  pdf_ok (export_pdf splitTextToSize result) /\
  drawn (export_pdf splitTextToSize result)
  = pdf_lines splitTextToSize result.
Proof.
  unfold export_pdf, pdf_lines.
  set (d0 := setFontSize 12
               (text "Strategic Action Plan" 10 20 (setFontSize 20 jsPDF))).
  assert (Hok0 : pdf_ok d0).
  { split_and!; simpl; [done | constructor |].
    unfold pages. simpl. repeat constructor; simpl; lia. }
  destruct (put_lines_spec 7 (splitTextToSize (pd_fontSize d0) (solution result))
              (d0, 30) Hok0) as (Hok1 & Hy1 & Hf1 & Hd1); [simpl; lia|].
  set (st := foldl (put_line 7) (d0, 30) _) in *.
  simpl in Hf1, Hd1.
  destruct (sources result) as [|s ss] eqn:Hss.
  { simpl. split; [done|]. rewrite Hd1. by rewrite app_nil_r. }
  change (0 <? length (s :: ss)) with true. cbv iota.
  set (st1 := if 280 <? st.2 + 10 then (addPage st.1, 20)
              else (st.1, st.2 + 10)).
  assert (H1 : pdf_ok (text "Sources:" 10 st1.2 (setFontSize 14 st1.1)) /\
               20 <= st1.2 /\
               drawn (text "Sources:" 10 st1.2 (setFontSize 14 st1.1))
               = drawn st.1 ++ ["Sources:"]).
  { pose proof (put_line_spec 0 (setFontSize 14 st.1, st.2 + 10) "Sources:")
      as Hp. simpl in Hp.
    destruct Hp as (Hp1 & Hp2 & _ & Hp4); [done | lia |].
    unfold put_line in Hp1, Hp2, Hp4. simpl in Hp1, Hp2, Hp4.
    unfold st1. destruct (280 <? st.2 + 10); simpl in *;
      (split_and!; [done | lia | done]). }
  destruct H1 as (Hok2 & Hy2 & Hd2).
  match goal with |- context [foldl (put_source _) ?st2 (s :: ss)] =>
    destruct (put_sources_spec (s :: ss) st2) as (Hok3 & Hd3) end;
    [exact Hok2 | cbn [fst snd]; lia |].
  split; [done|]. rewrite Hd3. cbn [fst snd].
  change (drawn (setFontSize 10 ?d)) with (drawn d).
  rewrite Hd2, Hd1. simpl. by rewrite <- app_assoc.
Qed.

(** X22: the exported pdf has no blank page, and every line of text is
    drawn at the left margin, not above y = 20 and not below y = 280. *)
Theorem export_pdf_within_margins result :
  Forall (fun page =>
            page <> [] /\
            Forall (fun dr => dr_x dr = 10 /\ 20 <= dr_y dr <= 280) page)
    (pages (export_pdf splitTextToSize result)).
Proof.
  destruct (export_pdf_spec result) as [(Hp & Hd & Hm) _].
  apply Forall_forall. intros page Hin. split.
  - unfold pages in Hin. apply elem_of_app in Hin as [Hin|Hin].
    + rewrite Forall_forall in Hd. by apply Hd.
    + apply list_elem_of_singleton in Hin. by subst.
  - rewrite Forall_forall in Hm. exact (Hm _ Hin).
Qed.

(** X23: the exported pdf shows, in reading order over its pages, the
    heading, the lines of the solution and, when there are sources, the
    heading of the sources and the lines of each source: no line is lost
    or reordered by the page breaks. *)
Theorem export_pdf_lines_in_order result :
  map dr_text (concat (pages (export_pdf splitTextToSize result)))
  = "Strategic Action Plan" ::
    splitTextToSize 12 (solution result) ++
    match sources result with
    | [] => []
    | _ =>
        "Sources:" ::
        concat (map (fun s =>
                       splitTextToSize 10 (title s +:+ " - " +:+ uri s))
                  (sources result))
    end.
Proof. apply export_pdf_spec. Qed.

End PdfFacts.

(** ** The importer *)

Section ImporterFacts.
Context `{JsNum}.

Lemma split_no_sep s : has_char comma s = false -> split comma s = [s].
Proof.
  induction s as [|c s IH]; [done|]. cbn [has_char split].
  intros [Hc Hs]%orb_false_iff. rewrite Hc, IH by done. done.
Qed.

Lemma split_app a b :
  has_char comma a = false ->
  split comma (a +:+ String comma b) = a :: split comma b.
Proof.
  induction a as [|c a IH]; intros Ha.
  - rewrite append_nil. cbn [split]. by rewrite Ascii.eqb_refl.
  - cbn [has_char] in Ha. apply orb_false_iff in Ha as [Hc Ha].
    rewrite append_cons. cbn [split]. rewrite Hc, IH by done. done.
Qed.

Lemma binary_type_no_comma type :
  isBinary type = true -> has_char comma type = false.
Proof.
  unfold isBinary. intros Hb. apply bool_decide_eq_true in Hb.
  unfold binaryMimeTypes in Hb.
  repeat (apply elem_of_cons in Hb as [->|Hb]; [by vm_compute|]).
  by apply elem_of_nil in Hb.
Qed.

(** X24: when a file of one of the binary types has been read, the file
    that is kept for the request carries the type of the file and exactly
    the base64 part of the data URL, and the text box is emptied. *)
Theorem binary_upload_keeps_payload name type payload st :
  isBinary type = true -> has_char comma payload = false ->
  let st' := onload name type (dataURL type payload) st in
  uploadedFile st' = Some (name, mkFileInput type (Some payload)) /\
  inputText st' = "".
Proof.
  intros Hb Hp.
  assert (Hsplit : split comma (dataURL type payload) !! 1 = Some payload).
  { unfold dataURL.
    assert (Hpre : has_char comma ("data:" +:+ type +:+ ";base64") = false).
    { rewrite !has_char_app, (binary_type_no_comma type Hb). done. }
    replace ("data:" +:+ type +:+ ";base64," +:+ payload)
      with (("data:" +:+ type +:+ ";base64") +:+ String comma payload).
    - rewrite split_app by done. rewrite split_no_sep by done. done.
    - rewrite !append_assoc. do 2 f_equal. }
  unfold onload. rewrite Hb. cbn [uploadedFile inputText].
  by rewrite Hsplit.
Qed.

Lemma importer_step_exclusive e a :
  (is_Some (uploadedFile a.1) -> inputText a.1 = "") ->
  is_Some (uploadedFile (importer_step e a).1) ->
  inputText (importer_step e a).1 = "".
Proof.
  intros Hinv. destruct a as [st g]. simpl in Hinv.
  destruct e as [s|name type result| | |reply|]; simpl.
  - destruct (uploadedFile st) eqn:Hf; simpl.
    + intros _. apply Hinv. rewrite ?Hf. by eexists.
    + destruct (isProcessing st); simpl; rewrite ?Hf; by intros [? ?].
  - unfold onload. destruct (isBinary type); simpl; [done|].
    by intros [? ?].
  - by intros [? ?].
  - destruct (_ || _); simpl; done.
  - unfold processInput_end. destruct (extractKnowledgeFromText reply); simpl;
      done.
  - done.
Qed.

(** X25: whatever the user does and however the requests end, a file is
    never selected while the text box holds text: choosing the file
    over the text for a request never drops text the user typed. *)
Theorem importer_file_excludes_text es graph :
  let a := importer_run es (Importer0, graph) in
  is_Some (uploadedFile a.1) -> inputText a.1 = "".
Proof.
  unfold importer_run.
  induction es as [|e es IH] using rev_ind; simpl.
  - by intros [? ?].
  - rewrite foldl_app. simpl. by apply importer_step_exclusive.
Qed.

End ImporterFacts.

(** ** Concrete runs *)

(** A valid run from a reachable state ends in a reachable state. *)
Lemma reachable_run `{JsNum} {physics : D3Physics} es w :
  reachable w -> valid_run es w = true -> reachable (run es w).
Proof.
  revert w. induction es as [|e es IH]; intros w Hr Hv; simpl; [done|].
  simpl in Hv. apply andb_true_iff in Hv as [Hv Hvs].
  apply IH; [by apply reach_step | done].
Qed.

(** Names the value of an expression that evaluates to [Some x]. *)
Tactic Notation "pose_value" ident(x) constr(e) :=
  let v := eval vm_compute in e in
  lazymatch v with
  | Some ?y => pose (x := y)
  end.

(** Closes an equation between closed terms by evaluating them. *)
Ltac by_computation := vm_compute; exact eq_refl.

Lemma linked_world_reachable : reachable linked_world.
Proof. apply reach_mount. Qed.

Lemma dragged_world_reachable : reachable dragged_world.
Proof.
  apply reachable_run; [apply reach_mount | by_computation].
Qed.

(** The merge of a proposal into the initial graph keeps the initial
    graph. *)
Lemma updateGraph_grows_witness :
  graph_state (H := QNum) INITIAL_DATA /\
  let g := updateGraph INITIAL_DATA [node "Python" "Technology" 1]
             [mkGraphLink "python" "Machine Learning" "implements"] in
  nodes INITIAL_DATA `prefix_of` nodes g /\
  links INITIAL_DATA `prefix_of` links g /\
  (forall n, n ∈ nodes INITIAL_DATA -> n ∈ nodes g) /\
  (forall l, l ∈ links INITIAL_DATA -> l ∈ links g).
Proof.
  split; [constructor|].
  apply (updateGraph_grows (H := QNum) INITIAL_DATA). constructor.
Defined.

(** The statement of C1 fails on the code: a node dragged to (500, 400) is
    there after the next tick, and back at its initial place, at rest,
    after a resize. *)
Lemma resize_resets_positions :
  reachable dragged_world /\
  map kin_of (active_nodes dragged_world)
    = [mkKin (q 500) (q 400) (q 0) (q 0)] /\
  map kin_of
    (active_nodes (step (Resize (q 1024) (q 768)) dragged_world))
    = [mkKin (q 7.0711) (q 0) (q 0) (q 0)] /\
  map kin_of
    (active_nodes (step (Resize (q 1024) (q 768)) dragged_world))
    <> map kin_of (active_nodes dragged_world).
Proof.
  assert (Hbefore : map kin_of (active_nodes dragged_world)
            = [mkKin (q 500) (q 400) (q 0) (q 0)])
    by by_computation.
  assert (Hafter : map kin_of
            (active_nodes (step (Resize (q 1024) (q 768)) dragged_world))
            = [mkKin (q 7.0711) (q 0) (q 0) (q 0)])
    by by_computation.
  split_and!; [apply dragged_world_reachable | exact Hbefore | exact Hafter |].
  rewrite Hbefore, Hafter. discriminate.
Qed.

(** C1 as amended, on a resize after the drag. *)
Lemma resize_reinitializes_witness :
  reachable dragged_world /\ is_mounted dragged_world = true /\
  data_nodes dragged_world <> [] /\
  (forall k s0, cleanup dragged_world = Some k ->
     sims dragged_world !! k = Some s0 ->
     sims (step (Resize (q 1024) (q 768)) dragged_world) !! k
       = Some (stop s0)) /\
  exists s,
    active_sim (step (Resize (q 1024) (q 768)) dragged_world) = Some s /\
    cleanup (step (Resize (q 1024) (q 768)) dragged_world)
      = Some (length (sims dragged_world)) /\
    is_mounted (step (Resize (q 1024) (q 768)) dragged_world) = true /\
    s_center s = Some (ndiv (q 1024) (lit 2), ndiv (q 768) (lit 2)) /\
    s_ticks s = 0 /\ s_alpha s = lit 1 /\
    length (s_nodes s) = length (data_nodes dragged_world) /\
    forall i l, s_nodes s !! i = Some l ->
      exists l0 n, data_nodes dragged_world !! i = Some l0 /\
        heap_nodes dragged_world !! l0 = Some (host_node n) /\
        heap_nodes (step (Resize (q 1024) (q 768)) dragged_world)
          !! l = Some (fresh_node i n).
Proof.
  assert (Hm : is_mounted dragged_world = true) by by_computation.
  assert (Hne : data_nodes dragged_world <> [])
    by (vm_compute; discriminate).
  split_and!; [apply dragged_world_reachable | exact Hm | exact Hne | |];
    apply (resize_reinitializes (H := QNum) (physics := QPhysics)
             dragged_world (q 1024) (q 768)
             dragged_world_reachable Hm Hne).
Defined.

(** C7 on a session of ticks, a drag, a resize and a new snapshot. *)
Lemma caller_objects_never_mutated_witness :
  reachable linked_world /\ valid_run session linked_world = true /\
  Forall (fun l => caller_node linked_world l = true)
    (data_nodes linked_world) /\
  Forall (fun l => caller_link linked_world l = true)
    (data_links linked_world) /\
  (forall l, caller_node linked_world l = true ->
     heap_nodes (run session linked_world) !! l
       = heap_nodes linked_world !! l) /\
  (forall l, caller_link linked_world l = true ->
     heap_links (run session linked_world) !! l
       = heap_links linked_world !! l).
Proof.
  assert (Hv : valid_run session linked_world = true)
    by by_computation.
  split; [apply linked_world_reachable|]. split; [exact Hv|].
  exact (caller_objects_never_mutated (H := QNum) (physics := QPhysics)
           linked_world session linked_world_reachable Hv).
Defined.

(** The statement of C8 fails on the code: after an empty snapshot the
    circles of the stopped simulation are still on screen; a pointer-down
    on one restarts it, the unmount that follows stops nothing, and three
    animation frames after the unmount tick the simulation three times and
    move the second node away from x = -9.0309. *)
Lemma unmount_leaves_restarted_simulation :
  reachable restarted_unmounted /\
  status restarted_unmounted = Unmounted /\
  cleanup restarted_unmounted = None /\
  (exists s d, sims restarted_unmounted !! 0 = Some s /\
     s_running s = true /\ s_ticks s = 0 /\
     heap_nodes restarted_unmounted !! 3 = Some d /\
     n_id (o_data d) = "B" /\ o_x d = q (-9.0309)) /\
  (exists s d x,
     sims (run (replicate 3 Frame) restarted_unmounted) !! 0 = Some s /\
     s_running s = true /\ s_ticks s = 3 /\
     heap_nodes (run (replicate 3 Frame) restarted_unmounted) !! 3 = Some d /\
     n_id (o_data d) = "B" /\ o_x d = q x /\ ~ (x == -9.0309)%Q).
Proof.
  split.
  { apply reachable_run; [apply linked_world_reachable | by_computation]. }
  split; [by_computation|]. split; [by_computation|]. split.
  - pose_value s (sims restarted_unmounted !! 0).
    pose_value d (heap_nodes restarted_unmounted !! 3).
    exists s, d. split_and!; by_computation.
  - pose_value s (sims (run (replicate 3 Frame) restarted_unmounted) !! 0).
    pose_value d (heap_nodes (run (replicate 3 Frame) restarted_unmounted) !! 3).
    pose_value x (o_x d).
    exists s, d, x. split_and!; try by_computation.
    intros Heq. vm_compute in Heq. discriminate.
Qed.

(** C8 as amended, on the unmount of a component with two linked nodes. *)
Lemma teardown_stops_work_witness :
  reachable linked_world /\ valid_event linked_world Unmount = true /\
  is_teardown (H := QNum) Unmount = true /\
  is_mounted linked_world = true /\ cleanup linked_world = Some 0 /\
  exists s, sims linked_world !! 0 = Some s /\
    (exists s', sims (run (replicate 3 Frame) (step Unmount linked_world)) !! 0
                  = Some s' /\
       s_running s' = false /\ s_ticks s' = s_ticks s /\
       forall l, l ∈ s_nodes s ->
         heap_nodes (run (replicate 3 Frame) (step Unmount linked_world)) !! l
           = heap_nodes linked_world !! l) /\
    (attached (step Unmount linked_world) <> Some 0 ->
     forall es, valid_run es (step Unmount linked_world) = true ->
       torn_down 0 s linked_world (run es (step Unmount linked_world))) /\
    (forall w0 : World, is_mounted w0 = true -> cleanup w0 = None ->
       sims (step Unmount w0) = sims w0 /\
       heap_nodes (step Unmount w0) = heap_nodes w0).
Proof.
  assert (Hm : is_mounted linked_world = true) by by_computation.
  assert (Hc : cleanup linked_world = Some 0) by by_computation.
  pose_value s (sims linked_world !! 0).
  assert (Hs : sims linked_world !! 0 = Some s) by by_computation.
  split_and!; [apply linked_world_reachable | done | done | exact Hm | exact Hc |].
  exists s. split; [exact Hs|].
  exact (teardown_stops_work (H := QNum) (physics := QPhysics)
           linked_world Unmount 0 s 3 linked_world_reachable
           eq_refl eq_refl Hm Hc Hs).
Defined.

(** C4 on the first tick of two linked nodes. *)
Lemma tick_repositions_primitives_witness :
  reachable linked_world /\
  exists s sc, sims linked_world !! 0 = Some s /\ s_running s = true /\
    s_scene s = Some sc /\
    exists s' sc', sims (step Frame linked_world) !! 0 = Some s' /\
      s_ticks s' = S (s_ticks s) /\ s_scene s' = Some sc' /\
      scene_data sc' = scene_data sc /\
      rendered (heap_nodes (step Frame linked_world))
        (heap_links (step Frame linked_world)) sc'.
Proof.
  pose_value s (sims linked_world !! 0).
  pose_value sc ((sims linked_world !! 0) ≫= s_scene).
  assert (Hs : sims linked_world !! 0 = Some s) by by_computation.
  assert (Hrun : s_running s = true) by reflexivity.
  assert (Hsc : s_scene s = Some sc) by reflexivity.
  split; [apply linked_world_reachable|]. exists s, sc.
  split_and!; [exact Hs | exact Hrun | exact Hsc |].
  exact (tick_repositions_primitives (H := QNum) (physics := QPhysics)
           linked_world 0 s sc linked_world_reachable Hs Hrun Hsc).
Defined.

(** The statement of C5 fails on the code: with two fingers down, lifting
    the first one clears the pin of its node and leaves the alpha target
    at 0.3. *)
Lemma pointer_up_keeps_alpha_target :
  reachable (run two_fingers linked_world) /\
  exists s d,
    sims (run two_fingers linked_world) !! 0 = Some s /\
    heap_nodes (run two_fingers linked_world) !! 2 = Some d /\
    n_id (o_data d) = "A" /\ o_fx d = None /\ o_fy d = None /\
    s_alphaTarget s = lit 0.3 /\ s_alphaTarget s <> lit 0.
Proof.
  split.
  { apply reachable_run; [apply linked_world_reachable | by_computation]. }
  pose_value s (sims (run two_fingers linked_world) !! 0).
  pose_value d (heap_nodes (run two_fingers linked_world) !! 2).
  exists s, d. split_and!; try by_computation. discriminate.
Qed.

(** C5 as amended: the second node, still held, is at its pin after a
    tick. *)
Lemma drag_pins_node_witness :
  exists d',
    heap_nodes (step Frame (run two_fingers linked_world)) !! 3 = Some d' /\
    held_at (q (-9.0309)) (q 8.273) d'.
Proof.
  assert (Hr : reachable (run two_fingers linked_world)).
  { apply reachable_run; [apply linked_world_reachable | by_computation]. }
  pose_value s (sims (run two_fingers linked_world) !! 0).
  pose_value d (heap_nodes (run two_fingers linked_world) !! 3).
  assert (Hs : sims (run two_fingers linked_world) !! 0 = Some s)
    by by_computation.
  assert (Hd : heap_nodes (run two_fingers linked_world) !! 3 = Some d)
    by by_computation.
  assert (Hrun : s_running s = true) by reflexivity.
  assert (Hp : pinned_at (q (-9.0309)) (q 8.273) d) by (split; reflexivity).
  assert (Hl : 3 ∈ s_nodes s).
  { apply elem_of_cons. right. apply elem_of_cons. by left. }
  exact (proj2 (proj2 (proj2
           (drag_pins_node (H := QNum) (physics := QPhysics))))
           (run two_fingers linked_world) 0 s 3 d (q (-9.0309)) (q 8.273)
           Hr Hs Hrun Hl Hd Hp).
Defined.

(** The statement of C2 fails on the code: the effect run on two nodes
    with a link to a node that is not there fails after the timer of the
    new simulation was started; no cleanup is registered, and after the
    unmount three animation frames tick the simulation three times. *)
Lemma dangling_link_leaves_timer_running :
  dangling (rendered_first two_nodes broken_links) /\
  status (mount two_nodes broken_links)
  = Crashed (NodeNotFound "Nonexistent") /\
  cleanup (mount two_nodes broken_links) = None /\
  (exists s, sims (mount two_nodes broken_links) !! 0 = Some s /\
     s_running s = true /\ s_ticks s = 0) /\
  (exists s,
     sims (run (Unmount :: replicate 3 Frame) (mount two_nodes broken_links))
       !! 0 = Some s /\
     s_running s = true /\ s_ticks s = 3).
Proof.
  split_and!.
  - exists (host_link (mkGraphLink "A" "Nonexistent" "uses")), "Nonexistent".
    split_and!.
    + vm_compute. left.
    + by right.
    + apply (bool_decide_unpack _). vm_compute. exact I.
  - by_computation.
  - by_computation.
  - pose_value s (sims (mount two_nodes broken_links) !! 0).
    exists s. split_and!; by_computation.
  - pose_value s
      (sims (run (Unmount :: replicate 3 Frame)
               (mount two_nodes broken_links)) !! 0).
    exists s. split_and!; by_computation.
Qed.

(** C2 as amended, on the first render of two nodes with a link to a node
    that is not there. *)
Lemma dangling_link_fails_setup_witness :
  dangling (rendered_first two_nodes broken_links) /\
  exists i s,
    (i ∉ snapshot_ids (rendered_first two_nodes broken_links)) /\
    status (mount two_nodes broken_links) = Crashed (NodeNotFound i) /\
    cleanup (mount two_nodes broken_links) = None /\
    attached (mount two_nodes broken_links) = None /\
    sims (mount two_nodes broken_links) = [] ++ [s] /\
    s_ticks s = 0 /\ s_center s = None /\ s_scene s = None /\
    s_running s = true.
Proof.
  assert (Hd : dangling (rendered_first two_nodes broken_links)).
  { exists (host_link (mkGraphLink "A" "Nonexistent" "uses")), "Nonexistent".
    split_and!.
    - vm_compute. left.
    - by right.
    - apply (bool_decide_unpack _). vm_compute. exact I. }
  assert (Hne : data_nodes (rendered_first two_nodes broken_links) <> [])
    by (vm_compute; discriminate).
  split; [exact Hd|].
  exact (proj1 (dangling_link_fails_setup (H := QNum) (physics := QPhysics))
           (rendered_first two_nodes broken_links) Hd Hne eq_refl).
Defined.

(** The statement of C3 fails on the code: two nodes of groups X and Y get
    the first and the second color; when the same two node objects are
    passed again in the other order, the node of group X has the second
    color. *)
Lemma replacement_recolors_group :
  reachable (step reordered (mount two_groups [])) /\
  (exists s sc, active_sim (mount two_groups []) = Some s /\
     s_scene s = Some sc /\
     map lb_text (sc_label sc) = ["A"; "B"] /\
     map c_fill (sc_node sc) = [Some "#1f77b4"; Some "#ff7f0e"]) /\
  (exists s sc, active_sim (step reordered (mount two_groups [])) = Some s /\
     s_scene s = Some sc /\
     map lb_text (sc_label sc) = ["B"; "A"] /\
     map c_fill (sc_node sc) = [Some "#1f77b4"; Some "#ff7f0e"]) /\
  node_fills ["X"; "Y"] !! 0 = Some (Some "#1f77b4") /\
  node_fills ["Y"; "X"] !! 1 = Some (Some "#ff7f0e") /\
  node_fills ["X"; "Y"] !! 0 <> node_fills ["Y"; "X"] !! 1.
Proof.
  split.
  { apply reach_step; [apply reach_mount | by_computation]. }
  split.
  { pose_value s (active_sim (mount two_groups [])).
    pose_value sc (s_scene s).
    exists s, sc. split_and!; by_computation. }
  split.
  { pose_value s (active_sim (step reordered (mount two_groups []))).
    pose_value sc (s_scene s).
    exists s, sc. split_and!; by_computation. }
  split_and!; [by_computation | by_computation | discriminate].
Qed.

(** The statement of C6 fails on the code: when an empty snapshot replaces
    two linked nodes, the two circles and the line of the stopped
    simulation are still on screen, and after a pointer-down on the first
    circle two animation frames tick that simulation twice. *)
Lemma empty_snapshot_keeps_scene :
  reachable (step emptied linked_world) /\
  data_nodes (step emptied linked_world) = [] /\
  status (step emptied linked_world) = Mounted /\
  attached (step emptied linked_world) = Some 0 /\
  (exists s sc, sims (step emptied linked_world) !! 0 = Some s /\
     s_running s = false /\ s_scene s = Some sc /\
     length (sc_node sc) = 2 /\ length (sc_link sc) = 1) /\
  (exists s,
     sims (run [emptied; DragStart 0 0 (at_pointer 0 7.0711 0); Frame; Frame]
             linked_world) !! 0 = Some s /\
     s_running s = true /\ s_ticks s = 2).
Proof.
  split.
  { apply reach_step; [apply linked_world_reachable | by_computation]. }
  split_and!; try by_computation.
  - pose_value s (sims (step emptied linked_world) !! 0).
    pose_value sc (s_scene s).
    exists s, sc. split_and!; by_computation.
  - pose_value s
      (sims (run [emptied; DragStart 0 0 (at_pointer 0 7.0711 0);
                  Frame; Frame] linked_world) !! 0).
    exists s. split_and!; by_computation.
Qed.

(** ** Concrete runs for the further properties *)

(** A proposal with a new node, a node that is there up to case, and two
    links. *)
Definition proposal_nodes : list (GraphNode (H := QNum)) :=
  [node "Python" "Technology" 1; node "gdpr" "Law" 2].

Definition proposal_links : list GraphLink :=
  [mkGraphLink "Python" "Machine Learning" "implements";
   mkGraphLink "python" "Unknown" "uses"].

Definition merged : KnowledgeGraphData :=
  updateGraph INITIAL_DATA proposal_nodes proposal_links.

Lemma merged_graph_state : graph_state merged.
Proof. apply gs_update. constructor. Qed.

(** X3 on the merge of the proposal into the initial graph. *)
Lemma updateGraph_appends_fresh_nodes_witness :
  graph_state (H := QNum) INITIAL_DATA /\
  exists added,
    nodes merged = nodes INITIAL_DATA ++ added /\
    (forall a, a ∈ added ->
       exists n, n ∈ proposal_nodes /\ a = with_val5 n /\
         forall p, p ∈ nodes INITIAL_DATA ->
           toLowerCase (n_id p) <> toLowerCase (n_id n)) /\
    (forall n, n ∈ proposal_nodes ->
       exists a, a ∈ nodes merged /\
         toLowerCase (n_id a) = toLowerCase (n_id n)).
Proof.
  split; [constructor|].
  exact (updateGraph_appends_fresh_nodes (H := QNum) INITIAL_DATA
           proposal_nodes proposal_links (gs_initial (H := QNum))).
Defined.

(** X4 on the link that the merge added. *)
Lemma graph_state_links_resolve_witness :
  graph_state merged /\
  mkGraphLink "Python" "Machine Learning" "implements" ∈ links merged /\
  (exists n, n ∈ nodes merged /\
     toLowerCase (n_id n) = toLowerCase "Python") /\
  (exists n, n ∈ nodes merged /\
     toLowerCase (n_id n) = toLowerCase "Machine Learning").
Proof.
  assert (Hl : mkGraphLink "Python" "Machine Learning" "implements"
               ∈ links merged).
  { apply list_elem_of_lookup_2 with 6. by_computation. }
  split; [apply merged_graph_state|]. split; [exact Hl|].
  exact (graph_state_links_resolve (H := QNum) merged merged_graph_state
           _ Hl).
Defined.

(** X5 on the merged graph. *)
Lemma graph_state_link_keys_distinct_witness :
  graph_state merged /\ NoDup (map link_key (links merged)).
Proof.
  split; [apply merged_graph_state|].
  exact (graph_state_link_keys_distinct (H := QNum) merged
           merged_graph_state).
Defined.

(** X6 on the merge of the proposal into the initial graph. *)
Lemma updateGraph_growth_bounds_witness :
  graph_state (H := QNum) INITIAL_DATA /\
  length (nodes (H := QNum) INITIAL_DATA) <= length (nodes merged) <=
    length (nodes (H := QNum) INITIAL_DATA) + length proposal_nodes /\
  length (links (H := QNum) INITIAL_DATA) <= length (links merged) <=
    length (links (H := QNum) INITIAL_DATA) + length proposal_links.
Proof.
  split; [constructor|].
  exact (updateGraph_growth_bounds (H := QNum) INITIAL_DATA
           proposal_nodes proposal_links (gs_initial (H := QNum))).
Defined.

(** X8 on the proposed link from the proposed node to a node of the
    initial graph. *)
Lemma updateGraph_keeps_resolvable_links_witness :
  exists l', l' ∈ links merged /\
    link_key l'
    = link_key (mkGraphLink "Python" "Machine Learning" "implements").
Proof.
  apply (updateGraph_keeps_resolvable_links (H := QNum) INITIAL_DATA
           proposal_nodes proposal_links
           (mkGraphLink "Python" "Machine Learning" "implements")).
  - apply list_elem_of_lookup_2 with 0. reflexivity.
  - exists (node "Python" "Technology" 1). split; [|reflexivity].
    apply list_elem_of_lookup_2 with 7. reflexivity.
  - exists (node "Machine Learning" "Technology" 5). split; [|reflexivity].
    apply list_elem_of_lookup_2 with 1. reflexivity.
Defined.

(** X10 on two linked nodes. *)
Lemma mount_renders_snapshot_witness :
  two_nodes <> [] /\
  exists s sc,
    status (mount two_nodes two_links) = Mounted /\
    active_sim (mount two_nodes two_links) = Some s /\
    s_running s = true /\ s_scene s = Some sc /\
    length (s_nodes s) = length two_nodes /\
    length (s_links s) = length two_links /\
    map c_datum (sc_node sc) = s_nodes s /\
    Forall (fun c => c_r c = lit 8) (sc_node sc) /\
    map lb_text (sc_label sc) = map n_id two_nodes /\
    map ln_datum (sc_link sc) = s_links s /\
    map ll_text (sc_linkLabel sc) = map l_relationship two_links.
Proof.
  assert (Hne : two_nodes <> []) by discriminate.
  assert (Hall : forall l, l ∈ two_links ->
            l_source l ∈ map n_id two_nodes /\
            l_target l ∈ map n_id two_nodes).
  { intros l Hl. apply list_elem_of_singleton in Hl. subst l.
    split; apply (bool_decide_unpack _); vm_compute; exact I. }
  split; [exact Hne|].
  exact (mount_renders_snapshot (H := QNum) (physics := QPhysics)
           two_nodes two_links Hne Hall).
Defined.

(** X11 on three nodes of two groups. *)
Lemma fill_tells_group_witness :
  node_fills ["Technology"; "Concept"; "Technology"] !! 0
    = node_fills ["Technology"; "Concept"; "Technology"] !! 2
  <-> "Technology" = "Technology".
Proof.
  apply (fill_tells_group ["Technology"; "Concept"; "Technology"] 0 2);
    [reflexivity | reflexivity | vm_compute; lia].
Defined.

(** Eleven nodes of eleven groups. *)
Definition eleven_groups : list string :=
  ["a"; "b"; "c"; "d"; "e"; "f"; "g"; "h"; "i"; "j"; "k"].

(** X12: the eleventh group has the color of the first. *)
Lemma palette_wraps_witness :
  "a" <> "k" /\ node_fills eleven_groups !! 0 = node_fills eleven_groups !! 10.
Proof.
  apply (palette_wraps eleven_groups 0 10 "a" "k" 0); by_computation.
Defined.

(** X13 on the first node of two linked nodes, dragged to (500, 400). *)
Lemma drag_gesture_moves_node_witness :
  exists d',
    heap_nodes
      (run [DragStart 0 0 (at_pointer 0 7.0711 0);
            Drag 0 0 (at_pointer 0 500 400);
            Frame;
            DragEnd 0 0 (at_pointer 0 500 400)] linked_world) !! 2
    = Some d' /\
    o_x d' = q 500 /\ o_y d' = q 400 /\
    o_vx d' = lit 0 /\ o_vy d' = lit 0 /\
    o_fx d' = None /\ o_fy d' = None.
Proof.
  pose_value s (sims linked_world !! 0).
  pose_value sc ((sims linked_world !! 0) ≫= s_scene).
  pose_value c (sc_node sc !! 0).
  assert (Ha : attached linked_world = Some 0) by by_computation.
  assert (Hs : sims linked_world !! 0 = Some s) by by_computation.
  assert (Hsc : s_scene s = Some sc) by reflexivity.
  assert (Hc : sc_node sc !! 0 = Some c) by reflexivity.
  exact (drag_gesture_moves_node (H := QNum) (physics := QPhysics)
           linked_world 0 0 s sc c (at_pointer 0 7.0711 0)
           (at_pointer 0 500 400) (at_pointer 0 500 400)
           linked_world_reachable Ha Hs Hsc Hc eq_refl).
Defined.

(** X14 on the first frame of two linked nodes. *)
Lemma frame_only_moves_nodes_witness :
  exists d, heap_nodes linked_world !! 2 = Some d /\
    heap_links (step Frame linked_world) = heap_links linked_world /\
    exists d', heap_nodes (step Frame linked_world) !! 2 = Some d' /\
      o_data d' = o_data d /\ o_index d' = o_index d /\
      o_fx d' = o_fx d /\ o_fy d' = o_fy d.
Proof.
  pose_value d (heap_nodes linked_world !! 2).
  assert (Hd : heap_nodes linked_world !! 2 = Some d) by by_computation.
  exists d. split; [exact Hd|].
  exact (frame_only_moves_nodes (H := QNum) (physics := QPhysics)
           linked_world 2 d Hd).
Defined.

(** X15 on two linked nodes. *)
Lemma displayed_simulation_set_up_witness :
  reachable linked_world /\
  (forall k, cleanup linked_world = Some k ->
     attached linked_world = Some k /\ status linked_world = Mounted) /\
  (forall k, attached linked_world = Some k ->
     exists s, sims linked_world !! k = Some s /\
       is_Some (s_center s) /\ is_Some (s_scene s)).
Proof.
  split; [apply linked_world_reachable|].
  exact (displayed_simulation_set_up (H := QNum) (physics := QPhysics)
           linked_world linked_world_reachable).
Defined.

(** A new snapshot for two linked nodes: the caller's two nodes and a
    third one, the caller's link and a second one. *)
Definition third_node : Event :=
  SetData [node "C" "Industry" 5] [mkGraphLink "B" "C" "serves"]
    [0; 1; 4] [0; 2].

(** X16 on this snapshot. *)
Lemma new_snapshot_restarts_layout_witness :
  reachable linked_world /\ valid_event linked_world third_node = true /\
  is_mounted linked_world = true /\
  exists s, active_sim (step third_node linked_world) = Some s /\
    (forall k s0, cleanup linked_world = Some k ->
       sims linked_world !! k = Some s0 ->
       sims (step third_node linked_world) !! k = Some (stop s0)) /\
    cleanup (step third_node linked_world) = Some (length (sims linked_world)) /\
    s_center s = Some (ndiv (dimensions linked_world).1 (lit 2),
                       ndiv (dimensions linked_world).2 (lit 2)) /\
    s_ticks s = 0 /\ s_alpha s = lit 1 /\ s_running s = true /\
    length (s_nodes s) = length [0; 1; 4] /\
    forall i l, s_nodes s !! i = Some l ->
      exists l0 n, [0; 1; 4] !! i = Some l0 /\
        (heap_nodes linked_world ++ map host_node [node "C" "Industry" 5])
          !! l0 = Some (host_node n) /\
        heap_nodes (step third_node linked_world) !! l
        = Some (fresh_node i n).
Proof.
  assert (Hv : valid_event linked_world third_node = true) by by_computation.
  assert (Hm : is_mounted linked_world = true) by by_computation.
  pose_value s (active_sim (step third_node linked_world)).
  assert (Hs : active_sim (step third_node linked_world) = Some s)
    by by_computation.
  split_and!; [apply linked_world_reachable | exact Hv | exact Hm |].
  exists s. split; [exact Hs|].
  exact (new_snapshot_restarts_layout (H := QNum) (physics := QPhysics)
           linked_world [node "C" "Industry" 5]
           [mkGraphLink "B" "C" "serves"] [0; 1; 4] [0; 2] s
           linked_world_reachable Hv Hm Hs).
Defined.

(** X20 on a source without quotes. *)
Lemma csv_source_reads_back_witness :
  exists body,
    sourceRow (mkSource "Example" "https://example.org")
    = "Source," +:+ String dquote body /\
    read_quoted body = Some ("Example (https://example.org)", "").
Proof.
  exact (csv_source_reads_back (mkSource "Example" "https://example.org")
           eq_refl eq_refl).
Defined.

(** X21 on a title with a quoted word. *)
Lemma csv_source_quote_breaks_cell_witness :
  exists body,
    sourceRow (mkSource ("The " +:+ String dquote "new" +:+ String dquote " plan")
                 "https://example.org")
    = "Source," +:+ String dquote body /\
    read_quoted body
    = Some ("The ",
            ("new" +:+ String dquote " plan") +:+ " (" +:+
            "https://example.org" +:+ ")" +:+ String dquote "").
Proof.
  exact (proj2 csv_source_quote_breaks_cell "The "
           ("new" +:+ String dquote " plan") "https://example.org"
           eq_refl ltac:(discriminate)).
Defined.

(** X24 on a pdf file. *)
Lemma binary_upload_keeps_payload_witness :
  uploadedFile
    (onload "a.pdf" "application/pdf"
       (dataURL "application/pdf" "JVBERi0xLjQK") Importer0)
  = Some ("a.pdf", mkFileInput "application/pdf" (Some "JVBERi0xLjQK")) /\
  inputText
    (onload "a.pdf" "application/pdf"
       (dataURL "application/pdf" "JVBERi0xLjQK") Importer0)
  = "".
Proof.
  exact (binary_upload_keeps_payload "a.pdf" "application/pdf"
           "JVBERi0xLjQK" Importer0 eq_refl eq_refl).
Defined.

(** X25: the user types, then selects a pdf file. *)
Lemma importer_file_excludes_text_witness :
  inputText
    (importer_run (H := QNum)
       [TextChanged "notes";
        FileRead "a.pdf" "application/pdf"
          (dataURL "application/pdf" "JVBERi0xLjQK")]
       (Importer0, INITIAL_DATA)).1
  = "".
Proof.
  apply (importer_file_excludes_text (H := QNum)
           [TextChanged "notes";
            FileRead "a.pdf" "application/pdf"
              (dataURL "application/pdf" "JVBERi0xLjQK")] INITIAL_DATA).
  vm_compute. by eexists.
Defined.
